(** * openxal-scripts: 4D emittance measurement

    A shallow embedding of the numerical core of

      - [emittance_measurement_4D/lib/analysis.py]
      - [emittance_measurement_4D/lib/optics.py]
      - [emittance_measurement_4D/lib/plotting.py]
      - [emittance_measurement_4D/target_image/target_image_analysis.py]

    Python floats are read as real numbers: [+], [-], [*] are exact, and
    the operations that can raise ([math.sqrt] of a negative number, a
    division by zero) return an error value.  Exceptions are values of
    [exn]; a computation that can raise lives in [result].  Where the
    outcome of the code rests on the sign of a rounding error, as in
    [is_valid_cov], the functions are given a second time on IEEE 754
    doubles (module [Double]). *)

From Stdlib Require Import Reals Lra Lia ZArith List String.
From Stdlib Require Floats.PrimFloat.
From stdpp Require Import base strings gmap.
Import ListNotations.

Open Scope R_scope.

(** ** Python values, exceptions and float operations *)

Module Py.

Inductive exn : Type :=
| ValueError (msg : string)
| ZeroDivisionError
| KeyError (key : string)
| IndexError
| TypeError (msg : string)
| NameError (name : string)
| UnboundLocalError (name : string)
| AttributeError (msg : string)
| RuntimeError (msg : string).

Inductive result (A : Type) : Type :=
| Ok (a : A)
| Err (e : exn).
Arguments Ok {A} a.
Arguments Err {A} e.

Definition bind {A B : Type} (c : result A) (k : A -> result B) : result B :=
  match c with
  | Ok a => k a
  | Err e => Err e
  end.

(** Comparisons of floats, as booleans. *)
Definition Rltb (x y : R) : bool := if Rlt_dec x y then true else false.
Definition Rleb (x y : R) : bool := if Rle_dec x y then true else false.
Definition Reqb (x y : R) : bool := if Req_dec_T x y then true else false.

(** [math.sqrt]: raises [ValueError: math domain error] below zero. *)
Definition py_sqrt (x : R) : result R :=
  if Rltb x 0 then Err (ValueError "math domain error") else Ok (sqrt x).

(** Float division [x / y]: raises [ZeroDivisionError] when [y] is zero. *)
Definition py_div (x y : R) : result R :=
  if Reqb y 0 then Err ZeroDivisionError else Ok (x / y).

(** [math.atan2(y, x)] on the reals (signed zeros are not modelled). *)
Definition atan2 (y x : R) : R :=
  if Rltb 0 x then atan (y / x)
  else if Rltb x 0 then
    (if Rleb 0 y then atan (y / x) + PI else atan (y / x) - PI)
  else if Rltb 0 y then PI / 2
  else if Rltb y 0 then - (PI / 2)
  else 0.

(** Unpacking a sequence into a fixed number of names. *)
Definition unpack_error {A : Type} : result A :=
  Err (ValueError "wrong number of values to unpack").

End Py.
Export Py.

Notation "x <- c1 ;; c2" := (bind c1 (fun x => c2))
  (at level 100, c1 at next level, right associativity).

(** ** The dense matrices of the Jama library

    A [Matrix] is Jama's row-major [double[][]].  Only the operations the
    scripts call are modelled, with their mathematical meaning.  Jama
    raises on a dimension mismatch; every product taken below is of 4x4
    matrices. *)

Module Jama.

Definition Matrix : Type := list (list R).

Definition get (M : Matrix) (i j : nat) : R := nth j (nth i M []) 0.

Definition nrows (M : Matrix) : nat := length M.
Definition ncols (M : Matrix) : nat := length (hd [] M).

Definition rsum (l : list R) : R := fold_right Rplus 0 l.

Definition dot (u v : list R) : R :=
  rsum (map (fun p : R * R => fst p * snd p) (combine u v)).

Definition column (M : Matrix) (j : nat) : list R :=
  map (fun row : list R => nth j row 0) M.

Definition transpose (M : Matrix) : Matrix :=
  map (column M) (seq 0 (ncols M)).

Definition times (A B : Matrix) : Matrix :=
  map (fun row : list R => map (fun j => dot row (column B j)) (seq 0 (ncols B))) A.

Definition minus (A B : Matrix) : Matrix :=
  map (fun p : list R * list R =>
         map (fun q : R * R => fst q - snd q) (combine (fst p) (snd p)))
      (combine A B).

Definition trace (M : Matrix) : R :=
  rsum (map (fun i => get M i i) (seq 0 (Nat.min (nrows M) (ncols M)))).

(** Frobenius norm. *)
Definition normF (M : Matrix) : R :=
  sqrt (rsum (map (fun row : list R => rsum (map (fun x => x * x) row)) M)).

Definition remove_nth {A : Type} (j : nat) (l : list A) : list A :=
  firstn j l ++ skipn (S j) l.

(** Determinant, by expansion along the first row. *)
Fixpoint det_rec (n : nat) (M : Matrix) : R :=
  match n, M with
  | S n', row :: rest =>
      rsum (map (fun j =>
                   (if Nat.even j then 1 else -1) * nth j row 0
                   * det_rec n' (map (remove_nth j) rest))
                (seq 0 n))
  | _, _ => 1
  end.

Definition det (M : Matrix) : R := det_rec (nrows M) M.

(** [Matrix.identity(m, n)] and the product by a scalar. *)
Definition identity (m n : nat) : Matrix :=
  map (fun i => map (fun j => if Nat.eqb i j then 1 else 0) (seq 0 n)) (seq 0 m).

Definition timesScalar (s : R) (M : Matrix) : Matrix :=
  map (map (fun x => s * x)) M.

(** [Matrix(m, n, s)]: the constant matrix, and [M.set(i, j, s)]. *)
Definition constant (m n : nat) (s : R) : Matrix := repeat (repeat s n) m.

Definition set (M : Matrix) (i j : nat) (s : R) : Matrix :=
  <[i := <[j := s]> (nth i M [])]> M.

(** The product of a matrix and a vector. *)
Definition mulv (A : Matrix) (x : list R) : list R :=
  map (fun row : list R => dot row x) A.

Definition symmetric4 (M : Matrix) : Prop :=
  forall i j, (i < 4)%nat -> (j < 4)%nat -> get M i j = get M j i.

End Jama.
Export Jama.

(** ** [utils.py] *)

Module Utils.

(** Modelled from the spec: [utils.py] is not part of the sources at
    hand.  The spec lists it under angle conversion ([radians], [degrees]). *)
Definition radians (angle_in_degrees : R) : R := angle_in_degrees * PI / 180.

(** Modelled from the spec: [utils.put_angle_in_range], of which the
    spec says that it wraps an angle into [0, 2 pi): the angle is
    reduced modulo [2 pi]. *)
Definition put_angle_in_range (angle : R) : R :=
  angle - IZR (Int_part (angle / (2 * PI))) * (2 * PI).

(** Modelled from the spec: [utils.diagonal_matrix], which builds a
    diagonal matrix from the list of its diagonal entries. *)
Definition diagonal_matrix (values : list R) : Matrix :=
  map (fun i => map (fun j => if Nat.eqb i j then nth i values 0 else 0)
                    (seq 0 (length values)))
      (seq 0 (length values)).

End Utils.
Export Utils.

(** ** [lib/analysis.py]: covariance matrix analysis *)

Module Analysis.

(** The dictionary [str_to_int] of [rms_ellipse_dims]; a missing key
    raises [KeyError]. *)
Definition str_to_int (dim : string) : result nat :=
  if String.eqb dim "x" then Ok 0%nat
  else if String.eqb dim "xp" then Ok 1%nat
  else if String.eqb dim "y" then Ok 2%nat
  else if String.eqb dim "yp" then Ok 3%nat
  else Err (KeyError dim).

(** [rms_ellipse_dims(Sigma, dim1, dim2)]: returns [(phi, c1, c2)]. *)
Definition rms_ellipse_dims (Sigma : Matrix) (dim1 dim2 : string)
  : result (R * R * R) :=
  i <- str_to_int dim1 ;;
  j <- str_to_int dim2 ;;
  let sig_ii := get Sigma i i in
  let sig_jj := get Sigma j j in
  let sig_ij := get Sigma i j in
  let phi := - (1 / 2) * atan2 (2 * sig_ij) (sig_ii - sig_jj) in
  let sn := sin phi in
  let cs := cos phi in
  let sn2 := sn ^ 2 in
  let cs2 := cs ^ 2 in
  c1 <- py_sqrt (Rabs (sig_ii * cs2 + sig_jj * sn2 - 2 * sig_ij * sn * cs)) ;;
  c2 <- py_sqrt (Rabs (sig_ii * sn2 + sig_jj * cs2 + 2 * sig_ij * sn * cs)) ;;
  Ok (phi, c1, c2).

Definition U : Matrix :=
  [[0; 1; 0; 0]; [-1; 0; 0; 0]; [0; 0; 0; 1]; [0; 0; -1; 0]].

Definition intrinsic_emittances (Sigma : Matrix) : result (R * R) :=
  let SU := times Sigma U in
  let SU2 := times SU SU in
  let trSU2 := trace SU2 in
  let detS := det Sigma in
  r1 <- py_sqrt (trSU2 ^ 2 - 16 * detS) ;;
  s1 <- py_sqrt (- trSU2 + r1) ;;
  let eps_1 := 1 / 2 * s1 in
  r2 <- py_sqrt (trSU2 ^ 2 - 16 * detS) ;;
  s2 <- py_sqrt (- trSU2 - r2) ;;
  let eps_2 := 1 / 2 * s2 in
  Ok (eps_1, eps_2).

Definition apparent_emittances (Sigma : Matrix) : result (R * R) :=
  eps_x <- py_sqrt (get Sigma 0 0 * get Sigma 1 1 - get Sigma 0 1 ^ 2) ;;
  eps_y <- py_sqrt (get Sigma 2 2 * get Sigma 3 3 - get Sigma 2 3 ^ 2) ;;
  Ok (eps_x, eps_y).

Definition emittances (Sigma : Matrix) : result (R * R * R * R) :=
  a <- apparent_emittances Sigma ;;
  i <- intrinsic_emittances Sigma ;;
  Ok (fst a, snd a, fst i, snd i).

(** [twiss2D(Sigma)]: returns [(alpha_x, alpha_y, beta_x, beta_y)]. *)
Definition twiss2D (Sigma : Matrix) : result (R * R * R * R) :=
  a <- apparent_emittances Sigma ;;
  let eps_x := fst a in
  let eps_y := snd a in
  beta_x <- py_div (get Sigma 0 0) eps_x ;;
  beta_y <- py_div (get Sigma 2 2) eps_y ;;
  alpha_x <- py_div (- get Sigma 0 1) eps_x ;;
  alpha_y <- py_div (- get Sigma 2 3) eps_y ;;
  Ok (alpha_x, alpha_y, beta_x, beta_y).

Section Eigenvalues.

(** [Sigma.eig().getRealEigenvalues()] of the Jama library. *)
Variable eig : Matrix -> list R.

(** The module-level [is_positive_definite]. *)
Definition is_positive_definite (Sigma : Matrix) : bool :=
  forallb (fun e => Rleb 0 e) (eig Sigma).

Definition is_valid_cov (Sigma : Matrix) : result bool :=
  if negb (is_positive_definite Sigma) then Ok false
  else if Rltb (det Sigma) 0 then Ok false
  else
    e <- emittances Sigma ;;
    let '(eps_x, eps_y, eps_1, eps_2) := e in
    if Rltb (eps_x * eps_y) (eps_1 * eps_2) then Ok false
    else Ok true.

End Eigenvalues.

(** What the Jama library promises of the eigenvalues of a symmetric
    4x4 matrix: [Sigma = Q * diag(l) * Q^T] for a matrix [Q] with
    orthonormal columns. *)
Definition sum4 (f : nat -> R) : R := f 0%nat + f 1%nat + f 2%nat + f 3%nat.

Definition orthonormal_columns (Q : Matrix) : Prop :=
  forall k m, (k < 4)%nat -> (m < 4)%nat ->
    sum4 (fun i => get Q i k * get Q i m) = if Nat.eqb k m then 1 else 0.

Definition Spectrum (Sigma : Matrix) (l : list R) : Prop :=
  length l = 4%nat /\
  exists Q : Matrix,
    orthonormal_columns Q /\
    forall i j, (i < 4)%nat -> (j < 4)%nat ->
      get Sigma i j = sum4 (fun k => get Q i k * nth k l 0 * get Q j k).

Definition eig_contract (eig : Matrix -> list R) (Sigma : Matrix) : Prop :=
  symmetric4 Sigma -> Spectrum Sigma (eig Sigma).

(** *** The class [BeamStats] *)

Record BeamStats : Type := {
  Sigma : Matrix;
  eps_x : R; eps_y : R;
  eps_1 : R; eps_2 : R;
  alpha_x : R; alpha_y : R; beta_x : R; beta_y : R;
  coupling_coeff : R;
}.

(** [BeamStats.__init__]. *)
Definition BeamStats_init (Sigma : Matrix) : result BeamStats :=
  a <- apparent_emittances Sigma ;;
  i <- intrinsic_emittances Sigma ;;
  t <- twiss2D Sigma ;;
  let '(alpha_x, alpha_y, beta_x, beta_y) := t in
  q <- py_div (fst i * snd i) (fst a * snd a) ;;
  s <- py_sqrt q ;;
  Ok {| Sigma := Sigma; eps_x := fst a; eps_y := snd a;
        eps_1 := fst i; eps_2 := snd i;
        alpha_x := alpha_x; alpha_y := alpha_y;
        beta_x := beta_x; beta_y := beta_y;
        coupling_coeff := 1 - s |}.

(** The values that a call can pass to a method of [BeamStats]. *)
Inductive value : Type :=
| Instance (stats : BeamStats)
| Str (s : string)
| Float (x : R).

(** The names bound at the top level of [analysis.py]. *)
Definition module_globals : list string :=
  ["print_function"; "sys"; "math"; "random"; "sqrt"; "sin"; "cos";
   "pprint"; "datetime"; "Matrix"; "Scorer"; "PVLoggerDataSource";
   "Scenario"; "Accelerator"; "AcceleratorSeq"; "XMLDataManager";
   "lsq_linear"; "utils"; "minimize"; "get_trial_vals";
   "DIAG_WIRE_ANGLE"; "rms_ellipse_dims"; "intrinsic_emittances";
   "apparent_emittances"; "emittances"; "twiss2D"; "is_positive_definite";
   "is_valid_cov"; "V_matrix_uncoupled"; "BeamStats"; "to_mat"; "to_vec";
   "get_sig_xy"; "reconstruct"; "is_harp_file"; "Stat"; "Signal";
   "Profile"; "Measurement"; "get_scan_info"]%string.

(** Binding the arguments of a call to the positional parameters of a
    function: the numbers must agree. *)
Definition bind_positional (params : list string) (args : list value)
  : result (list (string * value)) :=
  if Nat.eqb (length args) (length params) then Ok (combine params args)
  else Err (TypeError "wrong number of arguments").

(** Reading a name in a function body: a parameter, or else a name of
    the module (none of which holds a value of the method's arguments);
    no builtin is called [self]. *)
Definition load_name (locals : list (string * value)) (name : string)
  : result (option value) :=
  match find (fun p : string * value => String.eqb (fst p) name) locals with
  | Some p => Ok (Some (snd p))
  | None =>
      if existsb (String.eqb name) module_globals then Ok None
      else Err (NameError name)
  end.

(** The body of [BeamStats.rms_ellipse_dims]:
    [return rms_ellipse_dims(self.Sigma, dim1, dim2)]. *)
Definition BeamStats_rms_ellipse_dims_body (locals : list (string * value))
  : result (R * R * R) :=
  _ <- load_name locals "rms_ellipse_dims" ;;
  self <- load_name locals "self" ;;
  match self with
  | Some (Instance stats) =>
      dim1 <- load_name locals "dim1" ;;
      dim2 <- load_name locals "dim2" ;;
      match dim1, dim2 with
      | Some (Str dim1), Some (Str dim2) =>
          rms_ellipse_dims (Sigma stats) dim1 dim2
      | _, _ => Err (TypeError "dimension is not a string")
      end
  | _ => Err (AttributeError "Sigma")
  end.

(** A call of [rms_ellipse_dims] on an instance: the method is declared as
    [def rms_ellipse_dims(dim1, dim2)], and the call passes the instance
    in front of the arguments. *)
Definition BeamStats_rms_ellipse_dims (stats : BeamStats) (args : list value)
  : result (R * R * R) :=
  locals <- bind_positional ["dim1"; "dim2"]%string (Instance stats :: args) ;;
  BeamStats_rms_ellipse_dims_body locals.

(** [to_mat(moments)]: the covariance matrix of a 10 element moment
    vector. *)
Definition to_mat (moments : list R) : result Matrix :=
  match moments with
  | [sig_11; sig_22; sig_12; sig_33; sig_44; sig_34;
     sig_13; sig_23; sig_14; sig_24] =>
      Ok [[sig_11; sig_12; sig_13; sig_14];
          [sig_12; sig_22; sig_23; sig_24];
          [sig_13; sig_23; sig_33; sig_34];
          [sig_14; sig_24; sig_34; sig_44]]
  | _ => unpack_error
  end.

(** [V_matrix_uncoupled(alpha_x, alpha_y, beta_x, beta_y)]: the entries
    of the list are evaluated row by row. *)
Definition V_matrix_uncoupled (alpha_x alpha_y beta_x beta_y : R) : result Matrix :=
  v00 <- py_sqrt beta_x ;;
  s <- py_sqrt beta_x ;;
  v10 <- py_div (- alpha_x) s ;;
  s <- py_sqrt beta_x ;;
  v11 <- py_div 1 s ;;
  v22 <- py_sqrt beta_y ;;
  s <- py_sqrt beta_y ;;
  v32 <- py_div (- alpha_y) s ;;
  s <- py_sqrt beta_y ;;
  v33 <- py_div 1 s ;;
  Ok [[v00; 0; 0; 0]; [v10; v11; 0; 0]; [0; 0; v22; 0]; [0; 0; v32; v33]].

(** *** Covariance matrix reconstruction *)

(** The functions that [reconstruct] defines in its body. *)
Module reconstruct_locals.

Section Eigenvalues.

Variable eig : Matrix -> list R.

(** The [is_positive_definite] nested in [reconstruct]; it hides the
    module-level function of the same name. *)
Definition is_positive_definite (Sigma : Matrix) : bool :=
  existsb (fun eigval => Rltb eigval 0) (eig Sigma).

Definition is_physical_cov (Sigma : Matrix) : result bool :=
  if is_positive_definite Sigma && Rleb 0 (det Sigma) then
    e <- emittances Sigma ;;
    let '(eps_x, eps_y, eps_1, eps_2) := e in
    if Rleb (eps_1 * eps_2) (eps_x * eps_y) then Ok true else Ok false
  else Ok false.

End Eigenvalues.

(** The error that [get_cov] raises itself. *)
Definition invalid_parameterization : exn :=
  ValueError "a is zero but b * c is not zero.".

(** The derived parameter [d] of the coupling matrix. *)
Definition coupling_d (a b c : R) : result R :=
  if Reqb a 0 then
    if Reqb b 0 || Reqb c 0 then Ok 0
    else Err invalid_parameterization
  else py_div (b * c) a.

Definition coupling_matrix (a b c d : R) : Matrix :=
  [[1; 0; a; b]; [0; 1; c; d]; [- d; b; 1; 0]; [c; - a; 0; 1]].

(** The normalization matrix [V], entry by entry as [get_cov] sets
    them. *)
Definition normalization_matrix (alpha_x alpha_y beta_x beta_y : R)
  : result Matrix :=
  let V := constant 4 4 0 in
  s <- py_sqrt beta_x ;;
  let V := set V 0 0 s in
  s <- py_sqrt beta_x ;;
  q <- py_div (- alpha_x) s ;;
  let V := set V 1 0 q in
  s <- py_sqrt beta_x ;;
  q <- py_div 1 s ;;
  let V := set V 1 1 q in
  s <- py_sqrt beta_y ;;
  let V := set V 2 2 s in
  s <- py_sqrt beta_y ;;
  q <- py_div (- alpha_y) s ;;
  let V := set V 3 2 q in
  s <- py_sqrt beta_y ;;
  q <- py_div 1 s ;;
  let V := set V 3 3 q in
  Ok V.

Definition get_cov (eps_1 eps_2 alpha_x alpha_y beta_x beta_y a b c : R)
  : result Matrix :=
  let E := diagonal_matrix [eps_1; eps_1; eps_2; eps_2] in
  V <- normalization_matrix alpha_x alpha_y beta_x beta_y ;;
  d <- coupling_d a b c ;;
  let C := coupling_matrix a b c d in
  let VC := times V C in
  Ok (times VC (times E (transpose VC))).

(** [MyScorer.score], as a function of the trial values. *)
Definition score (Axy bxy Sigma : Matrix) (alpha_x alpha_y beta_x beta_y : R)
    (trial_vals : list R) : result R :=
  match trial_vals with
  | [eps_1; eps_2; a; b; c] =>
      S <- get_cov eps_1 eps_2 alpha_x alpha_y beta_x beta_y a b c ;;
      let vec := [[get S 0 2]; [get S 1 2]; [get S 0 3]; [get S 1 3]] in
      let residuals := minus (times Axy vec) bxy in
      let cost := normF residuals ^ 2 in
      let f := 1 in
      let cost := cost + f * (get S 0 0 - get Sigma 0 0) ^ 2 in
      let cost := cost + f * (get S 0 1 - get Sigma 0 1) ^ 2 in
      let cost := cost + f * (get S 1 1 - get Sigma 1 1) ^ 2 in
      let cost := cost + f * (get S 2 2 - get Sigma 2 2) ^ 2 in
      let cost := cost + f * (get S 2 3 - get Sigma 2 3) ^ 2 in
      let cost := cost + f * (get S 3 3 - get Sigma 3 3) ^ 2 in
      Ok cost
  | _ => unpack_error
  end.

End reconstruct_locals.

(** [M[i][j]] on a list of lists. *)
Definition item (M : list (list R)) (i j : nat) : result R :=
  match nth_error M i with
  | Some row =>
      match nth_error row j with
      | Some x => Ok x
      | None => Err IndexError
      end
  | None => Err IndexError
  end.

(** The three rows that one measurement adds to [A]. *)
Definition rows_of_measurement (M : list (list R)) : result (list (list R)) :=
  m00 <- item M 0 0 ;;
  m01 <- item M 0 1 ;;
  m22 <- item M 2 2 ;;
  m23 <- item M 2 3 ;;
  Ok [[m00 ^ 2; m01 ^ 2; 2 * m00 * m01; 0; 0; 0; 0; 0; 0; 0];
      [0; 0; 0; m22 ^ 2; m23 ^ 2; 2 * m22 * m23; 0; 0; 0; 0];
      [0; 0; 0; 0; 0; 0; m00 * m22; m01 * m22; m00 * m23; m01 * m23]].

(** The first loop of [reconstruct]: form [A] and [b]. *)
Fixpoint form_A_b (measurements : list (list (list R) * (R * R * R)))
    (A : list (list R)) (b : list R) : result (list (list R) * list R) :=
  match measurements with
  | [] => Ok (A, b)
  | (M, (sig_xx, sig_yy, sig_xy)) :: rest =>
      rows <- rows_of_measurement M ;;
      form_A_b rest (A ++ rows) (b ++ [sig_xx; sig_yy; sig_xy])
  end.

(** The second loop: the cross-plane rows [Axy] and the column [bxy]. *)
Fixpoint form_Axy_bxy (measurements : list (list (list R) * (R * R * R)))
    (Axy bxy : list (list R)) : result (list (list R) * list (list R)) :=
  match measurements with
  | [] => Ok (Axy, bxy)
  | (M, (sig_xx, sig_yy, sig_xy)) :: rest =>
      m00 <- item M 0 0 ;;
      m01 <- item M 0 1 ;;
      m22 <- item M 2 2 ;;
      m23 <- item M 2 3 ;;
      form_Axy_bxy rest
        (Axy ++ [[m00 * m22; m01 * m22; m00 * m23; m01 * m23]])
        (bxy ++ [[sig_xy]])
  end.

Section Reconstruct.

(** [least_squares.lsq_linear(A, b, solver='exact')]. *)
Variable lsq_linear : list (list R) -> list R -> result (list R).
(** [Sigma.eig().getRealEigenvalues()]. *)
Variable eig : Matrix -> list R.
(** [xal_helpers.minimize(scorer, guess, var_names, bounds, maxiters,
    tol)]; the bounds are a list of lower bounds and one upper bound. *)
Variable minimize :
  (list R -> result R) -> list R -> list string -> list R * R -> Z -> R
  -> result (list R).
(** The three values drawn from [random.random()]. *)
Variables random_1 random_2 random_3 : R.

(** The nonlinear fit in the parameterization of Edwards and Teng:
    the part of [reconstruct] that follows the physicality test. *)
Definition edwards_teng_fit (transfer_mats : list (list (list R)))
    (moments : list (R * R * R)) (Sigma : Matrix) : result Matrix :=
  xy <- form_Axy_bxy (combine transfer_mats moments) [] [] ;;
  let Axy := fst xy in
  let bxy := snd xy in
  a <- apparent_emittances Sigma ;;
  let eps_x := fst a in
  let eps_y := snd a in
  t <- twiss2D Sigma ;;
  let '(alpha_x, alpha_y, beta_x, beta_y) := t in
  let inf := 100000000000000000000 in
  let lb := [0; 0; - inf; - inf; - inf] in
  let ub := inf in
  let bounds := (lb, ub) in
  let guess := [1 * eps_x; 1 * eps_y; 1 / 10 * random_1;
                1 / 10 * random_2; - (1 / 10) * random_3] in
  let var_names := ["eps_1"; "eps_2"; "a"; "b"; "c"]%string in
  let scorer :=
    reconstruct_locals.score Axy bxy Sigma alpha_x alpha_y beta_x beta_y in
  vals <- minimize scorer guess var_names bounds 50000%Z (1 / 10 ^ 15) ;;
  match vals with
  | [eps_1; eps_2; a; b; c] =>
      reconstruct_locals.get_cov
        eps_1 eps_2 alpha_x alpha_y beta_x beta_y a b c
  | _ => unpack_error
  end.

(** [reconstruct(transfer_mats, moments, constr)]: the lines it prints,
    and the matrix it returns or the exception it raises. *)
Definition reconstruct (transfer_mats : list (list (list R)))
    (moments : list (R * R * R)) (constr : bool)
  : list string * result Matrix :=
  match (Ab <- form_A_b (combine transfer_mats moments) [] [] ;;
         moment_vec <- lsq_linear (fst Ab) (snd Ab) ;;
         to_mat moment_vec) with
  | Err e => ([], Err e)
  | Ok Sigma =>
      if negb constr then ([], Ok Sigma)
      else
        match reconstruct_locals.is_physical_cov eig Sigma with
        | Err e => ([], Err e)
        | Ok true => (["Covariance matrix is physical."%string], Ok Sigma)
        | Ok false =>
            (["Covariance matrix is unphysical. Running solver."%string],
             edwards_teng_fit transfer_mats moments Sigma)
        end
  end.

End Reconstruct.

(** What is expected of [lsq_linear] on a system that has exactly one
    solution: it returns that solution. *)
Definition lsq_contract
    (lsq_linear : list (list R) -> list R -> result (list R))
    (A : list (list R)) (b : list R) : Prop :=
  forall x : list R,
    length x = ncols A -> mulv A x = b ->
    (forall y : list R, length y = ncols A -> mulv A y = b -> y = x) ->
    lsq_linear A b = Ok x.

(** *** Moments from the wires *)

(** The angle of the diagonal wire: [utils.radians(-45.0)]. *)
Definition DIAG_WIRE_ANGLE : R := radians (-45).

(** [get_sig_xy(sig_xx, sig_yy, sig_uu, diag_wire_angle)]. *)
Definition get_sig_xy (sig_xx sig_yy sig_uu diag_wire_angle : R) : result R :=
  let phi := radians 90 + diag_wire_angle in
  let sn := sin phi in
  let cs := cos phi in
  py_div (sig_uu - sig_xx * cs ^ 2 - sig_yy * sn ^ 2) (2 * sn * cs).

(** What [to_vec] may be handed: a Python list of lists, or the
    [Jama.Matrix] that [to_mat] and the other functions of the module
    return. *)
Inductive matrix_value : Type :=
| PyList (rows : list (list R))
| JamaMatrix (M : Matrix).

(** Subscripting a [Jama.Matrix], which has no [__getitem__]. *)
Definition unsubscriptable : exn :=
  TypeError "'Jama.Matrix' object is unsubscriptable".

(** [to_vec(Sigma)].  [Sigma[0]] comes first, and fails on a
    [Jama.Matrix]; on a list of lists the rows are sliced and unpacked,
    and then the name [np] is read, which the module never binds. *)
Definition to_vec (Sigma : matrix_value) : result (list R) :=
  match Sigma with
  | JamaMatrix _ => Err unsubscriptable
  | PyList Sigma =>
      match nth_error Sigma 0 with
      | None => Err IndexError
      | Some row_0 =>
          match row_0 with
          | [sig_11; sig_12; sig_13; sig_14] =>
              match nth_error Sigma 1 with
              | None => Err IndexError
              | Some row_1 =>
                  match skipn 1 row_1 with
                  | [sig_22; sig_23; sig_24] =>
                      match nth_error Sigma 2 with
                      | None => Err IndexError
                      | Some row_2 =>
                          match skipn 2 row_2 with
                          | [sig_33; sig_34] =>
                              sig_44 <- item Sigma 3 3 ;;
                              _ <- load_name [] "np" ;;
                              Ok [sig_11; sig_22; sig_12; sig_33; sig_44; sig_34;
                                  sig_13; sig_23; sig_14; sig_24]
                          | _ => unpack_error
                          end
                      end
                  | _ => unpack_error
                  end
              end
          | _ => unpack_error
          end
      end
  end.

End Analysis.
Export Analysis.

(** ** [analysis.py] in double precision

    Jython's floats and Jama's matrices are IEEE 754 doubles.  The
    functions behind [is_valid_cov] are given here once more on the
    doubles of the kernel, operation by operation: where a quantity is
    zero in exact arithmetic, as the radicand of [intrinsic_emittances] is
    for equal emittances, its sign in the code is the sign of a rounding
    error. *)

Module Double.
Import PrimFloat.
Local Open Scope float_scope.

Definition FMatrix : Type := list (list float).

Definition get (M : FMatrix) (i j : nat) : float := nth j (nth i M []) 0.

(** The sums of Jama: [s = 0], then [s += term] for each term in turn. *)
Definition accumulate (terms : list float) : float := fold_left add terms 0.

Definition column (M : FMatrix) (j : nat) : list float :=
  map (fun row : list float => nth j row 0) M.

(** [A.times(B)]: [s += Arowi[k] * Bcolj[k]]. *)
Definition times (A B : FMatrix) : FMatrix :=
  map (fun row : list float =>
         map (fun j =>
                accumulate (map (fun p : float * float => fst p * snd p)
                                (combine row (column B j))))
             (seq 0 (List.length (hd [] B))))
      A.

(** [A.trace()]: [t += A[i][i]]. *)
Definition trace (M : FMatrix) : float :=
  accumulate (map (fun i => get M i i)
                  (seq 0 (Nat.min (List.length M) (List.length (hd [] M))))).

Definition U : FMatrix :=
  [[0; 1; 0; 0]; [-1; 0; 0; 0]; [0; 0; 0; 1]; [0; 0; -1; 0]].

(** [math.sqrt]. *)
Definition py_sqrt (x : float) : result float :=
  if x <? 0 then Err (ValueError "math domain error") else Ok (sqrt x).

Section Jama.

(** [Sigma.det()] and [Sigma.eig().getRealEigenvalues()]. *)
Variable det : FMatrix -> float.
Variable eig : FMatrix -> list float.

(** The square [x**2] is the rounded product [x * x]. *)
Definition intrinsic_emittances (Sigma : FMatrix) : result (float * float) :=
  let SU := times Sigma U in
  let SU2 := times SU SU in
  let trSU2 := trace SU2 in
  let detS := det Sigma in
  r1 <- py_sqrt (trSU2 * trSU2 - 16 * detS) ;;
  s1 <- py_sqrt (- trSU2 + r1) ;;
  let eps_1 := 0.5 * s1 in
  r2 <- py_sqrt (trSU2 * trSU2 - 16 * detS) ;;
  s2 <- py_sqrt (- trSU2 - r2) ;;
  let eps_2 := 0.5 * s2 in
  Ok (eps_1, eps_2).

Definition apparent_emittances (Sigma : FMatrix) : result (float * float) :=
  eps_x <- py_sqrt (get Sigma 0 0 * get Sigma 1 1 - get Sigma 0 1 * get Sigma 0 1) ;;
  eps_y <- py_sqrt (get Sigma 2 2 * get Sigma 3 3 - get Sigma 2 3 * get Sigma 2 3) ;;
  Ok (eps_x, eps_y).

Definition emittances (Sigma : FMatrix) : result (float * float * float * float) :=
  a <- apparent_emittances Sigma ;;
  i <- intrinsic_emittances Sigma ;;
  Ok (fst a, snd a, fst i, snd i).

Definition is_positive_definite (Sigma : FMatrix) : bool :=
  forallb (fun e => 0 <=? e) (eig Sigma).

Definition is_valid_cov (Sigma : FMatrix) : result bool :=
  if negb (is_positive_definite Sigma) then Ok false
  else if det Sigma <? 0 then Ok false
  else
    e <- emittances Sigma ;;
    let '(eps_x, eps_y, eps_1, eps_2) := e in
    if eps_x * eps_y <? eps_1 * eps_2 then Ok false
    else Ok true.

End Jama.

(** [c] times the identity. *)
Definition scaled_identity (c : float) : FMatrix :=
  [[c; 0; 0; 0]; [0; c; 0; 0]; [0; 0; c; 0]; [0; 0; 0; c]].

(** The doubles that Python reads [1.0], [1.1] and [9.35] as. *)
Definition one : float := 1.
#[warnings="-inexact-float"]
Definition one_point_one : float := 1.1.
#[warnings="-inexact-float"]
Definition nine_point_three_five : float := 9.35.

(** What Jama computes for [c] times the identity.  The LU
    decomposition finds nothing to eliminate and no row to exchange, so
    that the determinant is the sign [1.0] multiplied by the four pivots in
    turn; the matrix is tridiagonal as it stands, and its eigenvalues are
    the diagonal entries. *)
Definition det_contract (det : FMatrix -> float) : Prop :=
  forall c, det (scaled_identity c) = 1 * c * c * c * c.

Definition eig_contract (eig : FMatrix -> list float) : Prop :=
  forall c, eig (scaled_identity c) = [c; c; c; c].

End Double.

(** ** [target_image/target_image_analysis.py] *)

Module TargetImage.

(** [rms_ellipse_dims(sig_xx, sig_yy, sig_xy)]: returns
    [(c1, c2, angle)].  [np.sqrt] is applied to absolute values only. *)
Definition rms_ellipse_dims (sig_xx sig_yy sig_xy : R) : R * R * R :=
  let angle := - (1 / 2) * atan2 (2 * sig_xy) (sig_xx - sig_yy) in
  let sn := sin angle in
  let cs := cos angle in
  let c1 := sqrt (Rabs (sig_xx * cs ^ 2 + sig_yy * sn ^ 2 - 2 * sig_xy * sn * cs)) in
  let c2 := sqrt (Rabs (sig_xx * sn ^ 2 + sig_yy * cs ^ 2 + 2 * sig_xy * sn * cs)) in
  (c1, c2, angle).

End TargetImage.

(** ** [lib/optics.py] *)

Module Optics.

(** *** The phase controller

    The state that the field operations read and write: the magnets of
    the sequence with their live fields, the fields of the model
    elements mapped to each magnet, the book channels (in channel
    units), and the magnets that share a power supply. *)
Record PhaseController : Type := {
  live_fields : gmap string R;
  model_fields : gmap string (list R);
  book_channels : gmap string R;
  shared_power : gmap string (list string);
}.

Definition with_live (st : PhaseController) (m : gmap string R) : PhaseController :=
  {| live_fields := m; model_fields := model_fields st;
     book_channels := book_channels st; shared_power := shared_power st |}.

Definition with_model (st : PhaseController) (m : gmap string (list R))
  : PhaseController :=
  {| live_fields := live_fields st; model_fields := m;
     book_channels := book_channels st; shared_power := shared_power st |}.

Definition with_book (st : PhaseController) (m : gmap string R) : PhaseController :=
  {| live_fields := live_fields st; model_fields := model_fields st;
     book_channels := m; shared_power := shared_power st |}.

Definition invalid_option : exn :=
  ValueError "opt must be in {'model', 'live', 'book'}".

(** A method called on the [None] that [getNodeWithId] returns for an
    unknown id. *)
Definition no_node : exn := AttributeError "'NoneType' object has no attribute".

(** Python's limit on the depth of recursion. *)
Definition recursion_limit : nat := 1000.

Section Fields.

(** The calibration of each magnet: [node.toCAFromField] and
    [node.toFieldFromCA]. *)
Variables toCAFromField toFieldFromCA : string -> R -> R.

Definition get_field (st : PhaseController) (quad_id opt : string) : result R :=
  if String.eqb opt "model" then
    match model_fields st !! quad_id with
    | Some (elem :: _) => Ok elem
    | Some [] => Err IndexError
    | None => Err no_node
    end
  else if String.eqb opt "live" then
    match live_fields st !! quad_id with
    | Some field => Ok field
    | None => Err no_node
    end
  else if String.eqb opt "book" then
    match live_fields st !! quad_id with
    | Some _ =>
        match book_channels st !! quad_id with
        | Some val => Ok (toFieldFromCA quad_id val)
        | None => Err (KeyError quad_id)
        end
    | None => Err no_node
    end
  else Err invalid_option.

Definition get_fields (st : PhaseController) (quad_ids : list string)
    (opt : string) : result (list R) :=
  fold_right (fun quad_id acc =>
                field <- get_field st quad_id opt ;;
                rest <- acc ;;
                Ok (field :: rest))
             (Ok []) quad_ids.

(** The branch [opt == "model"] of [set_field]: every model element of
    the magnet takes the field, and so does every magnet that shares
    its power supply. *)
Fixpoint set_field_model (depth : nat) (st : PhaseController)
    (quad_id : string) (field : R) : result PhaseController :=
  match depth with
  | O => Err (RuntimeError "maximum recursion depth exceeded")
  | S depth' =>
      match model_fields st !! quad_id with
      | None => Err no_node
      | Some elems =>
          let st :=
            with_model st (<[quad_id := map (fun _ => field) elems]> (model_fields st)) in
          match shared_power st !! quad_id with
          | None => Ok st
          | Some dep_quad_ids =>
              (fix each (st : PhaseController) (ids : list string)
                 : result PhaseController :=
                 match ids with
                 | [] => Ok st
                 | dep_quad_id :: ids' =>
                     st' <- set_field_model depth' st dep_quad_id field ;;
                     each st' ids'
                 end) st dep_quad_ids
          end
      end
  end.

Definition set_field (st : PhaseController) (quad_id : string) (field : R)
    (opt : string) : result PhaseController :=
  if String.eqb opt "model" then
    set_field_model recursion_limit st quad_id field
  else if String.eqb opt "live" then
    match live_fields st !! quad_id with
    | Some _ => Ok (with_live st (<[quad_id := field]> (live_fields st)))
    | None => Err no_node
    end
  else if String.eqb opt "book" then
    match book_channels st !! quad_id with
    | Some _ =>
        match live_fields st !! quad_id with
        | Some _ =>
            Ok (with_book st
                  (<[quad_id := toCAFromField quad_id field]> (book_channels st)))
        | None => Err no_node
        end
    | None => Err (KeyError quad_id)
    end
  else Err invalid_option.

(** The state after the book and the live value of a magnet have been
    set to [field]. *)
Definition stepped (st : PhaseController) (quad_id : string) (field : R)
  : PhaseController :=
  with_live
    (with_book st (<[quad_id := toCAFromField quad_id field]> (book_channels st)))
    (<[quad_id := field]> (live_fields st)).

(** One pass of the inner [for] loop of the ramp: the flag [stop] and
    the state after the pass. *)
Fixpoint ramp_pass (st : PhaseController) (targets : list (string * R))
    (max_frac_change : R) (stop : bool) : result (bool * PhaseController) :=
  match targets with
  | [] => Ok (stop, st)
  | (quad_id, field) :: rest =>
      book <- get_field st quad_id "book" ;;
      let change_needed := field - book in
      let max_abs_change := max_frac_change * Rabs book in
      if Rltb max_abs_change (Rabs change_needed) then
        let new_field :=
          if Rleb 0 change_needed then book + max_abs_change
          else book - max_abs_change in
        st <- set_field st quad_id new_field "book" ;;
        st <- set_field st quad_id new_field "live" ;;
        ramp_pass st rest max_frac_change false
      else ramp_pass st rest max_frac_change stop
  end.

(** The loop [while not stop and iters < max_iters], counted by the
    iterations that remain. *)
Fixpoint ramp_loop (remaining : nat) (stop : bool) (st : PhaseController)
    (targets : list (string * R)) (max_frac_change : R)
  : result PhaseController :=
  if stop then Ok st
  else
    match remaining with
    | O => Ok st
    | S remaining' =>
        r <- ramp_pass st targets max_frac_change true ;;
        ramp_loop remaining' (fst r) (snd r) targets max_frac_change
    end.

(** The last loop: book and live values are set to the targets. *)
Fixpoint set_targets (st : PhaseController) (targets : list (string * R))
  : result PhaseController :=
  match targets with
  | [] => Ok st
  | (quad_id, field) :: rest =>
      st <- set_field st quad_id field "book" ;;
      st <- set_field st quad_id field "live" ;;
      set_targets st rest
  end.

Fixpoint set_model_targets (st : PhaseController) (targets : list (string * R))
  : result PhaseController :=
  match targets with
  | [] => Ok st
  | (quad_id, field) :: rest =>
      st <- set_field st quad_id field "model" ;;
      set_model_targets st rest
  end.

(** [set_fields(quad_ids, fields, opt, max_frac_change, max_iters)].
    The pauses and the warnings leave the fields alone and are not
    part of the state. *)
Definition set_fields (st : PhaseController) (quad_ids : list string)
    (fields : list R) (opt : string) (max_frac_change : R) (max_iters : Z)
  : result PhaseController :=
  if String.eqb opt "model" then
    set_model_targets st (combine quad_ids fields)
  else if String.eqb opt "live" then
    st <- ramp_loop (Z.to_nat max_iters) false st (combine quad_ids fields)
            max_frac_change ;;
    set_targets st (combine quad_ids fields)
  else Ok st.

End Fields.

(** A magnet of the sequence that has a book channel. *)
Definition ready (st : PhaseController) (quad_id : string) : Prop :=
  is_Some (live_fields st !! quad_id) /\ is_Some (book_channels st !! quad_id).

(** The book value that one pass of the ramp leaves a magnet at, from
    its book value and its target: the assignments to [new_field] of
    [set_fields], and the book value itself where no step is needed. *)
Definition ramp_target (book field max_frac_change : R) : R :=
  let change_needed := field - book in
  let max_abs_change := max_frac_change * Rabs book in
  if Rltb max_abs_change (Rabs change_needed) then
    if Rleb 0 change_needed then book + max_abs_change
    else book - max_abs_change
  else book.

(** *** Power supplies

    The two loops of [__init__] that find the independent magnets and
    the magnets that share a power supply with one of them.  A magnet
    and a power supply are given by their ids, [quad_ids] and [ps_ids]
    being the ids of [quad_nodes] and of [ps_nodes]: the test
    [ps_node not in self.ind_ps_nodes] is a test on the id of the
    supply. *)
Definition init_independent (quad_ids ps_ids : list string)
  : list string * list string :=
  fold_left (fun (acc : list string * list string) (node : string * string) =>
               let '(ind_quad_ids, ind_ps_ids) := acc in
               let '(quad_id, ps_id) := node in
               if existsb (String.eqb ps_id) ind_ps_ids then acc
               else (ind_quad_ids ++ [quad_id], ind_ps_ids ++ [ps_id]))
            (combine quad_ids ps_ids) ([], []).

Definition init_shared_power (quad_ids ps_ids ind_quad_ids ind_ps_ids : list string)
  : gmap string (list string) :=
  fold_left (fun (shared : gmap string (list string)) (node : string * string) =>
               let '(quad_id, ps_id) := node in
               fold_left (fun (shared : gmap string (list string))
                              (ind : string * string) =>
                            let '(ind_quad_id, ind_ps_id) := ind in
                            if String.eqb ps_id ind_ps_id
                               && negb (String.eqb quad_id ind_quad_id)
                            then <[ind_quad_id :=
                                     default [] (shared !! ind_quad_id) ++ [quad_id]]>
                                   shared
                            else shared)
                         (combine ind_quad_ids ind_ps_ids) shared)
            (combine quad_ids ps_ids) empty.

(** Magnets that the model can be set for, as [__init__] leaves them:
    each has model elements, and a magnet that shares the power of
    another is not one of them, has model elements and has no magnets
    recorded under it. *)
Definition model_ready (st : PhaseController) (quad_ids : list string) : Prop :=
  (forall q, In q quad_ids ->
     exists elem elems, model_fields st !! q = Some (elem :: elems)) /\
  (forall k deps, shared_power st !! k = Some deps ->
     forall d, In d deps ->
       ~ In d quad_ids /\ shared_power st !! d = None /\
       is_Some (model_fields st !! d)).

(** *** What [set_fields] writes to the machine

    In ['live'] mode the result of [set_fields] is the state it leaves,
    which is the same with or without the ramp; what the ramp changes is
    the sequence of values that the magnets are sent on the way.  The
    definitions below are [set_field], the two loops of the ramp, the last
    loop and [set_fields] once more, each with the list of the writes it
    makes: [putVal] on a book channel and [setField] on a magnet. *)
Inductive write : Type :=
| putVal (quad_id : string) (val : R)
| setField (quad_id : string) (field : R).

(** The state after a write, and after a list of writes. *)
Definition apply_write (st : PhaseController) (w : write) : PhaseController :=
  match w with
  | putVal quad_id val => with_book st (<[quad_id := val]> (book_channels st))
  | setField quad_id field => with_live st (<[quad_id := field]> (live_fields st))
  end.

Definition replay (st : PhaseController) (writes : list write) : PhaseController :=
  fold_left apply_write writes st.

Section Writes.

Variables toCAFromField toFieldFromCA : string -> R -> R.

(** [set_field], with the write it makes when it does not raise; the
    model is not part of the machine. *)
Definition set_field_writes (st : PhaseController) (quad_id : string) (field : R)
    (opt : string) : result (PhaseController * list write) :=
  st <- set_field toCAFromField st quad_id field opt ;;
  Ok (st,
      if String.eqb opt "live" then [setField quad_id field]
      else if String.eqb opt "book" then
        [putVal quad_id (toCAFromField quad_id field)]
      else []).

Fixpoint ramp_pass_writes (st : PhaseController) (targets : list (string * R))
    (max_frac_change : R) (stop : bool)
  : result (bool * PhaseController * list write) :=
  match targets with
  | [] => Ok (stop, st, [])
  | (quad_id, field) :: rest =>
      book <- get_field toFieldFromCA st quad_id "book" ;;
      let change_needed := field - book in
      let max_abs_change := max_frac_change * Rabs book in
      if Rltb max_abs_change (Rabs change_needed) then
        let new_field :=
          if Rleb 0 change_needed then book + max_abs_change
          else book - max_abs_change in
        r1 <- set_field_writes st quad_id new_field "book" ;;
        r2 <- set_field_writes (fst r1) quad_id new_field "live" ;;
        r <- ramp_pass_writes (fst r2) rest max_frac_change false ;;
        Ok (fst r, snd r1 ++ snd r2 ++ snd r)
      else ramp_pass_writes st rest max_frac_change stop
  end.

Fixpoint ramp_loop_writes (remaining : nat) (stop : bool) (st : PhaseController)
    (targets : list (string * R)) (max_frac_change : R)
  : result (PhaseController * list write) :=
  if stop then Ok (st, [])
  else
    match remaining with
    | O => Ok (st, [])
    | S remaining' =>
        r <- ramp_pass_writes st targets max_frac_change true ;;
        r' <- ramp_loop_writes remaining' (fst (fst r)) (snd (fst r)) targets
                max_frac_change ;;
        Ok (fst r', snd r ++ snd r')
    end.

Fixpoint set_targets_writes (st : PhaseController) (targets : list (string * R))
  : result (PhaseController * list write) :=
  match targets with
  | [] => Ok (st, [])
  | (quad_id, field) :: rest =>
      r1 <- set_field_writes st quad_id field "book" ;;
      r2 <- set_field_writes (fst r1) quad_id field "live" ;;
      r <- set_targets_writes (fst r2) rest ;;
      Ok (fst r, snd r1 ++ snd r2 ++ snd r)
  end.

Definition set_fields_writes (st : PhaseController) (quad_ids : list string)
    (fields : list R) (opt : string) (max_frac_change : R) (max_iters : Z)
  : result (PhaseController * list write) :=
  if String.eqb opt "model" then
    st <- set_model_targets toCAFromField st (combine quad_ids fields) ;;
    Ok (st, [])
  else if String.eqb opt "live" then
    r <- ramp_loop_writes (Z.to_nat max_iters) false st (combine quad_ids fields)
           max_frac_change ;;
    r' <- set_targets_writes (fst r) (combine quad_ids fields) ;;
    Ok (fst r', snd r ++ snd r')
  else Ok (st, []).

(** The writes of the last loop: each magnet is sent its target. *)
Definition target_writes (targets : list (string * R)) : list write :=
  flat_map (fun target : string * R =>
              [putVal (fst target) (toCAFromField (fst target) (snd target));
               setField (fst target) (snd target)])
           targets.

End Writes.

(** *** Default optics *)

Section Defaults.

Variables toCAFromField toFieldFromCA : string -> R -> R.

(** [restore_default_optics], with the independent magnets
    and the default fields that the controller has stored. *)
Definition restore_default_optics (st : PhaseController)
    (ind_quad_ids : list string) (default_fields : list R) (opt : string)
    (max_frac_change : R) (max_iters : Z) : result PhaseController :=
  set_fields toCAFromField toFieldFromCA st ind_quad_ids default_fields opt
    max_frac_change max_iters.

(** [sync_live_with_model]. *)
Definition sync_live_with_model (st : PhaseController)
    (ind_quad_ids : list string) (max_frac_change : R) (max_iters : Z)
  : result PhaseController :=
  model_fields <- get_fields toFieldFromCA st ind_quad_ids "model" ;;
  set_fields toCAFromField toFieldFromCA st ind_quad_ids model_fields "live"
    max_frac_change max_iters.

End Defaults.

(** *** Synchronizing the model *)

(** [safe_sync(scenario, sync_mode)].  Of the scenario only the
    synchronization mode is kept; [live_fails] tells whether the resync
    with the live machine raises [SynchronizationException].  The result is
    the printed lines, and the mode of the scenario with the returned
    [sync_mode]. *)
Definition safe_sync (live_fails : bool) (scenario_mode sync_mode : string)
  : list string * result (string * string) :=
  if negb (String.eqb sync_mode "live" || String.eqb sync_mode "design") then
    ([], Err (ValueError "`sync_mode` must be in {'live', 'design'}"))
  else
    let after_live :=
      if String.eqb sync_mode "live" then
        if live_fails then
          (["Can't sync with live machine. Using design fields."%string],
           "live"%string, "design"%string)
        else ([], "live"%string, sync_mode)
      else ([], scenario_mode, sync_mode) in
    let '(printed, scenario_mode, sync_mode) := after_live in
    if String.eqb sync_mode "design" then
      (printed, Ok ("design"%string, sync_mode))
    else (printed, Ok (scenario_mode, sync_mode)).

(** *** Default phases *)

Section DefaultPhases.

Variables toCAFromField toFieldFromCA : string -> R -> R.

(** The trajectory that [track] has stored, and [phases(node_id)],
    which reads the phases at a node off the stored trajectory. *)
Variable Trajectory : Type.
Variable phases : Trajectory -> string -> result (R * R).

(** The first lines of [get_phases_for_scan]: the model fields are
    saved, the default optics are restored in the model, the phases at the
    reference wire-scanner are read, and the saved fields are set again.
    The result is the phases and the state afterwards. *)
Definition scan_default_phases (st : PhaseController) (trajectory : Trajectory)
    (ind_quad_ids : list string) (default_fields : list R) (ref_ws_id : string)
  : result (R * R * PhaseController) :=
  model_fields <- get_fields toFieldFromCA st ind_quad_ids "model" ;;
  st <- restore_default_optics toCAFromField toFieldFromCA st ind_quad_ids
          default_fields "model" (1 / 100) 100 ;;
  mu <- phases trajectory ref_ws_id ;;
  st <- set_fields toCAFromField toFieldFromCA st ind_quad_ids model_fields
          "model" (1 / 100) 100 ;;
  Ok (mu, st).

End DefaultPhases.

(** *** Phase scans *)

(** The loop of [lin_phase_range]: [k] more phases are appended. *)
Fixpoint extend_phases (k : nat) (step : R) (phases : list R) : list R :=
  match k with
  | O => phases
  | S k' =>
      let phase := List.last phases 0 + step in
      extend_phases k' step (phases ++ [put_angle_in_range phase])
  end.

(** The phases that the loop appends after a last phase [mu], written
    front to back: [mu], then [k] phases that each follow from the one
    before. *)
Fixpoint phase_run (k : nat) (step mu : R) : list R :=
  match k with
  | O => [mu]
  | S k' => mu :: phase_run k' step (put_angle_in_range (mu + step))
  end.

Definition lin_phase_range (mu_min mu_max : R) (n_steps : Z) (endpoint : bool)
  : result (list R) :=
  let abs_diff := Rabs (mu_max - mu_min) in
  let abs_diff := if Rltb PI abs_diff then 2 * PI - abs_diff else abs_diff in
  step <- (if endpoint then py_div abs_diff (IZR (n_steps - 1))
           else py_div abs_diff (IZR n_steps)) ;;
  Ok (extend_phases (Z.to_nat (n_steps - 1)) step [mu_min]).

(** [get_phases_for_scan(phase_coverage, n_steps, scan_type)], from the
    default phases [(mux0, muy0)] that the method reads at the reference
    wire-scanner. *)
Definition get_phases_for_scan (mux0 muy0 : R) (phase_coverage : R)
    (n_steps : Z) (scan_type : Z) : result (list (R * R)) :=
  let n := (n_steps / 2)%Z in
  let phase_coverage := radians phase_coverage in
  let mux_min := put_angle_in_range (mux0 - 1 / 2 * phase_coverage) in
  let mux_max := put_angle_in_range (mux0 + 1 / 2 * phase_coverage) in
  let muy_min := put_angle_in_range (muy0 - 1 / 2 * phase_coverage) in
  let muy_max := put_angle_in_range (muy0 + 1 / 2 * phase_coverage) in
  if (scan_type =? 1)%Z then
    phases_x <- lin_phase_range mux_min mux_max n_steps true ;;
    phases_y <- lin_phase_range muy_min muy_max n_steps true ;;
    let phases_y := rev phases_y in
    Ok (combine phases_x phases_y)
  else if (scan_type =? 2)%Z then
    px <- lin_phase_range mux_min mux_max n true ;;
    let phases_x := px ++ repeat mux0 (Z.to_nat n) in
    py <- lin_phase_range muy_min muy_max n true ;;
    let phases_y := repeat muy0 (Z.to_nat n) ++ py in
    Ok (combine phases_x phases_y)
  else Err (UnboundLocalError "phases_x").

End Optics.
Export Optics.

(** ** [lib/plotting.py] *)

Module Plotting.

(** [rotate(x, y, phi)]: the point [(x, y)] turned counterclockwise by
    [phi]. *)
Definition rotate (x y phi : R) : R * R :=
  let sn := sin phi in
  let cs := cos phi in
  let x_rot := x * cs - y * sn in
  let y_rot := x * sn + y * cs in
  (x_rot, y_rot).

End Plotting.

(** ** Test data *)

Module Fixtures.

(** Transfer matrices with [M01 = a] and [M23 = b]. *)
Definition transfer_matrix (a b : R) : list (list R) :=
  [[1; a; 0; 0]; [0; 1; 0; 0]; [0; 0; 1; b]; [0; 0; 0; 1]].

Definition transfer_mats : list (list (list R)) :=
  [transfer_matrix 0 0; transfer_matrix 1 2;
   transfer_matrix 2 1; transfer_matrix 3 3].

(** The moments [(1 + a^2, 1 + b^2, 0)] that the unit covariance matrix
    gives behind these transfer matrices. *)
Definition moments : list (R * R * R) :=
  [(1, 1, 0); (2, 5, 0); (5, 2, 0); (10, 10, 0)].

(** The moment vector of the unit covariance matrix. *)
Definition unit_moment_vec : list R := [1; 1; 0; 1; 1; 0; 0; 0; 0; 0].

(** A covariance matrix with two negative variances. *)
Definition negative_variances : Matrix := diagonal_matrix [-1; -1; 1; 1].

End Fixtures.

(* ================================================================= *)
(** * Properties *)

(** ** Float operations *)

Lemma Rltb_true x y : x < y -> Rltb x y = true.
Proof. intros H. unfold Rltb. destruct (Rlt_dec x y); [reflexivity | contradiction]. Qed.

Lemma Rltb_false x y : y <= x -> Rltb x y = false.
Proof. intros H. unfold Rltb. destruct (Rlt_dec x y); [lra | reflexivity]. Qed.

Lemma Rleb_true x y : x <= y -> Rleb x y = true.
Proof. intros H. unfold Rleb. destruct (Rle_dec x y); [reflexivity | contradiction]. Qed.

Lemma Rleb_false x y : y < x -> Rleb x y = false.
Proof. intros H. unfold Rleb. destruct (Rle_dec x y); [lra | reflexivity]. Qed.

Lemma Reqb_true x y : x = y -> Reqb x y = true.
Proof. intros H. unfold Reqb. destruct (Req_dec_T x y); [reflexivity | contradiction]. Qed.

Lemma Reqb_false x y : x <> y -> Reqb x y = false.
Proof. intros H. unfold Reqb. destruct (Req_dec_T x y); [contradiction | reflexivity]. Qed.

Lemma py_sqrt_ok x : 0 <= x -> py_sqrt x = Ok (sqrt x).
Proof. intros H. unfold py_sqrt. now rewrite Rltb_false. Qed.

Lemma py_sqrt_neg x : x < 0 -> py_sqrt x = Err (ValueError "math domain error").
Proof. intros H. unfold py_sqrt. now rewrite Rltb_true. Qed.

Lemma py_sqrt_inv x y : py_sqrt x = Ok y -> 0 <= x /\ y = sqrt x.
Proof.
  unfold py_sqrt, Rltb. destruct (Rlt_dec x 0); intros H; inversion H.
  split; [lra | reflexivity].
Qed.

Lemma py_div_ok x y : y <> 0 -> py_div x y = Ok (x / y).
Proof. intros H. unfold py_div. now rewrite Reqb_false. Qed.

Lemma py_div_zero x : py_div x 0 = Err ZeroDivisionError.
Proof. unfold py_div. now rewrite Reqb_true. Qed.

(** ** Apparent emittances and Twiss parameters *)

(** C6.  Whenever [apparent_emittances] returns two nonzero values,
    [twiss2D] returns Twiss parameters with [beta_x * eps_x = Sigma[0][0]],
    [alpha_x * eps_x = - Sigma[0][1]], and the same in [y]. *)
Theorem twiss2D_consistent (Sigma : Matrix) (eps_x eps_y : R) :
  apparent_emittances Sigma = Ok (eps_x, eps_y) ->
  eps_x <> 0 -> eps_y <> 0 ->
  exists alpha_x alpha_y beta_x beta_y,
    twiss2D Sigma = Ok (alpha_x, alpha_y, beta_x, beta_y) /\
    beta_x * eps_x = get Sigma 0 0 /\
    alpha_x * eps_x = - get Sigma 0 1 /\
    beta_y * eps_y = get Sigma 2 2 /\
    alpha_y * eps_y = - get Sigma 2 3.
Proof.
  intros Happ Hx Hy.
  unfold twiss2D. rewrite Happ. cbn [bind fst snd].
  rewrite !py_div_ok by assumption. cbn [bind].
  eexists _, _, _, _. split; [reflexivity |].
  repeat split; field; assumption.
Qed.

Lemma twiss2D_consistent_witness :
  let Sigma := [[4; 0; 0; 0]; [0; 1; 0; 0]; [0; 0; 9; 0]; [0; 0; 0; 1]] in
  exists alpha_x alpha_y beta_x beta_y,
    twiss2D Sigma = Ok (alpha_x, alpha_y, beta_x, beta_y) /\
    beta_x * 2 = get Sigma 0 0 /\
    alpha_x * 2 = - get Sigma 0 1 /\
    beta_y * 3 = get Sigma 2 2 /\
    alpha_y * 3 = - get Sigma 2 3.
Proof.
  intros Sigma.
  apply (twiss2D_consistent Sigma 2 3).
  - unfold apparent_emittances, Sigma, get. cbn [nth].
    replace (4 * 1 - 0 ^ 2) with (2 * 2) by lra.
    replace (9 * 1 - 0 ^ 2) with (3 * 3) by lra.
    rewrite !py_sqrt_ok by lra. cbn [bind].
    rewrite !sqrt_square by lra. reflexivity.
  - lra.
  - lra.
Defined.

(** ** The rms ellipse of an uncorrelated pair *)

Lemma atan2_zero_pos d : 0 <= d -> atan2 (2 * 0) d = 0.
Proof.
  intros Hd. unfold atan2.
  destruct (Rle_lt_or_eq_dec 0 d Hd) as [Hlt | Heq].
  - rewrite Rltb_true by assumption.
    replace (2 * 0 / d) with 0 by (field; lra). apply atan_0.
  - subst d. rewrite !Rltb_false by lra. reflexivity.
Qed.

Lemma atan2_zero_neg d : d < 0 -> atan2 (2 * 0) d = PI.
Proof.
  intros Hd. unfold atan2.
  rewrite Rltb_false by lra. rewrite Rltb_true by assumption.
  rewrite Rleb_true by lra.
  replace (2 * 0 / d) with 0 by (field; lra). rewrite atan_0. lra.
Qed.

Lemma sin_minus_half_PI : sin (- (1 / 2) * PI) = -1.
Proof.
  replace (- (1 / 2) * PI) with (- (PI / 2)) by lra.
  rewrite sin_neg, sin_PI2. reflexivity.
Qed.

Lemma cos_minus_half_PI : cos (- (1 / 2) * PI) = 0.
Proof.
  replace (- (1 / 2) * PI) with (- (PI / 2)) by lra.
  rewrite cos_neg, cos_PI2. reflexivity.
Qed.

Lemma sin_minus_half_zero : sin (- (1 / 2) * 0) = 0.
Proof. replace (- (1 / 2) * 0) with 0 by lra. apply sin_0. Qed.

Lemma cos_minus_half_zero : cos (- (1 / 2) * 0) = 1.
Proof. replace (- (1 / 2) * 0) with 0 by lra. apply cos_0. Qed.

Lemma triple_eq {A B C : Type} (a a' : A) (b b' : B) (c c' : C) :
  a = a' -> b = b' -> c = c' -> (a, b, c) = (a', b', c').
Proof. intros -> -> ->. reflexivity. Qed.

Lemma sqrt_Rabs_nonneg a e : 0 <= a -> e = a -> sqrt (Rabs e) = sqrt a.
Proof. intros Ha ->. now rewrite Rabs_right by lra. Qed.

(** The ellipse of an uncorrelated pair whose first variance is the
    larger one: no tilt. *)
Lemma rms_ellipse_dims_flat (Sigma : Matrix) (dim1 dim2 : string) (i j : nat) :
  str_to_int dim1 = Ok i -> str_to_int dim2 = Ok j ->
  get Sigma i j = 0 -> 0 <= get Sigma j j <= get Sigma i i ->
  Analysis.rms_ellipse_dims Sigma dim1 dim2
  = Ok (0, sqrt (get Sigma i i), sqrt (get Sigma j j)).
Proof.
  intros Hi Hj Hij [Hjj Hii].
  unfold Analysis.rms_ellipse_dims. rewrite Hi, Hj. cbn [bind].
  rewrite Hij, atan2_zero_pos by lra.
  rewrite sin_minus_half_zero, cos_minus_half_zero.
  rewrite !py_sqrt_ok by apply Rabs_pos. cbn [bind].
  f_equal. apply triple_eq; [lra | |]; apply sqrt_Rabs_nonneg; lra.
Qed.

(** The ellipse of an uncorrelated pair whose second variance is the
    larger one: a quarter turn, and the semi-axes change places. *)
Lemma rms_ellipse_dims_upright (Sigma : Matrix) (dim1 dim2 : string) (i j : nat) :
  str_to_int dim1 = Ok i -> str_to_int dim2 = Ok j ->
  get Sigma i j = 0 -> 0 <= get Sigma i i < get Sigma j j ->
  Analysis.rms_ellipse_dims Sigma dim1 dim2
  = Ok (- (PI / 2), sqrt (get Sigma j j), sqrt (get Sigma i i)).
Proof.
  intros Hi Hj Hij [Hii Hlt].
  unfold Analysis.rms_ellipse_dims. rewrite Hi, Hj. cbn [bind].
  rewrite Hij, atan2_zero_neg by lra.
  rewrite sin_minus_half_PI, cos_minus_half_PI.
  rewrite !py_sqrt_ok by apply Rabs_pos. cbn [bind].
  f_equal. apply triple_eq; [lra | |]; apply sqrt_Rabs_nonneg; lra.
Qed.

Lemma sqrt_4 : sqrt 4 = 2.
Proof. replace 4 with (2 * 2) by lra. apply sqrt_square. lra. Qed.

(** C5, as stated, fails on the covariance matrix [diag(1, 4, 1, 1)] in
    the plane [(x, xp)]: the function returns a quarter turn and the
    semi-axes [(2, 1)], not [phi = 0] and [(1, 2)]. *)
Lemma rms_ellipse_dims_diag_counterexample :
  let Sigma := [[1; 0; 0; 0]; [0; 4; 0; 0]; [0; 0; 1; 0]; [0; 0; 0; 1]] in
  symmetric4 Sigma /\
  get Sigma 0 1 = 0 /\ 0 <= get Sigma 0 0 /\ 0 <= get Sigma 1 1 /\
  Analysis.rms_ellipse_dims Sigma "x" "xp" = Ok (- (PI / 2), 2, 1) /\
  Analysis.rms_ellipse_dims Sigma "x" "xp"
  <> Ok (0, sqrt (get Sigma 0 0), sqrt (get Sigma 1 1)).
Proof.
  intros Sigma.
  assert (Hrun : Analysis.rms_ellipse_dims Sigma "x" "xp" = Ok (- (PI / 2), 2, 1)).
  { rewrite (rms_ellipse_dims_upright Sigma "x" "xp" 0 1); try reflexivity.
    - unfold Sigma, get; cbn [nth]. rewrite sqrt_4, sqrt_1. reflexivity.
    - unfold Sigma, get; cbn [nth]. lra. }
  split; [| split; [| split; [| split; [| split]]]].
  - intros i j Hi Hj. unfold Sigma, get.
    destruct i as [|[|[|[|i]]]]; try lia;
      destruct j as [|[|[|[|j]]]]; try lia; reflexivity.
  - reflexivity.
  - unfold Sigma, get; cbn [nth]. lra.
  - unfold Sigma, get; cbn [nth]. lra.
  - exact Hrun.
  - rewrite Hrun. intros H. inversion H as [[Hphi H1 H2]].
    pose proof PI_RGT_0. lra.
Qed.

(** C5, amended.  For a plane [(i, j)] with [sig_ij = 0] and non-negative
    [sig_ii], [sig_jj]: when [sig_jj <= sig_ii] both versions of
    [rms_ellipse_dims] return [phi = 0], [c1 = sqrt sig_ii] and
    [c2 = sqrt sig_jj]; when [sig_ii < sig_jj] they return
    [phi = - pi / 2], [c1 = sqrt sig_jj] and [c2 = sqrt sig_ii]. *)
Theorem rms_ellipse_dims_uncorrelated
    (Sigma : Matrix) (dim1 dim2 : string) (i j : nat) :
  str_to_int dim1 = Ok i -> str_to_int dim2 = Ok j ->
  get Sigma i j = 0 -> 0 <= get Sigma i i -> 0 <= get Sigma j j ->
  let sig_ii := get Sigma i i in
  let sig_jj := get Sigma j j in
  (sig_jj <= sig_ii ->
     Analysis.rms_ellipse_dims Sigma dim1 dim2 = Ok (0, sqrt sig_ii, sqrt sig_jj) /\
     TargetImage.rms_ellipse_dims sig_ii sig_jj 0 = (sqrt sig_ii, sqrt sig_jj, 0)) /\
  (sig_ii < sig_jj ->
     Analysis.rms_ellipse_dims Sigma dim1 dim2
     = Ok (- (PI / 2), sqrt sig_jj, sqrt sig_ii) /\
     TargetImage.rms_ellipse_dims sig_ii sig_jj 0
     = (sqrt sig_jj, sqrt sig_ii, - (PI / 2))).
Proof.
  intros Hi Hj Hij Hii Hjj sig_ii sig_jj. subst sig_ii sig_jj.
  split; intros Hcmp; split.
  - apply (rms_ellipse_dims_flat Sigma dim1 dim2 i j); auto; lra.
  - unfold TargetImage.rms_ellipse_dims.
    rewrite atan2_zero_pos by lra.
    rewrite sin_minus_half_zero, cos_minus_half_zero.
    apply triple_eq; [| | lra]; apply sqrt_Rabs_nonneg; lra.
  - apply (rms_ellipse_dims_upright Sigma dim1 dim2 i j); auto; lra.
  - unfold TargetImage.rms_ellipse_dims.
    rewrite atan2_zero_neg by lra.
    rewrite sin_minus_half_PI, cos_minus_half_PI.
    apply triple_eq; [| | lra]; apply sqrt_Rabs_nonneg; lra.
Qed.

Lemma rms_ellipse_dims_uncorrelated_witness :
  let Sigma := [[4; 0; 0; 0]; [0; 1; 0; 0]; [0; 0; 1; 0]; [0; 0; 0; 9]] in
  (get Sigma 1 1 <= get Sigma 0 0 ->
     Analysis.rms_ellipse_dims Sigma "x" "xp"
     = Ok (0, sqrt (get Sigma 0 0), sqrt (get Sigma 1 1)) /\
     TargetImage.rms_ellipse_dims (get Sigma 0 0) (get Sigma 1 1) 0
     = (sqrt (get Sigma 0 0), sqrt (get Sigma 1 1), 0)) /\
  (get Sigma 0 0 < get Sigma 1 1 ->
     Analysis.rms_ellipse_dims Sigma "x" "xp"
     = Ok (- (PI / 2), sqrt (get Sigma 1 1), sqrt (get Sigma 0 0)) /\
     TargetImage.rms_ellipse_dims (get Sigma 0 0) (get Sigma 1 1) 0
     = (sqrt (get Sigma 1 1), sqrt (get Sigma 0 0), - (PI / 2))).
Proof.
  intros Sigma.
  apply (rms_ellipse_dims_uncorrelated Sigma "x" "xp" 0 1);
    try reflexivity; unfold Sigma, get; cbn [nth]; lra.
Defined.

(** ** Eigenvalues and the validity test *)

Lemma sum4_delta (a : nat -> R) (k : nat) :
  (k < 4)%nat -> sum4 (fun m => a m * (if Nat.eqb m k then 1 else 0)) = a k.
Proof.
  intros Hk. unfold sum4.
  destruct k as [|[|[|[|k]]]]; try lia; cbn [Nat.eqb]; ring.
Qed.

(** The columns of [Q] are eigenvectors: [Sigma * Q = Q * diag(l)]. *)
Lemma spectrum_eigenvectors (Sigma Q : Matrix) (l : list R) :
  orthonormal_columns Q ->
  (forall i j, (i < 4)%nat -> (j < 4)%nat ->
     get Sigma i j = sum4 (fun k => get Q i k * nth k l 0 * get Q j k)) ->
  forall i k, (i < 4)%nat -> (k < 4)%nat ->
    sum4 (fun j => get Sigma i j * get Q j k) = get Q i k * nth k l 0.
Proof.
  intros Horth Hdec i k Hi Hk.
  rewrite <- (sum4_delta (fun m => get Q i m * nth m l 0) k Hk).
  pose proof (Horth 0%nat k ltac:(lia) Hk) as H0.
  pose proof (Horth 1%nat k ltac:(lia) Hk) as H1.
  pose proof (Horth 2%nat k ltac:(lia) Hk) as H2.
  pose proof (Horth 3%nat k ltac:(lia) Hk) as H3.
  unfold sum4 in *.
  rewrite (Hdec i 0%nat), (Hdec i 1%nat), (Hdec i 2%nat), (Hdec i 3%nat) by lia.
  rewrite <- H0, <- H1, <- H2, <- H3. ring.
Qed.

(** A symmetric matrix with non-negative eigenvalues has a non-negative
    diagonal. *)
Lemma spectrum_diagonal_nonneg (Sigma : Matrix) (l : list R) (i : nat) :
  Spectrum Sigma l -> Forall (fun e => 0 <= e) l -> (i < 4)%nat ->
  0 <= get Sigma i i.
Proof.
  intros [Hlen [Q [_ Hdec]]] Hpos Hi.
  rewrite (Hdec i i Hi Hi). unfold sum4.
  destruct l as [| l0 [| l1 [| l2 [| l3 [| l4 l]]]]]; try discriminate Hlen.
  inversion Hpos as [| ? ? P0 Hpos1]; subst.
  inversion Hpos1 as [| ? ? P1 Hpos2]; subst.
  inversion Hpos2 as [| ? ? P2 Hpos3]; subst.
  inversion Hpos3 as [| ? ? P3 _]; subst.
  cbn [nth].
  assert (Hterm : forall q e, 0 <= e -> 0 <= q * e * q).
  { intros q e He. replace (q * e * q) with (e * (q * q)) by ring.
    apply Rmult_le_pos; [assumption | nra]. }
  pose proof (Hterm (get Q i 0%nat) l0 P0).
  pose proof (Hterm (get Q i 1%nat) l1 P1).
  pose proof (Hterm (get Q i 2%nat) l2 P2).
  pose proof (Hterm (get Q i 3%nat) l3 P3).
  lra.
Qed.

Lemma forallb_Rleb_Forall (l : list R) :
  forallb (fun e => Rleb 0 e) l = true -> Forall (fun e => 0 <= e) l.
Proof.
  induction l as [| e l IH]; cbn [forallb]; intros H; constructor.
  - destruct (andb_prop _ _ H) as [He _]. unfold Rleb in He.
    destruct (Rle_dec 0 e); [assumption | discriminate].
  - apply IH. destruct (andb_prop _ _ H) as [_ Hl]. exact Hl.
Qed.

Ltac matrix_compute :=
  cbv [det det_rec nrows ncols length hd trace times column dot rsum
       fold_right map combine seq Nat.min get nth fst snd remove_nth firstn
       skipn app Nat.even U timesScalar identity diagonal_matrix Nat.eqb].

(** [c * I], entry by entry. *)
Lemma timesScalar_identity c :
  timesScalar c (identity 4 4) = diagonal_matrix [c; c; c; c].
Proof. matrix_compute. repeat (f_equal; try ring). Qed.

Lemma get_scalar_matrix c i j :
  (i < 4)%nat -> (j < 4)%nat ->
  get (diagonal_matrix [c; c; c; c]) i j = if Nat.eqb i j then c else 0.
Proof.
  intros Hi Hj.
  destruct i as [|[|[|[|i]]]]; try lia; destruct j as [|[|[|[|j]]]]; try lia;
    reflexivity.
Qed.

Lemma symmetric4_scalar_matrix c : symmetric4 (diagonal_matrix [c; c; c; c]).
Proof.
  intros i j Hi Hj. rewrite !get_scalar_matrix by assumption.
  now rewrite Nat.eqb_sym.
Qed.

(** All four eigenvalues of [c * I] are [c]. *)
Lemma spectrum_scalar_matrix c l :
  Spectrum (diagonal_matrix [c; c; c; c]) l -> l = [c; c; c; c].
Proof.
  intros [Hlen [Q [Horth Hdec]]].
  assert (Hall : forall k, (k < 4)%nat -> nth k l 0 = c).
  { intros k Hk.
    pose proof (spectrum_eigenvectors _ Q l Horth Hdec) as Hev.
    assert (Hcol : forall i, (i < 4)%nat -> c * get Q i k = get Q i k * nth k l 0).
    { intros i Hi. rewrite <- (Hev i k Hi Hk). unfold sum4.
      rewrite !get_scalar_matrix by lia.
      destruct i as [|[|[|[|i]]]]; try lia; cbn [Nat.eqb]; ring. }
    pose proof (Horth k k Hk Hk) as Hnorm.
    rewrite Nat.eqb_refl in Hnorm. unfold sum4 in Hnorm.
    pose proof (Hcol 0%nat ltac:(lia)) as H0.
    pose proof (Hcol 1%nat ltac:(lia)) as H1.
    pose proof (Hcol 2%nat ltac:(lia)) as H2.
    pose proof (Hcol 3%nat ltac:(lia)) as H3.
    assert (E : (c - nth k l 0)
                * (get Q 0 k * get Q 0 k + get Q 1 k * get Q 1 k
                   + get Q 2 k * get Q 2 k + get Q 3 k * get Q 3 k) = 0).
    { replace ((c - nth k l 0)
                * (get Q 0 k * get Q 0 k + get Q 1 k * get Q 1 k
                   + get Q 2 k * get Q 2 k + get Q 3 k * get Q 3 k))
        with (get Q 0 k * (c * get Q 0 k - get Q 0 k * nth k l 0)
              + get Q 1 k * (c * get Q 1 k - get Q 1 k * nth k l 0)
              + get Q 2 k * (c * get Q 2 k - get Q 2 k * nth k l 0)
              + get Q 3 k * (c * get Q 3 k - get Q 3 k * nth k l 0)) by ring.
      rewrite H0, H1, H2, H3. ring. }
    rewrite Hnorm in E. lra. }
  destruct l as [| l0 [| l1 [| l2 [| l3 [| l4 l]]]]]; try discriminate Hlen.
  pose proof (Hall 0%nat ltac:(lia)) as E0.
  pose proof (Hall 1%nat ltac:(lia)) as E1.
  pose proof (Hall 2%nat ltac:(lia)) as E2.
  pose proof (Hall 3%nat ltac:(lia)) as E3.
  cbn [nth] in *. now subst.
Qed.

Lemma det_scalar_matrix c : det (diagonal_matrix [c; c; c; c]) = c * c * c * c.
Proof. matrix_compute. ring. Qed.

Lemma trace_SU2_scalar_matrix c :
  let S := diagonal_matrix [c; c; c; c] in
  trace (times (times S U) (times S U)) = - (4 * (c * c)).
Proof. matrix_compute. ring. Qed.

Lemma apparent_emittances_scalar_matrix c :
  0 <= c -> apparent_emittances (diagonal_matrix [c; c; c; c]) = Ok (c, c).
Proof.
  intros Hc. unfold apparent_emittances.
  rewrite !get_scalar_matrix by lia. cbn [Nat.eqb].
  replace (c * c - 0 ^ 2) with (c * c) by ring.
  rewrite py_sqrt_ok by nra. cbn [bind].
  now rewrite sqrt_square.
Qed.

Lemma intrinsic_emittances_scalar_matrix c :
  0 <= c -> intrinsic_emittances (diagonal_matrix [c; c; c; c]) = Ok (c, c).
Proof.
  intros Hc. unfold intrinsic_emittances.
  rewrite trace_SU2_scalar_matrix, det_scalar_matrix.
  replace ((- (4 * (c * c))) ^ 2 - 16 * (c * c * c * c)) with 0 by ring.
  rewrite py_sqrt_ok by lra. cbn [bind]. rewrite sqrt_0.
  replace (- - (4 * (c * c)) + 0) with ((2 * c) * (2 * c)) by ring.
  replace (- - (4 * (c * c)) - 0) with ((2 * c) * (2 * c)) by ring.
  rewrite py_sqrt_ok by nra. cbn [bind].
  rewrite sqrt_square by lra.
  f_equal. f_equal; lra.
Qed.

Lemma emittances_scalar_matrix c :
  0 <= c -> emittances (diagonal_matrix [c; c; c; c]) = Ok (c, c, c, c).
Proof.
  intros Hc. unfold emittances.
  rewrite apparent_emittances_scalar_matrix by assumption.
  rewrite intrinsic_emittances_scalar_matrix by assumption.
  reflexivity.
Qed.

(** The module-level test accepts [c * I] for [c > 0]. *)
Lemma is_valid_cov_scalar_matrix (eig : Matrix -> list R) (c : R) :
  0 < c -> eig_contract eig (diagonal_matrix [c; c; c; c]) ->
  is_valid_cov eig (diagonal_matrix [c; c; c; c]) = Ok true.
Proof.
  intros Hc Heig.
  specialize (Heig (symmetric4_scalar_matrix c)).
  apply spectrum_scalar_matrix in Heig.
  unfold is_valid_cov, is_positive_definite. rewrite Heig.
  cbn [forallb]. rewrite !Rleb_true by lra. cbn [andb negb].
  rewrite det_scalar_matrix.
  rewrite Rltb_false by (assert (0 <= c * c) by nra; nra).
  rewrite emittances_scalar_matrix by lra. cbn [bind].
  rewrite Rltb_false by lra. reflexivity.
Qed.

(** The eigenvalues of a diagonal matrix are its diagonal entries. *)
Lemma spectrum_diagonal (a b c d : R) :
  Spectrum (diagonal_matrix [a; b; c; d]) [a; b; c; d].
Proof.
  split; [reflexivity |]. exists (identity 4 4). split.
  - intros k m Hk Hm.
    destruct k as [|[|[|[|k]]]]; try lia; destruct m as [|[|[|[|m]]]]; try lia;
      cbv [sum4 identity get seq map nth Nat.eqb]; ring.
  - intros i j Hi Hj.
    destruct i as [|[|[|[|i]]]]; try lia; destruct j as [|[|[|[|j]]]]; try lia;
      cbv [sum4 identity diagonal_matrix length get seq map nth Nat.eqb]; ring.
Qed.

(** C7.  [is_valid_cov] returns [False] for every symmetric 4x4 matrix
    with a negative diagonal entry, the eigenvalues being those of a
    routine that meets its contract on the matrix at hand.  For [c] times
    the identity with [c > 0] it returns [True] in exact arithmetic, and
    for the identity itself in double precision; but in double precision
    the radicand [trSU2**2 - 16 * detS] of [intrinsic_emittances], zero in
    exact arithmetic, is a rounding error: for [c = 1.1] it is negative and
    [is_valid_cov] raises a math domain error, and for [c = 9.35] it is
    positive and [is_valid_cov] returns [False]. *)
Theorem is_valid_cov_negative_diagonal_and_rounding
    (eig : Matrix -> list R)
    (det64 : Double.FMatrix -> PrimFloat.float)
    (eig64 : Double.FMatrix -> list PrimFloat.float) :
  (forall (Sigma : Matrix) (i : nat),
      symmetric4 Sigma -> eig_contract eig Sigma ->
      (i < 4)%nat -> get Sigma i i < 0 ->
      is_valid_cov eig Sigma = Ok false) /\
  (forall c : R,
      0 < c -> eig_contract eig (timesScalar c (identity 4 4)) ->
      is_valid_cov eig (timesScalar c (identity 4 4)) = Ok true) /\
  (Double.det_contract det64 -> Double.eig_contract eig64 ->
   Double.is_valid_cov det64 eig64 (Double.scaled_identity Double.one) = Ok true /\
   Double.intrinsic_emittances det64 (Double.scaled_identity Double.one_point_one)
   = Err (ValueError "math domain error") /\
   Double.is_valid_cov det64 eig64 (Double.scaled_identity Double.one_point_one)
   = Err (ValueError "math domain error") /\
   Double.is_valid_cov det64 eig64 (Double.scaled_identity Double.nine_point_three_five)
   = Ok false).
Proof.
  split; [| split].
  - intros Sigma i Hsym Heig Hi Hneg.
    unfold is_valid_cov.
    destruct (is_positive_definite eig Sigma) eqn:Hpd; [| reflexivity].
    exfalso. apply forallb_Rleb_Forall in Hpd.
    pose proof (spectrum_diagonal_nonneg Sigma (eig Sigma) i (Heig Hsym) Hpd Hi).
    lra.
  - intros c Hc. rewrite timesScalar_identity.
    now apply is_valid_cov_scalar_matrix.
  - intros Hdet Heig.
    unfold Double.is_valid_cov, Double.is_positive_definite, Double.emittances,
      Double.intrinsic_emittances.
    rewrite !Heig, !Hdet.
    repeat split; vm_compute; reflexivity.
Qed.

Lemma is_valid_cov_negative_diagonal_and_rounding_witness :
  let eig := fun S : Matrix => [get S 0 0; get S 1 1; get S 2 2; get S 3 3] in
  let det64 := fun S : Double.FMatrix =>
    PrimFloat.mul (PrimFloat.mul (PrimFloat.mul (PrimFloat.mul Double.one
      (Double.get S 0 0)) (Double.get S 1 1)) (Double.get S 2 2)) (Double.get S 3 3) in
  let eig64 := fun S : Double.FMatrix =>
    [Double.get S 0 0; Double.get S 1 1; Double.get S 2 2; Double.get S 3 3] in
  is_valid_cov eig [[-1; 0; 0; 0]; [0; 1; 0; 0]; [0; 0; 1; 0]; [0; 0; 0; 1]]
  = Ok false /\
  is_valid_cov eig (timesScalar 2 (identity 4 4)) = Ok true /\
  Double.is_valid_cov det64 eig64 (Double.scaled_identity Double.one) = Ok true /\
  Double.intrinsic_emittances det64 (Double.scaled_identity Double.one_point_one)
  = Err (ValueError "math domain error") /\
  Double.is_valid_cov det64 eig64 (Double.scaled_identity Double.one_point_one)
  = Err (ValueError "math domain error") /\
  Double.is_valid_cov det64 eig64 (Double.scaled_identity Double.nine_point_three_five)
  = Ok false.
Proof.
  intros eig det64 eig64.
  destruct (is_valid_cov_negative_diagonal_and_rounding eig det64 eig64)
    as (Hneg & Hexact & Hdouble).
  split; [| split].
  - apply (Hneg _ 0%nat).
    + intros i j Hi Hj.
      destruct i as [|[|[|[|i]]]]; try lia; destruct j as [|[|[|[|j]]]]; try lia;
        reflexivity.
    + intros _. apply (spectrum_diagonal (-1) 1 1 1).
    + lia.
    + cbv [get nth]. lra.
  - apply Hexact; [lra |].
    intros _. rewrite timesScalar_identity. apply (spectrum_diagonal 2 2 2 2).
  - apply Hdouble; intros c; reflexivity.
Defined.

(** ** The Edwards-Teng covariance construction *)

Lemma coupling_d_nonzero a b c : a <> 0 -> reconstruct_locals.coupling_d a b c = Ok (b * c / a).
Proof.
  intros Ha. unfold reconstruct_locals.coupling_d. rewrite Reqb_false by assumption.
  now apply py_div_ok.
Qed.

Lemma coupling_d_zero a b c : a = 0 -> b = 0 \/ c = 0 -> reconstruct_locals.coupling_d a b c = Ok 0.
Proof.
  intros Ha Hbc. unfold reconstruct_locals.coupling_d. rewrite Reqb_true by assumption.
  destruct Hbc as [Hb | Hc].
  - now rewrite (Reqb_true b 0 Hb).
  - rewrite (Reqb_true c 0 Hc). now rewrite orb_true_r.
Qed.

Lemma coupling_d_invalid a b c :
  a = 0 -> b <> 0 -> c <> 0 -> reconstruct_locals.coupling_d a b c = Err reconstruct_locals.invalid_parameterization.
Proof.
  intros Ha Hb Hc. unfold reconstruct_locals.coupling_d.
  rewrite Reqb_true by assumption. now rewrite !Reqb_false by assumption.
Qed.

Lemma coupling_d_error_inv a b c e :
  reconstruct_locals.coupling_d a b c = Err e ->
  e = reconstruct_locals.invalid_parameterization /\ a = 0 /\ b <> 0 /\ c <> 0.
Proof.
  intros H.
  destruct (Req_dec_T a 0) as [Ha | Ha].
  - destruct (Req_dec_T b 0) as [Hb | Hb].
    + rewrite coupling_d_zero in H by auto. discriminate.
    + destruct (Req_dec_T c 0) as [Hc | Hc].
      * rewrite coupling_d_zero in H by auto. discriminate.
      * rewrite coupling_d_invalid in H by auto. inversion H. auto.
  - rewrite coupling_d_nonzero in H by auto. discriminate.
Qed.

(** The normalization matrix exists for positive beta functions ... *)
Lemma normalization_matrix_ok alpha_x alpha_y beta_x beta_y :
  0 < beta_x -> 0 < beta_y ->
  exists V, reconstruct_locals.normalization_matrix alpha_x alpha_y beta_x beta_y = Ok V.
Proof.
  intros Hx Hy. unfold reconstruct_locals.normalization_matrix.
  pose proof (sqrt_lt_R0 beta_x Hx). pose proof (sqrt_lt_R0 beta_y Hy).
  rewrite !py_sqrt_ok by lra. cbn [bind].
  rewrite !py_div_ok by lra. cbn [bind].
  eexists. reflexivity.
Qed.

(** ... and its construction never raises the error of the coupling
    parameters. *)
Lemma normalization_matrix_error alpha_x alpha_y beta_x beta_y e :
  reconstruct_locals.normalization_matrix alpha_x alpha_y beta_x beta_y = Err e ->
  e = ValueError "math domain error" \/ e = ZeroDivisionError.
Proof.
  unfold reconstruct_locals.normalization_matrix, py_sqrt, py_div.
  destruct (Rltb beta_x 0); cbn [bind];
    [intros H; inversion H; auto |].
  destruct (Reqb (sqrt beta_x) 0); cbn [bind];
    [intros H; inversion H; auto |].
  destruct (Rltb beta_y 0); cbn [bind];
    [intros H; inversion H; auto |].
  destruct (Reqb (sqrt beta_y) 0); cbn [bind];
    [intros H; inversion H; auto |].
  discriminate.
Qed.

Lemma get_cov_invalid_only_if eps_1 eps_2 alpha_x alpha_y beta_x beta_y a b c :
  reconstruct_locals.get_cov eps_1 eps_2 alpha_x alpha_y beta_x beta_y a b c
  = Err reconstruct_locals.invalid_parameterization ->
  a = 0 /\ b <> 0 /\ c <> 0.
Proof.
  unfold reconstruct_locals.get_cov.
  destruct (reconstruct_locals.normalization_matrix alpha_x alpha_y beta_x beta_y) as [V | e] eqn:HV;
    cbn [bind].
  - destruct (reconstruct_locals.coupling_d a b c) as [d | e] eqn:Hd; cbn [bind]; [discriminate |].
    intros _. apply coupling_d_error_inv in Hd. tauto.
  - intros H. inversion H; subst.
    apply normalization_matrix_error in HV.
    destruct HV as [HV | HV]; discriminate HV.
Qed.

(** C8, as stated, fails for [beta_x = -1] with [a = 0], [b = c = 1]: the
    square root of [beta_x] raises a math domain error before the
    coupling parameters are looked at. *)
Lemma get_cov_counterexample :
  reconstruct_locals.get_cov 1 1 0 0 (-1) 1 0 1 1 = Err (ValueError "math domain error") /\
  ~ (reconstruct_locals.get_cov 1 1 0 0 (-1) 1 0 1 1 = Err reconstruct_locals.invalid_parameterization
     <-> (0 = 0 /\ 1 <> 0 /\ 1 <> 0)).
Proof.
  assert (Hrun : reconstruct_locals.get_cov 1 1 0 0 (-1) 1 0 1 1 = Err (ValueError "math domain error")).
  { unfold reconstruct_locals.get_cov, reconstruct_locals.normalization_matrix.
    rewrite py_sqrt_neg by lra. reflexivity. }
  split; [exact Hrun |].
  rewrite Hrun. intros [_ H].
  assert (Hfalse : Err (A := Matrix) (ValueError "math domain error")
                   = Err reconstruct_locals.invalid_parameterization).
  { apply H. repeat split; lra. }
  discriminate Hfalse.
Qed.

(** The same construction with [beta_x = 0] stops at the division. *)
Example get_cov_zero_beta :
  reconstruct_locals.get_cov 1 1 0 0 0 1 0 1 1 = Err ZeroDivisionError.
Proof.
  unfold reconstruct_locals.get_cov, reconstruct_locals.normalization_matrix.
  rewrite !py_sqrt_ok by lra. cbn [bind]. rewrite sqrt_0, py_div_zero.
  reflexivity.
Qed.

(** When a beta function is not positive the normalization matrix fails
    before the coupling parameters are looked at. *)
Lemma get_cov_nonpositive_beta (eps_1 eps_2 alpha_x alpha_y beta_x beta_y a b c : R) :
  (beta_x < 0 ->
   reconstruct_locals.get_cov eps_1 eps_2 alpha_x alpha_y beta_x beta_y a b c
   = Err (ValueError "math domain error")) /\
  (beta_x = 0 ->
   reconstruct_locals.get_cov eps_1 eps_2 alpha_x alpha_y beta_x beta_y a b c
   = Err ZeroDivisionError) /\
  (0 < beta_x -> beta_y < 0 ->
   reconstruct_locals.get_cov eps_1 eps_2 alpha_x alpha_y beta_x beta_y a b c
   = Err (ValueError "math domain error")) /\
  (0 < beta_x -> beta_y = 0 ->
   reconstruct_locals.get_cov eps_1 eps_2 alpha_x alpha_y beta_x beta_y a b c
   = Err ZeroDivisionError).
Proof.
  unfold reconstruct_locals.get_cov, reconstruct_locals.normalization_matrix.
  split; [| split; [| split]].
  - intros Hx. rewrite py_sqrt_neg by exact Hx. reflexivity.
  - intros ->. rewrite !py_sqrt_ok by lra. cbn [bind].
    rewrite sqrt_0, py_div_zero. reflexivity.
  - intros Hx Hy. pose proof (sqrt_lt_R0 beta_x Hx).
    rewrite !(py_sqrt_ok beta_x) by lra. cbn [bind].
    rewrite !py_div_ok by lra. cbn [bind].
    rewrite py_sqrt_neg by exact Hy. reflexivity.
  - intros Hx ->. pose proof (sqrt_lt_R0 beta_x Hx).
    rewrite !py_sqrt_ok by lra. cbn [bind].
    rewrite !(py_div_ok _ (sqrt beta_x)) by lra. cbn [bind].
    rewrite sqrt_0, py_div_zero. reflexivity.
Qed.

(** C8, amended.  The derived parameter is [d = b * c / a] when [a] is
    nonzero, and [d = 0] when [a = 0] and [b = 0] or [c = 0].  The
    construction fails with the invalid-parameterization error only if
    [a = 0] while [b] and [c] are both nonzero; for positive [beta_x] and
    [beta_y] it does fail so in that case, and otherwise returns
    [(V C) E (V C)^T] for the coupling matrix [C] built with [d].  When
    [beta_x] or [beta_y] is not positive the normalization matrix fails
    first, whatever [a], [b] and [c] are: with a math domain error of the
    square root for a negative beta function, the one of x first, and with a
    division by zero for a beta function that is zero. *)
Theorem get_cov_parameterization
    (eps_1 eps_2 alpha_x alpha_y beta_x beta_y a b c : R) :
  (a <> 0 -> reconstruct_locals.coupling_d a b c = Ok (b * c / a)) /\
  (a = 0 -> b = 0 \/ c = 0 -> reconstruct_locals.coupling_d a b c = Ok 0) /\
  (reconstruct_locals.get_cov eps_1 eps_2 alpha_x alpha_y beta_x beta_y a b c
   = Err reconstruct_locals.invalid_parameterization -> a = 0 /\ b <> 0 /\ c <> 0) /\
  (0 < beta_x -> 0 < beta_y ->
   (a = 0 /\ b <> 0 /\ c <> 0 ->
    reconstruct_locals.get_cov eps_1 eps_2 alpha_x alpha_y beta_x beta_y a b c
    = Err reconstruct_locals.invalid_parameterization) /\
   (forall d, reconstruct_locals.coupling_d a b c = Ok d ->
    exists V,
      reconstruct_locals.normalization_matrix alpha_x alpha_y beta_x beta_y = Ok V /\
      reconstruct_locals.get_cov eps_1 eps_2 alpha_x alpha_y beta_x beta_y a b c
      = Ok (times (times V (reconstruct_locals.coupling_matrix a b c d))
              (times (diagonal_matrix [eps_1; eps_1; eps_2; eps_2])
                 (transpose (times V (reconstruct_locals.coupling_matrix a b c d))))))) /\
  (beta_x < 0 ->
   reconstruct_locals.get_cov eps_1 eps_2 alpha_x alpha_y beta_x beta_y a b c
   = Err (ValueError "math domain error")) /\
  (beta_x = 0 ->
   reconstruct_locals.get_cov eps_1 eps_2 alpha_x alpha_y beta_x beta_y a b c
   = Err ZeroDivisionError) /\
  (0 < beta_x -> beta_y < 0 ->
   reconstruct_locals.get_cov eps_1 eps_2 alpha_x alpha_y beta_x beta_y a b c
   = Err (ValueError "math domain error")) /\
  (0 < beta_x -> beta_y = 0 ->
   reconstruct_locals.get_cov eps_1 eps_2 alpha_x alpha_y beta_x beta_y a b c
   = Err ZeroDivisionError).
Proof.
  split; [apply coupling_d_nonzero |].
  split; [apply coupling_d_zero |].
  split; [apply get_cov_invalid_only_if |].
  split; [| apply get_cov_nonpositive_beta].
  intros Hx Hy.
  destruct (normalization_matrix_ok alpha_x alpha_y beta_x beta_y Hx Hy) as [V HV].
  split.
  - intros (Ha & Hb & Hc). unfold reconstruct_locals.get_cov. rewrite HV. cbn [bind].
    now rewrite coupling_d_invalid.
  - intros d Hd. exists V. split; [exact HV |].
    unfold reconstruct_locals.get_cov. rewrite HV. cbn [bind]. rewrite Hd. reflexivity.
Qed.

Lemma get_cov_parameterization_witness :
  (2 <> 0 -> reconstruct_locals.coupling_d 2 3 4 = Ok (3 * 4 / 2)) /\
  (0 = 0 -> 1 = 0 \/ 0 = 0 -> reconstruct_locals.coupling_d 0 1 0 = Ok 0) /\
  reconstruct_locals.get_cov 1 1 0 0 1 1 0 1 1 = Err reconstruct_locals.invalid_parameterization /\
  reconstruct_locals.get_cov 1 1 0 0 (-1) 1 0 1 1 = Err (ValueError "math domain error") /\
  reconstruct_locals.get_cov 1 1 0 0 0 1 0 1 1 = Err ZeroDivisionError /\
  reconstruct_locals.get_cov 1 1 0 0 1 (-1) 0 1 1 = Err (ValueError "math domain error") /\
  reconstruct_locals.get_cov 1 1 0 0 1 0 0 1 1 = Err ZeroDivisionError.
Proof.
  split; [| split; [| split; [| split; [| split; [| split]]]]].
  - apply (get_cov_parameterization 1 1 0 0 1 1 2 3 4).
  - apply (get_cov_parameterization 1 1 0 0 1 1 0 1 0).
  - apply (get_cov_parameterization 1 1 0 0 1 1 0 1 1); lra.
  - destruct (get_cov_parameterization 1 1 0 0 (-1) 1 0 1 1)
      as (_ & _ & _ & _ & H & _). apply H. lra.
  - destruct (get_cov_parameterization 1 1 0 0 0 1 0 1 1)
      as (_ & _ & _ & _ & _ & H & _). apply H. reflexivity.
  - destruct (get_cov_parameterization 1 1 0 0 1 (-1) 0 1 1)
      as (_ & _ & _ & _ & _ & _ & H & _). apply H; lra.
  - destruct (get_cov_parameterization 1 1 0 0 1 0 0 1 1)
      as (_ & _ & _ & _ & _ & _ & _ & H). apply H; [lra | reflexivity].
Defined.

(** ** The physicality test of [reconstruct] *)

Ltac system_compute :=
  cbv [form_A_b rows_of_measurement item nth_error combine bind app
       Fixtures.transfer_mats Fixtures.transfer_matrix Fixtures.moments
       Fixtures.unit_moment_vec mulv dot rsum fold_right map fst snd
       ncols hd length].

(** The linear system of the test data has the unit moment vector as its
    one solution. *)
Lemma fixture_system :
  exists A b,
    form_A_b (combine Fixtures.transfer_mats Fixtures.moments) [] [] = Ok (A, b) /\
    length Fixtures.unit_moment_vec = ncols A /\
    mulv A Fixtures.unit_moment_vec = b /\
    (forall y, length y = ncols A -> mulv A y = b -> y = Fixtures.unit_moment_vec).
Proof.
  eexists _, _. split; [system_compute; reflexivity |].
  split; [reflexivity |]. split.
  - system_compute. repeat (f_equal; try lra).
  - intros y Hlen. cbv [ncols hd length] in Hlen.
    destruct y as [| y0 [| y1 [| y2 [| y3 [| y4 [| y5 [| y6 [| y7 [| y8 [| y9 [| y10 y]]]]]]]]]]];
      try discriminate Hlen.
    system_compute. intros H.
    injection H as E1 E2 E3 E4 E5 E6 E7 E8 E9 E10 E11 E12.
    repeat (f_equal; try lra).
Qed.

Lemma existsb_Rltb_false_Forall (l : list R) :
  existsb (fun e => Rltb e 0) l = false -> Forall (fun e => 0 <= e) l.
Proof.
  induction l as [| e l IH]; cbn [existsb]; intros H; constructor.
  - apply orb_false_elim in H. destruct H as [He _]. unfold Rltb in He.
    destruct (Rlt_dec e 0); [discriminate | lra].
  - apply IH. apply orb_false_elim in H. tauto.
Qed.

Lemma existsb_Rltb_true_Exists (l : list R) :
  existsb (fun e => Rltb e 0) l = true <-> Exists (fun e => e < 0) l.
Proof.
  induction l as [| e l IH]; cbn [existsb].
  - split; [discriminate | intros H; inversion H].
  - rewrite orb_true_iff, IH, Exists_cons. unfold Rltb.
    destruct (Rlt_dec e 0); split; intros [H | H]; auto; try discriminate;
      try contradiction.
Qed.

Lemma forallb_Rleb_true_Forall (l : list R) :
  forallb (fun e => Rleb 0 e) l = true <-> Forall (fun e => 0 <= e) l.
Proof.
  split; [apply forallb_Rleb_Forall |].
  induction 1 as [| e l He _ IH]; cbn [forallb]; [reflexivity |].
  now rewrite Rleb_true, IH.
Qed.

(** What the module-level test accepts: no negative eigenvalue. *)
Lemma is_valid_cov_true_iff (eig : Matrix -> list R) (Sigma : Matrix) :
  is_valid_cov eig Sigma = Ok true <->
  Forall (fun e => 0 <= e) (eig Sigma) /\ 0 <= det Sigma /\
  exists eps_x eps_y eps_1 eps_2,
    emittances Sigma = Ok (eps_x, eps_y, eps_1, eps_2) /\
    eps_1 * eps_2 <= eps_x * eps_y.
Proof.
  unfold is_valid_cov, is_positive_definite.
  rewrite <- forallb_Rleb_true_Forall.
  destruct (forallb (fun e => Rleb 0 e) (eig Sigma)); cbn [negb].
  2:{ split; [discriminate | intros [H _]; discriminate H]. }
  unfold Rltb at 1. destruct (Rlt_dec (det Sigma) 0) as [Hd | Hd].
  { split; [discriminate | intros (_ & H & _); lra]. }
  destruct (emittances Sigma) as [[[[ex ey] e1] e2] | err]; cbn [bind].
  2:{ split; [discriminate | intros (_ & _ & ? & ? & ? & ? & H & _); discriminate H]. }
  unfold Rltb. destruct (Rlt_dec (ex * ey) (e1 * e2)) as [Hc | Hc].
  - split; [discriminate |].
    intros (_ & _ & ? & ? & ? & ? & H & Hle). inversion H; subst. lra.
  - split; [| reflexivity]. intros _.
    split; [reflexivity |]. split; [lra |].
    exists ex, ey, e1, e2. split; [reflexivity | lra].
Qed.

(** What the test nested in [reconstruct] accepts: some negative
    eigenvalue. *)
Lemma is_physical_cov_true_iff (eig : Matrix -> list R) (Sigma : Matrix) :
  reconstruct_locals.is_physical_cov eig Sigma = Ok true <->
  Exists (fun e => e < 0) (eig Sigma) /\ 0 <= det Sigma /\
  exists eps_x eps_y eps_1 eps_2,
    emittances Sigma = Ok (eps_x, eps_y, eps_1, eps_2) /\
    eps_1 * eps_2 <= eps_x * eps_y.
Proof.
  unfold reconstruct_locals.is_physical_cov, reconstruct_locals.is_positive_definite.
  rewrite <- existsb_Rltb_true_Exists.
  destruct (existsb (fun e => Rltb e 0) (eig Sigma)); cbn [andb].
  2:{ split; [discriminate | intros [H _]; discriminate H]. }
  unfold Rleb at 1. destruct (Rle_dec 0 (det Sigma)) as [Hd | Hd].
  2:{ split; [discriminate | intros (_ & H & _); lra]. }
  destruct (emittances Sigma) as [[[[ex ey] e1] e2] | err]; cbn [bind].
  2:{ split; [discriminate | intros (_ & _ & ? & ? & ? & ? & H & _); discriminate H]. }
  unfold Rleb. destruct (Rle_dec (e1 * e2) (ex * ey)) as [Hc | Hc].
  - split; [| reflexivity]. intros _.
    split; [reflexivity |]. split; [lra |].
    exists ex, ey, e1, e2. split; [reflexivity | lra].
  - split; [discriminate |].
    intros (_ & _ & ? & ? & ? & ? & H & Hle). inversion H; subst. lra.
Qed.

(** The two tests never agree on a matrix that one of them accepts. *)
Lemma valid_cov_is_not_physical_cov (eig : Matrix -> list R) (Sigma : Matrix) :
  is_valid_cov eig Sigma = Ok true ->
  reconstruct_locals.is_physical_cov eig Sigma = Ok false.
Proof.
  intros H. apply is_valid_cov_true_iff in H. destruct H as [Hall _].
  unfold reconstruct_locals.is_physical_cov, reconstruct_locals.is_positive_definite.
  destruct (existsb (fun e => Rltb e 0) (eig Sigma)) eqn:Hex; [| reflexivity].
  exfalso. apply existsb_Rltb_true_Exists in Hex.
  apply Exists_exists in Hex. destruct Hex as (e & Hin & Hneg).
  rewrite Forall_forall in Hall. specialize (Hall e Hin). lra.
Qed.

(** C1 (the code departs from it).  On the test data the linear
    least-squares solution is the unit covariance matrix; it passes the
    physicality test (eigenvalues, determinant, emittances), yet
    [reconstruct] reports it unphysical and runs the nonlinear fit. *)
Theorem reconstruct_runs_solver_on_physical_matrix
    (lsq_linear : list (list R) -> list R -> result (list R))
    (eig : Matrix -> list R)
    (minimize : (list R -> result R) -> list R -> list string -> list R * R
                -> Z -> R -> result (list R))
    (random_1 random_2 random_3 : R) (A : list (list R)) (b : list R) :
  form_A_b (combine Fixtures.transfer_mats Fixtures.moments) [] [] = Ok (A, b) ->
  lsq_contract lsq_linear A b ->
  eig_contract eig (diagonal_matrix [1; 1; 1; 1]) ->
  is_valid_cov eig (diagonal_matrix [1; 1; 1; 1]) = Ok true /\
  reconstruct lsq_linear eig minimize random_1 random_2 random_3
    Fixtures.transfer_mats Fixtures.moments true
  = (["Covariance matrix is unphysical. Running solver."%string],
     edwards_teng_fit minimize random_1 random_2 random_3
       Fixtures.transfer_mats Fixtures.moments (diagonal_matrix [1; 1; 1; 1])).
Proof.
  intros HAb Hlsq Heig.
  assert (Hvalid : is_valid_cov eig (diagonal_matrix [1; 1; 1; 1]) = Ok true)
    by (apply is_valid_cov_scalar_matrix; [lra | exact Heig]).
  split; [exact Hvalid |].
  destruct fixture_system as (A' & b' & HAb' & Hlen & Hsol & Huniq).
  rewrite HAb in HAb'. injection HAb' as <- <-.
  unfold reconstruct. rewrite HAb. cbn [bind fst snd].
  rewrite (Hlsq Fixtures.unit_moment_vec Hlen Hsol Huniq). cbn [bind].
  change (to_mat Fixtures.unit_moment_vec) with (Ok (diagonal_matrix [1; 1; 1; 1])).
  cbn [negb].
  now rewrite (valid_cov_is_not_physical_cov eig _ Hvalid).
Qed.

Lemma reconstruct_runs_solver_on_physical_matrix_witness :
  let lsq_linear := fun (_ : list (list R)) (_ : list R) => Ok Fixtures.unit_moment_vec in
  let eig := fun S : Matrix => [get S 0 0; get S 1 1; get S 2 2; get S 3 3] in
  let minimize :=
    fun (_ : list R -> result R) (guess : list R) (_ : list string)
        (_ : list R * R) (_ : Z) (_ : R) => Ok guess in
  is_valid_cov eig (diagonal_matrix [1; 1; 1; 1]) = Ok true /\
  reconstruct lsq_linear eig minimize 0 0 0
    Fixtures.transfer_mats Fixtures.moments true
  = (["Covariance matrix is unphysical. Running solver."%string],
     edwards_teng_fit minimize 0 0 0
       Fixtures.transfer_mats Fixtures.moments (diagonal_matrix [1; 1; 1; 1])).
Proof.
  intros lsq_linear eig minimize.
  destruct fixture_system as (A & b & HAb & Hlen & Hsol & Huniq).
  apply (reconstruct_runs_solver_on_physical_matrix
           lsq_linear eig minimize 0 0 0 A b HAb).
  - intros x Hx Hmul _. unfold lsq_linear. f_equal.
    symmetry. now apply Huniq.
  - intros _. apply (spectrum_diagonal 1 1 1 1).
Defined.

(** Conversely the nested test lets a matrix with negative variances through,
    which the module-level test rejects. *)
Lemma is_physical_cov_accepts_negative_variances (eig : Matrix -> list R) :
  eig_contract eig Fixtures.negative_variances ->
  reconstruct_locals.is_physical_cov eig Fixtures.negative_variances = Ok true /\
  is_valid_cov eig Fixtures.negative_variances = Ok false.
Proof.
  intros Heig.
  assert (Hsym : symmetric4 Fixtures.negative_variances).
  { intros i j Hi Hj.
    destruct i as [|[|[|[|i]]]]; try lia; destruct j as [|[|[|[|j]]]]; try lia;
      reflexivity. }
  assert (Hdiag : get Fixtures.negative_variances 0 0 < 0).
  { cbv [Fixtures.negative_variances diagonal_matrix length seq map get nth Nat.eqb].
    lra. }
  assert (Hneg : existsb (fun e => Rltb e 0) (eig Fixtures.negative_variances) = true).
  { destruct (existsb _ _) eqn:Hex; [reflexivity | exfalso].
    apply existsb_Rltb_false_Forall in Hex.
    pose proof (spectrum_diagonal_nonneg _ _ 0%nat (Heig Hsym) Hex ltac:(lia)).
    lra. }
  assert (Hdet : det Fixtures.negative_variances = 1).
  { unfold Fixtures.negative_variances. matrix_compute. ring. }
  assert (Hem : emittances Fixtures.negative_variances = Ok (1, 1, 1, 1)).
  { unfold emittances, apparent_emittances, intrinsic_emittances.
    rewrite Hdet.
    replace (trace (times (times Fixtures.negative_variances U)
                      (times Fixtures.negative_variances U))) with (- 4)
      by (unfold Fixtures.negative_variances; matrix_compute; ring).
    cbv [Fixtures.negative_variances diagonal_matrix length seq map get nth Nat.eqb].
    replace (-1 * -1 - 0 ^ 2) with 1 by ring.
    replace (1 * 1 - 0 ^ 2) with 1 by ring.
    replace ((- 4) ^ 2 - 16 * 1) with 0 by ring.
    rewrite !py_sqrt_ok by lra. cbn [bind]. rewrite sqrt_1, sqrt_0.
    replace (- - 4 + 0) with 4 by ring.
    replace (- - 4 - 0) with 4 by ring.
    rewrite !py_sqrt_ok by lra. cbn [bind fst snd]. rewrite sqrt_4.
    f_equal. repeat (f_equal; try lra). }
  split.
  - apply is_physical_cov_true_iff.
    split; [now apply existsb_Rltb_true_Exists |].
    split; [lra |].
    exists 1, 1, 1, 1. split; [exact Hem | lra].
  - unfold is_valid_cov, is_positive_definite.
    destruct (forallb _ _) eqn:Hall; [exfalso | reflexivity].
    apply forallb_Rleb_Forall in Hall.
    pose proof (spectrum_diagonal_nonneg _ _ 0%nat (Heig Hsym) Hall ltac:(lia)).
    lra.
Qed.

(** ** Setting quadrupole fields *)

Section FieldProperties.

Variables toCAFromField toFieldFromCA : string -> R -> R.

Abbreviation get_field := (get_field toFieldFromCA).
Abbreviation set_field := (set_field toCAFromField).
Abbreviation ramp_pass := (ramp_pass toCAFromField toFieldFromCA).
Abbreviation ramp_loop := (ramp_loop toCAFromField toFieldFromCA).
Abbreviation set_targets := (set_targets toCAFromField).
Abbreviation set_fields := (set_fields toCAFromField toFieldFromCA).

Lemma get_field_invalid st quad_id opt :
  opt <> "model"%string -> opt <> "live"%string -> opt <> "book"%string ->
  get_field st quad_id opt = Err invalid_option.
Proof.
  intros Hm Hl Hb. unfold Optics.get_field.
  apply String.eqb_neq in Hm, Hl, Hb. now rewrite Hm, Hl, Hb.
Qed.

Lemma set_field_invalid st quad_id field opt :
  opt <> "model"%string -> opt <> "live"%string -> opt <> "book"%string ->
  set_field st quad_id field opt = Err invalid_option.
Proof.
  intros Hm Hl Hb. unfold Optics.set_field.
  apply String.eqb_neq in Hm, Hl, Hb. now rewrite Hm, Hl, Hb.
Qed.

Lemma set_fields_other st quad_ids fields opt max_frac_change max_iters :
  opt <> "model"%string -> opt <> "live"%string ->
  set_fields st quad_ids fields opt max_frac_change max_iters = Ok st.
Proof.
  intros Hm Hl. unfold Optics.set_fields.
  apply String.eqb_neq in Hm, Hl. now rewrite Hm, Hl.
Qed.

Lemma get_field_book st quad_id field val :
  live_fields st !! quad_id = Some field ->
  book_channels st !! quad_id = Some val ->
  get_field st quad_id "book" = Ok (toFieldFromCA quad_id val).
Proof. intros Hl Hb. unfold Optics.get_field. cbn [String.eqb Ascii.eqb Bool.eqb]. now rewrite Hl, Hb. Qed.

Lemma get_field_live st quad_id field :
  live_fields st !! quad_id = Some field ->
  get_field st quad_id "live" = Ok field.
Proof. intros Hl. unfold Optics.get_field. cbn [String.eqb Ascii.eqb Bool.eqb]. now rewrite Hl. Qed.

Lemma set_field_book st quad_id field :
  ready st quad_id ->
  set_field st quad_id field "book"
  = Ok (with_book st (<[quad_id := toCAFromField quad_id field]> (book_channels st))).
Proof.
  intros [[lv Hl] [ca Hb]]. unfold Optics.set_field.
  cbn [String.eqb Ascii.eqb Bool.eqb]. now rewrite Hl, Hb.
Qed.

Lemma set_field_live st quad_id field :
  ready st quad_id ->
  set_field st quad_id field "live"
  = Ok (with_live st (<[quad_id := field]> (live_fields st))).
Proof.
  intros [[lv Hl] _]. unfold Optics.set_field.
  cbn [String.eqb Ascii.eqb Bool.eqb]. now rewrite Hl.
Qed.

Lemma ready_with_book st quad_id val q :
  ready st q -> ready (with_book st (<[quad_id := val]> (book_channels st))) q.
Proof.
  intros [Hl Hb]. split; [exact Hl |]. cbn [book_channels with_book].
  apply lookup_insert_is_Some. destruct (decide (quad_id = q)); auto.
Qed.

Lemma ready_with_live st quad_id field q :
  ready st q -> ready (with_live st (<[quad_id := field]> (live_fields st))) q.
Proof.
  intros [Hl Hb]. split; [| exact Hb]. cbn [live_fields with_live].
  apply lookup_insert_is_Some. destruct (decide (quad_id = q)); auto.
Qed.

Abbreviation stepped := (stepped toCAFromField).

Lemma set_book_and_live st quad_id field :
  ready st quad_id ->
  (st1 <- set_field st quad_id field "book" ;; set_field st1 quad_id field "live")
  = Ok (stepped st quad_id field).
Proof.
  intros Hr. rewrite set_field_book by assumption. cbn [bind].
  rewrite set_field_live by now apply ready_with_book.
  reflexivity.
Qed.

Lemma ready_stepped st quad_id field q : ready st q -> ready (stepped st quad_id field) q.
Proof.
  intros Hr. unfold Optics.stepped.
  apply (ready_with_live (with_book st _) quad_id field q).
  now apply ready_with_book.
Qed.

(** A pass over magnets that are ready raises nothing and keeps them
    ready. *)
Lemma ramp_pass_ok targets : forall st max_frac_change stop,
  (forall q f, In (q, f) targets -> ready st q) ->
  exists stop' st',
    ramp_pass st targets max_frac_change stop = Ok (stop', st') /\
    (forall q, ready st q -> ready st' q).
Proof.
  induction targets as [| [quad_id field] rest IH]; intros st mfc stop Hready.
  - exists stop, st. split; [reflexivity | auto].
  - assert (Hq : ready st quad_id) by (apply (Hready quad_id field); now left).
    destruct Hq as [[lv Hl] [ca Hb]].
    cbn [Optics.ramp_pass]. rewrite (get_field_book st quad_id lv ca Hl Hb).
    cbn [bind].
    destruct (Rltb _ _).
    + set (new_field := if Rleb 0 _ then _ else _).
      pose proof (set_book_and_live st quad_id new_field
                    (conj (ex_intro _ lv Hl) (ex_intro _ ca Hb))) as Hset.
      destruct (set_field st quad_id new_field "book") as [st1 | e];
        cbn [bind] in Hset |- *; [| discriminate Hset].
      rewrite Hset. cbn [bind].
      destruct (IH (stepped st quad_id new_field) mfc false) as (stop' & st' & Hrun & Hkeep).
      { intros q f Hin. apply ready_stepped. apply (Hready q f). now right. }
      exists stop', st'. split; [exact Hrun |].
      intros q Hq. apply Hkeep. now apply ready_stepped.
    + apply IH. intros q f Hin. apply (Hready q f). now right.
Qed.

(** The ramp loop ends, whatever the number of iterations allowed. *)
Lemma ramp_loop_ok remaining : forall stop st targets max_frac_change,
  (forall q f, In (q, f) targets -> ready st q) ->
  exists st',
    ramp_loop remaining stop st targets max_frac_change = Ok st' /\
    (forall q, ready st q -> ready st' q).
Proof.
  induction remaining as [| remaining IH]; intros stop st targets mfc Hready.
  - exists st. split; [destruct stop; reflexivity | auto].
  - destruct stop.
    + exists st. split; [reflexivity | auto].
    + cbn [Optics.ramp_loop].
      destruct (ramp_pass_ok targets st mfc true Hready) as (stop' & st1 & Hrun & Hkeep).
      rewrite Hrun. cbn [bind fst snd].
      destruct (IH stop' st1 targets mfc) as (st' & Hloop & Hkeep').
      { intros q f Hin. apply Hkeep. now apply (Hready q f). }
      exists st'. split; [exact Hloop | auto].
Qed.

Lemma stepped_lookup st quad_id field :
  book_channels (stepped st quad_id field) !! quad_id
  = Some (toCAFromField quad_id field) /\
  live_fields (stepped st quad_id field) !! quad_id = Some field.
Proof. split; cbn; apply lookup_insert_eq. Qed.

Lemma stepped_lookup_other st quad_id field q :
  quad_id <> q ->
  book_channels (stepped st quad_id field) !! q = book_channels st !! q /\
  live_fields (stepped st quad_id field) !! q = live_fields st !! q.
Proof. intros Hne. split; cbn; now apply lookup_insert_ne. Qed.

(** The last loop leaves every magnet at its target. *)
Lemma set_targets_ok targets : forall st,
  NoDup (map fst targets) ->
  (forall q f, In (q, f) targets -> ready st q) ->
  exists st',
    set_targets st targets = Ok st' /\
    (forall q f, In (q, f) targets ->
       book_channels st' !! q = Some (toCAFromField q f) /\
       live_fields st' !! q = Some f) /\
    (forall q, ~ In q (map fst targets) ->
       book_channels st' !! q = book_channels st !! q /\
       live_fields st' !! q = live_fields st !! q).
Proof.
  induction targets as [| [quad_id field] rest IH]; intros st Hnodup Hready.
  - exists st. split; [reflexivity |]. split; [intros q f [] | auto].
  - cbn [map fst] in Hnodup. apply NoDup_cons in Hnodup as [Hnotin Hrest].
    assert (Hq : ready st quad_id) by (apply (Hready quad_id field); now left).
    cbn [Optics.set_targets].
    pose proof (set_book_and_live st quad_id field Hq) as Hset.
    destruct (set_field st quad_id field "book") as [st1 | e];
      cbn [bind] in Hset |- *; [| discriminate Hset].
    rewrite Hset. cbn [bind].
    destruct (IH (stepped st quad_id field) Hrest) as (st' & Hrun & Hin & Hout).
    { intros q f Hqf. apply ready_stepped. apply (Hready q f). now right. }
    exists st'. split; [exact Hrun |]. split.
    + intros q f [Heq | Hqf].
      * inversion Heq; subst q f.
        destruct (Hout quad_id) as [Hb Hl].
        { intros Hmem. apply Hnotin. now apply list_elem_of_In. }
        rewrite Hb, Hl. apply stepped_lookup.
      * now apply Hin.
    + intros q Hq'. cbn [map fst] in Hq'.
      destruct (Hout q) as [Hb Hl]; [intros H; apply Hq'; now right |].
      rewrite Hb, Hl. apply stepped_lookup_other.
      intros ->. apply Hq'. now left.
Qed.

Lemma map_fst_combine (quad_ids : list string) : forall fields : list R,
  length quad_ids = length fields -> map fst (combine quad_ids fields) = quad_ids.
Proof.
  induction quad_ids as [| q ids IH]; intros [| f fields] Hlen;
    try discriminate Hlen; [reflexivity |].
  cbn [combine map fst]. f_equal. apply IH. now injection Hlen.
Qed.

End FieldProperties.

(** C9.  With an option other than ['model'] and ['live'], ['book']
    included, [set_fields] returns without an error and leaves the state
    as it is, whereas [set_field] and [get_field] raise the
    invalid-option error for every option outside ['model'], ['live'] and
    ['book']. *)
Theorem set_fields_ignores_other_options
    (toCAFromField toFieldFromCA : string -> R -> R)
    (st : PhaseController) (quad_ids : list string) (fields : list R)
    (opt : string) (max_frac_change : R) (max_iters : Z)
    (quad_id : string) (field : R) :
  opt <> "model"%string -> opt <> "live"%string ->
  set_fields toCAFromField toFieldFromCA st quad_ids fields opt
    max_frac_change max_iters = Ok st /\
  set_fields toCAFromField toFieldFromCA st quad_ids fields "book"
    max_frac_change max_iters = Ok st /\
  (opt <> "book"%string ->
   set_field toCAFromField st quad_id field opt = Err invalid_option /\
   get_field toFieldFromCA st quad_id opt = Err invalid_option).
Proof.
  intros Hm Hl. split; [| split].
  - now apply set_fields_other.
  - now apply set_fields_other.
  - intros Hb. split.
    + now apply set_field_invalid.
    + now apply get_field_invalid.
Qed.

Lemma set_fields_ignores_other_options_witness :
  let id := fun (_ : string) (x : R) => x in
  let st := {| live_fields := {["RTBT_Mag:QH02"%string := 1]};
               model_fields := {["RTBT_Mag:QH02"%string := [1]]};
               book_channels := {["RTBT_Mag:QH02"%string := 1]};
               shared_power := empty |} in
  set_fields id id st ["RTBT_Mag:QH02"%string] [2] "design" (1 / 100) 100 = Ok st /\
  set_fields id id st ["RTBT_Mag:QH02"%string] [2] "book" (1 / 100) 100 = Ok st /\
  ("design"%string <> "book"%string ->
   set_field id st "RTBT_Mag:QH02" 2 "design" = Err invalid_option /\
   get_field id st "RTBT_Mag:QH02" "design" = Err invalid_option).
Proof.
  intros id st.
  apply (set_fields_ignores_other_options id id st); discriminate.
Defined.

(** ** The writes of the live ramp *)

Section WriteProperties.

Variables toCAFromField toFieldFromCA : string -> R -> R.

Abbreviation get_field' := (get_field toFieldFromCA).
Abbreviation set_field_writes' := (set_field_writes toCAFromField).
Abbreviation ramp_pass_writes' := (ramp_pass_writes toCAFromField toFieldFromCA).
Abbreviation ramp_loop_writes' := (ramp_loop_writes toCAFromField toFieldFromCA).
Abbreviation set_targets_writes' := (set_targets_writes toCAFromField).
Abbreviation stepped' := (stepped toCAFromField).

(** Every value sent to a book channel is within [max_frac_change] of
    the book value at that moment. *)
Let bounded (max_frac_change : R) (st : PhaseController) (writes : list write) : Prop :=
  forall before q val after,
    writes = before ++ putVal q val :: after ->
    exists book new_field,
      get_field' (replay st before) q "book" = Ok book /\
      val = toCAFromField q new_field /\
      Rabs (new_field - book) <= max_frac_change * Rabs book.

Lemma replay_app st (w1 w2 : list write) :
  replay st (w1 ++ w2) = replay (replay st w1) w2.
Proof. apply fold_left_app. Qed.

Lemma bounded_nil mfc st : bounded mfc st [].
Proof. intros before q val after H. now destruct before. Qed.

Lemma bounded_app mfc st (w1 w2 : list write) :
  bounded mfc st w1 -> bounded mfc (replay st w1) w2 -> bounded mfc st (w1 ++ w2).
Proof.
  intros H1 H2 before q val after Heq.
  apply app_eq_app in Heq as [l [[Hw1 Hrest] | [Hbefore Hw2]]].
  - destruct l as [| x l].
    + rewrite app_nil_r in Hw1. subst before. cbn [app] in Hrest.
      destruct (H2 [] q val after (eq_sym Hrest)) as (book & new_field & Hget & Hv & Hb).
      now exists book, new_field.
    + cbn [app] in Hrest. injection Hrest as <- Hafter.
      now apply (H1 before q val l).
  - subst before. rewrite replay_app. now apply (H2 l q val after).
Qed.

Lemma bounded_step mfc st quad_id book new_field :
  get_field' st quad_id "book" = Ok book ->
  Rabs (new_field - book) <= mfc * Rabs book ->
  bounded mfc st [putVal quad_id (toCAFromField quad_id new_field);
                  setField quad_id new_field].
Proof.
  intros Hget Hb before q val after Heq.
  destruct before as [| x [| y before]].
  - injection Heq as <- <- _. now exists book, new_field.
  - discriminate Heq.
  - injection Heq as _ _ Heq. now destruct before.
Qed.

Lemma set_book_and_live_writes st quad_id field :
  ready st quad_id ->
  set_field_writes' st quad_id field "book"
  = Ok (with_book st (<[quad_id := toCAFromField quad_id field]> (book_channels st)),
        [putVal quad_id (toCAFromField quad_id field)]) /\
  set_field_writes'
    (with_book st (<[quad_id := toCAFromField quad_id field]> (book_channels st)))
    quad_id field "live"
  = Ok (stepped' st quad_id field, [setField quad_id field]).
Proof.
  intros Hr. unfold set_field_writes. split.
  - now rewrite (set_field_book toCAFromField st quad_id field Hr).
  - rewrite (set_field_live toCAFromField) by now apply ready_with_book.
    reflexivity.
Qed.

Lemma step_bound (mfc book field : R) :
  0 <= mfc ->
  Rabs ((if Rleb 0 (field - book) then book + mfc * Rabs book
         else book - mfc * Rabs book) - book) <= mfc * Rabs book.
Proof.
  intros Hm. pose proof (Rabs_pos book) as Hb.
  assert (Hmb : 0 <= mfc * Rabs book) by now apply Rmult_le_pos.
  destruct (Rleb 0 (field - book)).
  - replace (book + mfc * Rabs book - book) with (mfc * Rabs book) by ring.
    rewrite Rabs_right by lra. lra.
  - replace (book - mfc * Rabs book - book) with (- (mfc * Rabs book)) by ring.
    rewrite Rabs_Ropp, Rabs_right by lra. lra.
Qed.

(** A pass with its writes: the writes give the state, and each is a
    bounded step. *)
Lemma ramp_pass_writes_ok (targets : list (string * R)) :
  forall st mfc stop,
    0 <= mfc ->
    (forall q f, In (q, f) targets -> ready st q) ->
    exists stop' writes,
      ramp_pass_writes' st targets mfc stop = Ok (stop', replay st writes, writes) /\
      ramp_pass toCAFromField toFieldFromCA st targets mfc stop
      = Ok (stop', replay st writes) /\
      (forall q, ready st q -> ready (replay st writes) q) /\
      bounded mfc st writes.
Proof.
  induction targets as [| [quad_id field] rest IH]; intros st mfc stop Hm Hready.
  - exists stop, []. split; [reflexivity |]. split; [reflexivity |].
    split; [auto | apply bounded_nil].
  - assert (Hq : ready st quad_id) by (apply (Hready quad_id field); now left).
    destruct Hq as [[lv Hl] [ca Hb]].
    pose proof (get_field_book toFieldFromCA st quad_id lv ca Hl Hb) as Hbook.
    cbn [Optics.ramp_pass_writes Optics.ramp_pass].
    rewrite Hbook. cbn [bind]. cbv zeta.
    set (book := toFieldFromCA quad_id ca) in *.
    destruct (Rltb (mfc * Rabs book) (Rabs (field - book))).
    + set (new_field := if Rleb 0 (field - book) then _ else _).
      assert (Hr : ready st quad_id) by (split; eauto).
      destruct (set_book_and_live_writes st quad_id new_field Hr) as [Hw1 Hw2].
      rewrite Hw1. cbn [bind fst snd]. rewrite Hw2. cbn [bind fst snd].
      pose proof (set_book_and_live toCAFromField st quad_id new_field Hr) as Hset.
      destruct (set_field toCAFromField st quad_id new_field "book") as [st1 | e];
        cbn [bind] in Hset |- *; [| discriminate Hset].
      rewrite Hset. cbn [bind].
      destruct (IH (stepped' st quad_id new_field) mfc false Hm)
        as (stop' & writes & Hrun & Hplain & Hkeep & Hbound).
      { intros q f Hin. apply ready_stepped. apply (Hready q f). now right. }
      rewrite Hrun, Hplain. cbn [bind fst snd].
      exists stop',
        ([putVal quad_id (toCAFromField quad_id new_field); setField quad_id new_field]
           ++ writes).
      rewrite replay_app.
      change (replay st [putVal quad_id (toCAFromField quad_id new_field);
                         setField quad_id new_field])
        with (stepped' st quad_id new_field).
      split; [reflexivity |]. split; [reflexivity |]. split.
      * intros q Hq. apply Hkeep. now apply ready_stepped.
      * apply bounded_app; [| exact Hbound].
        apply (bounded_step mfc st quad_id book new_field Hbook).
        apply step_bound. exact Hm.
    + apply IH; [exact Hm |]. intros q f Hin. apply (Hready q f). now right.
Qed.

Lemma ramp_loop_writes_ok (targets : list (string * R)) (mfc : R) (remaining : nat) :
  forall stop st,
    0 <= mfc ->
    (forall q f, In (q, f) targets -> ready st q) ->
    exists writes,
      ramp_loop_writes' remaining stop st targets mfc = Ok (replay st writes, writes) /\
      ramp_loop toCAFromField toFieldFromCA remaining stop st targets mfc
      = Ok (replay st writes) /\
      (forall q, ready st q -> ready (replay st writes) q) /\
      bounded mfc st writes.
Proof.
  induction remaining as [| remaining IH]; intros stop st Hm Hready.
  - exists []. destruct stop; (split; [reflexivity |]; split; [reflexivity |];
      split; [auto | apply bounded_nil]).
  - destruct stop.
    + exists []. split; [reflexivity |]. split; [reflexivity |].
      split; [auto | apply bounded_nil].
    + cbn [Optics.ramp_loop_writes Optics.ramp_loop].
      destruct (ramp_pass_writes_ok targets st mfc true Hm Hready)
        as (stop' & w1 & Hrun & Hplain & Hkeep & Hbound).
      rewrite Hrun, Hplain. cbn [bind fst snd].
      destruct (IH stop' (replay st w1) Hm) as (w2 & Hrun2 & Hplain2 & Hkeep2 & Hbound2).
      { intros q f Hin. apply Hkeep. now apply (Hready q f). }
      rewrite Hrun2, Hplain2. cbn [bind fst snd].
      exists (w1 ++ w2). rewrite replay_app.
      split; [reflexivity |]. split; [reflexivity |]. split.
      * intros q Hq. now apply Hkeep2, Hkeep.
      * now apply bounded_app.
Qed.

(** Without the bound on [max_frac_change] the loop still ends, and its
    writes give the state. *)
Lemma ramp_loop_writes_run (targets : list (string * R)) (mfc : R) (remaining : nat) :
  forall stop st,
    (forall q f, In (q, f) targets -> ready st q) ->
    exists writes,
      ramp_loop_writes' remaining stop st targets mfc = Ok (replay st writes, writes) /\
      ramp_loop toCAFromField toFieldFromCA remaining stop st targets mfc
      = Ok (replay st writes) /\
      (forall q, ready st q -> ready (replay st writes) q) /\
      (0 <= mfc -> bounded mfc st writes).
Proof.
  intros stop st Hready.
  destruct (Rle_dec 0 mfc) as [Hm | Hm].
  - destruct (ramp_loop_writes_ok targets mfc remaining stop st Hm Hready)
      as (w & H1 & H2 & H3 & H4).
    exists w. split; [exact H1 |]. split; [exact H2 |]. split; [exact H3 |].
    intros _. exact H4.
  - revert stop st Hready.
    assert (Hpass : forall tg st stop,
               (forall q f, In (q, f) tg -> ready st q) ->
               exists stop' writes,
                 ramp_pass_writes' st tg mfc stop = Ok (stop', replay st writes, writes) /\
                 ramp_pass toCAFromField toFieldFromCA st tg mfc stop
                 = Ok (stop', replay st writes) /\
                 (forall q, ready st q -> ready (replay st writes) q)).
    { induction tg as [| [quad_id field] rest IH]; intros st stop Hready.
      - exists stop, []. split; [reflexivity |]. split; [reflexivity | auto].
      - assert (Hq : ready st quad_id) by (apply (Hready quad_id field); now left).
        destruct Hq as [[lv Hl] [ca Hb]].
        pose proof (get_field_book toFieldFromCA st quad_id lv ca Hl Hb) as Hbook.
        cbn [Optics.ramp_pass_writes Optics.ramp_pass].
        rewrite Hbook. cbn [bind]. cbv zeta.
        set (book := toFieldFromCA quad_id ca) in *.
        destruct (Rltb (mfc * Rabs book) (Rabs (field - book))).
        + set (new_field := if Rleb 0 (field - book) then _ else _).
          assert (Hr : ready st quad_id) by (split; eauto).
          destruct (set_book_and_live_writes st quad_id new_field Hr) as [Hw1 Hw2].
          rewrite Hw1. cbn [bind fst snd]. rewrite Hw2. cbn [bind fst snd].
          pose proof (set_book_and_live toCAFromField st quad_id new_field Hr) as Hset.
          destruct (set_field toCAFromField st quad_id new_field "book") as [st1 | e];
            cbn [bind] in Hset |- *; [| discriminate Hset].
          rewrite Hset. cbn [bind].
          destruct (IH (stepped' st quad_id new_field) false)
            as (stop' & writes & Hrun & Hplain & Hkeep).
          { intros q f Hin. apply ready_stepped. apply (Hready q f). now right. }
          rewrite Hrun, Hplain. cbn [bind fst snd].
          exists stop',
            ([putVal quad_id (toCAFromField quad_id new_field);
              setField quad_id new_field] ++ writes).
          rewrite replay_app.
          change (replay st [putVal quad_id (toCAFromField quad_id new_field);
                             setField quad_id new_field])
            with (stepped' st quad_id new_field).
          split; [reflexivity |]. split; [reflexivity |].
          intros q Hq. apply Hkeep. now apply ready_stepped.
        + apply IH. intros q f Hin. apply (Hready q f). now right. }
    induction remaining as [| remaining IH]; intros stop st Hready.
    + exists []. destruct stop; (split; [reflexivity |]; split; [reflexivity |];
        split; [auto | intros Hm'; contradiction]).
    + destruct stop.
      * exists []. split; [reflexivity |]. split; [reflexivity |].
        split; [auto | intros Hm'; contradiction].
      * cbn [Optics.ramp_loop_writes Optics.ramp_loop].
        destruct (Hpass targets st true Hready) as (stop' & w1 & Hrun & Hplain & Hkeep).
        rewrite Hrun, Hplain. cbn [bind fst snd].
        destruct (IH stop' (replay st w1)) as (w2 & Hrun2 & Hplain2 & Hkeep2 & _).
        { intros q f Hin. apply Hkeep. now apply (Hready q f). }
        rewrite Hrun2, Hplain2. cbn [bind fst snd].
        exists (w1 ++ w2). rewrite replay_app.
        split; [reflexivity |]. split; [reflexivity |]. split.
        -- intros q Hq. now apply Hkeep2, Hkeep.
        -- intros Hm'. contradiction.
Qed.

Lemma set_targets_writes_ok (targets : list (string * R)) :
  forall st,
    (forall q f, In (q, f) targets -> ready st q) ->
    set_targets_writes' st targets
    = Ok (replay st (target_writes toCAFromField targets),
          target_writes toCAFromField targets) /\
    set_targets toCAFromField st targets
    = Ok (replay st (target_writes toCAFromField targets)).
Proof.
  induction targets as [| [quad_id field] rest IH]; intros st Hready.
  - split; reflexivity.
  - assert (Hr : ready st quad_id) by (apply (Hready quad_id field); now left).
    cbn [Optics.set_targets_writes Optics.set_targets].
    destruct (set_book_and_live_writes st quad_id field Hr) as [Hw1 Hw2].
    rewrite Hw1. cbn [bind fst snd]. rewrite Hw2. cbn [bind fst snd].
    pose proof (set_book_and_live toCAFromField st quad_id field Hr) as Hset.
    destruct (set_field toCAFromField st quad_id field "book") as [st1 | e];
      cbn [bind] in Hset |- *; [| discriminate Hset].
    rewrite Hset. cbn [bind].
    destruct (IH (stepped' st quad_id field)) as [Hrun Hplain].
    { intros q f Hin. apply ready_stepped. apply (Hready q f). now right. }
    rewrite Hrun, Hplain. cbn [bind fst snd].
    split; reflexivity.
Qed.

End WriteProperties.

(** C4.  With calibrations that are inverse to each other.  From a book
    value of 100 and a target of 110 with [max_frac_change = 0.01] and at
    least one iteration allowed, the first values that [set_fields] sends
    to the magnet in ['live'] mode are the book value 101 and the field
    101, and the book value reads 101 after them.  For every state, list of
    distinct magnets, targets and iteration cap, the writes of [set_fields]
    are those of the ramp loop followed by each magnet's target, sent to
    its book channel and to the magnet; the ramp's writes are those of the
    loop of [set_fields], every value it sends to a book channel is within
    [max_frac_change] of the book value at that moment, and [set_fields]
    ends with the book and the live value of every listed magnet at its
    target. *)
Theorem set_fields_live_ramp
    (toCAFromField toFieldFromCA : string -> R -> R) :
  (forall q f, toFieldFromCA q (toCAFromField q f) = f) ->
  (forall (st : PhaseController) (quad_id : string) (live val : R) (max_iters : Z),
      live_fields st !! quad_id = Some live ->
      book_channels st !! quad_id = Some val ->
      toFieldFromCA quad_id val = 100 ->
      (1 <= max_iters)%Z ->
      exists st' later,
        set_fields_writes toCAFromField toFieldFromCA st [quad_id] [110] "live"
          (1 / 100) max_iters
        = Ok (st', putVal quad_id (toCAFromField quad_id 101)
                   :: setField quad_id 101 :: later) /\
        get_field toFieldFromCA
          (replay st [putVal quad_id (toCAFromField quad_id 101);
                      setField quad_id 101])
          quad_id "book" = Ok 101) /\
  (forall (st : PhaseController) (quad_ids : list string) (fields : list R)
          (max_frac_change : R) (max_iters : Z),
      NoDup quad_ids -> length quad_ids = length fields ->
      (forall q, In q quad_ids -> ready st q) ->
      exists st' ramp,
        set_fields_writes toCAFromField toFieldFromCA st quad_ids fields "live"
          max_frac_change max_iters
        = Ok (st', ramp ++ target_writes toCAFromField (combine quad_ids fields)) /\
        set_fields toCAFromField toFieldFromCA st quad_ids fields "live"
          max_frac_change max_iters = Ok st' /\
        st' = replay st (ramp ++ target_writes toCAFromField (combine quad_ids fields)) /\
        ramp_loop toCAFromField toFieldFromCA (Z.to_nat max_iters) false st
          (combine quad_ids fields) max_frac_change = Ok (replay st ramp) /\
        (0 <= max_frac_change ->
         forall before q val after,
           ramp = before ++ putVal q val :: after ->
           exists book new_field,
             get_field toFieldFromCA (replay st before) q "book" = Ok book /\
             val = toCAFromField q new_field /\
             Rabs (new_field - book) <= max_frac_change * Rabs book) /\
        (forall q f, In (q, f) (combine quad_ids fields) ->
           get_field toFieldFromCA st' q "book" = Ok f /\
           get_field toFieldFromCA st' q "live" = Ok f /\
           book_channels st' !! q = Some (toCAFromField q f))).
Proof.
  intros Hinv. split.
  - intros st quad_id live val max_iters Hl Hb H100 Hiters.
    assert (Hr : ready st quad_id) by (split; eauto).
    destruct (Z.to_nat max_iters) as [| remaining] eqn:Hn; [lia |].
    unfold set_fields_writes. cbn [String.eqb Ascii.eqb Bool.eqb]. rewrite Hn.
    cbn [combine Optics.ramp_loop_writes Optics.ramp_pass_writes].
    rewrite (get_field_book toFieldFromCA st quad_id live val Hl Hb), H100.
    cbn [bind]. cbv zeta.
    rewrite Rabs_right by lra. rewrite Rabs_right by lra.
    rewrite Rltb_true by lra. rewrite Rleb_true by lra.
    replace (100 + 1 / 100 * 100) with 101 by lra.
    destruct (set_book_and_live_writes toCAFromField st quad_id 101 Hr) as [Hw1 Hw2].
    rewrite Hw1. cbn [bind fst snd]. rewrite Hw2. cbn [bind fst snd].
    destruct (ramp_loop_writes_run toCAFromField toFieldFromCA [(quad_id, 110)]
                (1 / 100) remaining false (stepped toCAFromField st quad_id 101))
      as (w2 & Hrun2 & _ & Hkeep2 & _).
    { intros q f [Heq | []]. inversion Heq; subst. now apply ready_stepped. }
    rewrite Hrun2. cbn [bind fst snd].
    destruct (set_targets_writes_ok toCAFromField [(quad_id, 110)]
                (replay (stepped toCAFromField st quad_id 101) w2)) as [Hrun3 _].
    { intros q f [Heq | []]. inversion Heq; subst.
      apply Hkeep2. now apply ready_stepped. }
    rewrite Hrun3. cbn [bind fst snd app].
    eexists _, _. split; [reflexivity |].
    destruct (stepped_lookup toCAFromField st quad_id 101) as [Hb1 Hl1].
    change (replay st [putVal quad_id (toCAFromField quad_id 101); setField quad_id 101])
      with (stepped toCAFromField st quad_id 101).
    rewrite (get_field_book toFieldFromCA _ quad_id 101 _ Hl1 Hb1).
    now rewrite Hinv.
  - intros st quad_ids fields mfc max_iters Hnodup Hlen Hready.
    pose proof (map_fst_combine quad_ids fields Hlen) as Hkeys.
    assert (Hready' : forall q f, In (q, f) (combine quad_ids fields) -> ready st q).
    { intros q f Hin. apply Hready. rewrite <- Hkeys.
      apply (in_map fst) in Hin. exact Hin. }
    unfold set_fields_writes, Optics.set_fields.
    cbn [String.eqb Ascii.eqb Bool.eqb].
    destruct (ramp_loop_writes_run toCAFromField toFieldFromCA (combine quad_ids fields)
                mfc (Z.to_nat max_iters) false st Hready')
      as (ramp & Hrun & Hplain & Hkeep & Hbound).
    rewrite Hrun, Hplain. cbn [bind fst snd].
    assert (Hready1 : forall q f, In (q, f) (combine quad_ids fields) ->
                        ready (replay st ramp) q).
    { intros q f Hqf. apply Hkeep. now apply (Hready' q f). }
    destruct (set_targets_writes_ok toCAFromField (combine quad_ids fields)
                (replay st ramp) Hready1) as [Hrun3 Hplain3].
    rewrite Hrun3, Hplain3. cbn [bind fst snd].
    destruct (set_targets_ok toCAFromField (combine quad_ids fields) (replay st ramp))
      as (st' & Hset & Hin & _).
    { now rewrite Hkeys. }
    { exact Hready1. }
    rewrite Hplain3 in Hset. injection Hset as Hst'.
    exists (replay (replay st ramp) (target_writes toCAFromField (combine quad_ids fields))),
      ramp.
    split; [reflexivity |]. split; [reflexivity |].
    split; [now rewrite replay_app |]. split; [reflexivity |].
    split; [exact Hbound |].
    rewrite Hst'. intros q f Hqf. destruct (Hin q f Hqf) as [Hb Hl].
    split; [| split].
    + rewrite (get_field_book toFieldFromCA st' q f _ Hl Hb). now rewrite Hinv.
    + now apply get_field_live.
    + exact Hb.
Qed.

Lemma set_fields_live_ramp_witness :
  let id := fun (_ : string) (x : R) => x in
  let st := {| live_fields := {["RTBT_Mag:QH02"%string := 100]};
               model_fields := {["RTBT_Mag:QH02"%string := [100]]};
               book_channels := {["RTBT_Mag:QH02"%string := 100]};
               shared_power := empty |} in
  (exists st' later,
     set_fields_writes id id st ["RTBT_Mag:QH02"%string] [110] "live" (1 / 100) 100
     = Ok (st', putVal "RTBT_Mag:QH02" 101 :: setField "RTBT_Mag:QH02" 101 :: later) /\
     get_field id
       (replay st [putVal "RTBT_Mag:QH02" 101; setField "RTBT_Mag:QH02" 101])
       "RTBT_Mag:QH02" "book" = Ok 101) /\
  (exists st' ramp,
     set_fields_writes id id st ["RTBT_Mag:QH02"%string] [110] "live" (1 / 100) 100
     = Ok (st', ramp ++ target_writes id (combine ["RTBT_Mag:QH02"%string] [110])) /\
     set_fields id id st ["RTBT_Mag:QH02"%string] [110] "live" (1 / 100) 100 = Ok st' /\
     st' = replay st (ramp ++ target_writes id (combine ["RTBT_Mag:QH02"%string] [110])) /\
     ramp_loop id id (Z.to_nat 100) false st (combine ["RTBT_Mag:QH02"%string] [110])
       (1 / 100) = Ok (replay st ramp) /\
     (0 <= 1 / 100 ->
      forall before q val after,
        ramp = before ++ putVal q val :: after ->
        exists book new_field,
          get_field id (replay st before) q "book" = Ok book /\
          val = id q new_field /\
          Rabs (new_field - book) <= 1 / 100 * Rabs book) /\
     (forall q f, In (q, f) (combine ["RTBT_Mag:QH02"%string] [110]) ->
        get_field id st' q "book" = Ok f /\
        get_field id st' q "live" = Ok f /\
        book_channels st' !! q = Some (id q f))).
Proof.
  intros id st.
  destruct (set_fields_live_ramp id id (fun q f => eq_refl)) as [Hfirst Hall].
  split.
  - apply (Hfirst st "RTBT_Mag:QH02"%string 100 100 100%Z); try reflexivity. lia.
  - apply Hall.
    + apply NoDup_singleton.
    + reflexivity.
    + intros q [<- | []]. split; exists 100; reflexivity.
Defined.

(** ** Angles in [[0, 2 pi)] *)

Lemma PI_bounds : 3 < PI <= 4.
Proof. pose proof PI2_3_2. pose proof PI_4. lra. Qed.

Lemma put_angle_in_range_turns (angle y : R) (k : Z) :
  y = angle - IZR k * (2 * PI) -> 0 <= y < 2 * PI ->
  put_angle_in_range angle = y.
Proof.
  intros Hy [Hlo Hhi]. unfold put_angle_in_range.
  pose proof PI_bounds as HPI.
  replace (Int_part (angle / (2 * PI))) with k; [now symmetry |].
  apply Int_part_spec.
  assert (Hdiv : angle / (2 * PI) = IZR k + y / (2 * PI)).
  { subst y. field. lra. }
  rewrite Hdiv.
  assert (0 <= y / (2 * PI) < 1).
  { split.
    - apply Rmult_le_pos; [lra |]. left. apply Rinv_0_lt_compat. lra.
    - apply (Rmult_lt_reg_r (2 * PI)); [lra |].
      unfold Rdiv. rewrite Rmult_assoc, Rinv_l by lra. lra. }
  lra.
Qed.

Lemma put_angle_in_range_id (angle : R) :
  0 <= angle < 2 * PI -> put_angle_in_range angle = angle.
Proof.
  intros H. apply (put_angle_in_range_turns angle angle 0); [lra | exact H].
Qed.

(** [put_angle_in_range] does what the spec asks of it. *)
Lemma put_angle_in_range_bounds (angle : R) :
  0 <= put_angle_in_range angle < 2 * PI.
Proof.
  unfold put_angle_in_range. pose proof PI_bounds as HPI.
  destruct (base_Int_part (angle / (2 * PI))) as [Hlo Hhi].
  set (k := IZR (Int_part (angle / (2 * PI)))) in *.
  assert (Hangle : angle = angle / (2 * PI) * (2 * PI)) by (field; lra).
  split.
  - assert (k * (2 * PI) <= angle / (2 * PI) * (2 * PI))
      by (apply Rmult_le_compat_r; lra).
    lra.
  - assert (angle / (2 * PI) * (2 * PI) < (k + 1) * (2 * PI))
      by (apply Rmult_lt_compat_r; lra).
    lra.
Qed.

(** ** The linear phase range *)

Lemma extend_phases_run (k : nat) (step : R) : forall (l : list R) (mu : R),
  extend_phases k step (l ++ [mu]) = l ++ phase_run k step mu.
Proof.
  induction k as [| k IH]; intros l mu; cbn [extend_phases phase_run].
  - reflexivity.
  - rewrite last_last, IH, <- app_assoc. reflexivity.
Qed.

Lemma phase_run_length (k : nat) (step : R) : forall mu,
  length (phase_run k step mu) = S k.
Proof. induction k as [| k IH]; intros mu; cbn [phase_run length]; auto. Qed.

Lemma phase_run_first (k : nat) (step mu : R) : nth 0 (phase_run k step mu) 0 = mu.
Proof. destruct k; reflexivity. Qed.

(** Each phase follows from the one before. *)
Lemma phase_run_next (k : nat) (step : R) : forall (mu : R) (i : nat),
  (i < k)%nat ->
  nth (S i) (phase_run k step mu) 0
  = put_angle_in_range (nth i (phase_run k step mu) 0 + step).
Proof.
  induction k as [| k IH]; intros mu i Hi; [lia |].
  cbn [phase_run]. destruct i as [| i].
  - cbn [nth]. now rewrite phase_run_first.
  - change (nth (S (S i)) (mu :: ?l) 0) with (nth (S i) l 0).
    change (nth (S i) (mu :: ?l) 0) with (nth i l 0).
    apply IH. lia.
Qed.

(** Without a wrap the phases are evenly spaced. *)
Lemma phase_run_linear (k : nat) (step : R) : forall (mu : R) (i : nat),
  0 <= step -> 0 <= mu -> mu + INR k * step < 2 * PI -> (i <= k)%nat ->
  nth i (phase_run k step mu) 0 = mu + INR i * step.
Proof.
  induction k as [| k IH]; intros mu i Hstep Hmu Hmax Hi.
  - replace i with 0%nat by lia. cbn [phase_run nth INR]. lra.
  - rewrite S_INR in Hmax. cbn [phase_run].
    destruct i as [| i]; [cbn [nth INR]; lra |].
    cbn [nth].
    assert (Hk : 0 <= INR k * step) by (apply Rmult_le_pos; [apply pos_INR | lra]).
    rewrite put_angle_in_range_id by lra.
    rewrite IH by (try lra; lia).
    rewrite S_INR. lra.
Qed.

Lemma reduced_difference (d : R) :
  (if Rltb PI d then 2 * PI - d else d) = Rmin d (2 * PI - d).
Proof.
  unfold Rltb. destruct (Rlt_dec PI d).
  - rewrite Rmin_right by lra. reflexivity.
  - rewrite Rmin_left by lra. reflexivity.
Qed.

Lemma lin_phase_range_run (mu_min mu_max : R) (n_steps : Z) :
  (2 <= n_steps)%Z ->
  lin_phase_range mu_min mu_max n_steps true
  = Ok (phase_run (Z.to_nat (n_steps - 1))
          (Rmin (Rabs (mu_max - mu_min)) (2 * PI - Rabs (mu_max - mu_min))
           / IZR (n_steps - 1))
          mu_min).
Proof.
  intros Hn. unfold lin_phase_range.
  rewrite reduced_difference.
  rewrite py_div_ok by (apply not_0_IZR; lia). cbn [bind].
  f_equal. apply (extend_phases_run _ _ [] mu_min).
Qed.

Lemma Rabs_value (x y : R) : 0 <= y -> x = y \/ x = - y -> Rabs x = y.
Proof. intros Hy Hx. unfold Rabs. destruct (Rcase_abs x); lra. Qed.

(** C2, as stated, fails for [mu_min = 6], [mu_max = 1] and [n = 2]: the
    range is [[6; 1]], a change of [5] and not of [2 pi - 5]. *)
Lemma lin_phase_range_counterexample :
  lin_phase_range 6 1 2 true = Ok [6; 1] /\
  Rabs (1 - 6) <> Rmin (Rabs (1 - 6)) (2 * PI - Rabs (1 - 6)) / (2 - 1).
Proof.
  pose proof PI_bounds as HPI.
  assert (Habs : Rabs (1 - 6) = 5) by (apply Rabs_value; lra).
  split.
  - rewrite lin_phase_range_run by lia.
    change (Z.to_nat (2 - 1)) with 1%nat. change (2 - 1)%Z with 1%Z.
    cbn [phase_run]. rewrite Habs, Rmin_right by lra.
    rewrite (put_angle_in_range_turns _ 1 1) by lra.
    reflexivity.
  - rewrite Habs, Rmin_right by lra. lra.
Qed.

(** The first phase is [mu_min] as it was given, also outside
    [[0, 2 pi)]. *)
Example lin_phase_range_first_not_wrapped :
  lin_phase_range 8 9 2 true = Ok [8; 9 - 2 * PI] /\
  put_angle_in_range 8 = 8 - 2 * PI.
Proof.
  pose proof PI_bounds as HPI.
  split.
  - rewrite lin_phase_range_run by lia.
    change (Z.to_nat (2 - 1)) with 1%nat. change (2 - 1)%Z with 1%Z.
    cbn [phase_run]. rewrite (Rabs_value (9 - 8) 1) by lra.
    rewrite Rmin_left by lra.
    rewrite (put_angle_in_range_turns _ (9 - 2 * PI) 1) by lra.
    reflexivity.
  - apply (put_angle_in_range_turns 8 (8 - 2 * PI) 1); lra.
Qed.

(** C2, amended.  For [n >= 2] the range has [n] elements, the first is
    [mu_min] as it was given, and every later element is the one before
    plus the step [min(|d|, 2 pi - |d|) / (n - 1)], wrapped into
    [[0, 2 pi)]; two consecutive elements differ by the step exactly when
    no wrap takes place. *)
Theorem lin_phase_range_steps (mu_min mu_max : R) (n : Z) :
  (2 <= n)%Z ->
  let step := Rmin (Rabs (mu_max - mu_min)) (2 * PI - Rabs (mu_max - mu_min))
              / (IZR n - 1) in
  exists phases,
    lin_phase_range mu_min mu_max n true = Ok phases /\
    length phases = Z.to_nat n /\
    nth 0 phases 0 = mu_min /\
    forall i, (S i < Z.to_nat n)%nat ->
      nth (S i) phases 0 = put_angle_in_range (nth i phases 0 + step) /\
      0 <= nth (S i) phases 0 < 2 * PI /\
      (0 <= nth i phases 0 + step < 2 * PI ->
       nth (S i) phases 0 - nth i phases 0 = step).
Proof.
  intros Hn step. eexists. split; [now apply lin_phase_range_run |].
  rewrite minus_IZR. fold step.
  split; [rewrite phase_run_length; lia |].
  split; [apply phase_run_first |].
  intros i Hi.
  assert (Hnext := phase_run_next (Z.to_nat (n - 1)) step mu_min i ltac:(lia)).
  rewrite Hnext. split; [reflexivity |].
  split; [apply put_angle_in_range_bounds |].
  intros Hin. rewrite put_angle_in_range_id by exact Hin. lra.
Qed.

Lemma lin_phase_range_steps_witness :
  let step := Rmin (Rabs (2 - 1)) (2 * PI - Rabs (2 - 1)) / (IZR 3 - 1) in
  exists phases,
    lin_phase_range 1 2 3 true = Ok phases /\
    length phases = Z.to_nat 3 /\
    nth 0 phases 0 = 1 /\
    forall i, (S i < Z.to_nat 3)%nat ->
      nth (S i) phases 0 = put_angle_in_range (nth i phases 0 + step) /\
      0 <= nth (S i) phases 0 < 2 * PI /\
      (0 <= nth i phases 0 + step < 2 * PI ->
       nth (S i) phases 0 - nth i phases 0 = step).
Proof.
  apply (lin_phase_range_steps 1 2 3). lia.
Defined.

(** ** Phases for a scan *)

Lemma lin_phase_range_across_zero :
  lin_phase_range (3 * PI / 2) (PI / 2) 6 true
  = Ok [3 * PI / 2; 17 * PI / 10; 19 * PI / 10; PI / 10; 3 * PI / 10; PI / 2].
Proof.
  pose proof PI_bounds as HPI.
  rewrite lin_phase_range_run by lia.
  change (Z.to_nat (6 - 1)) with 5%nat. change (6 - 1)%Z with 5%Z.
  rewrite (Rabs_value (PI / 2 - 3 * PI / 2) PI) by lra.
  rewrite Rmin_left by lra.
  cbn [phase_run].
  rewrite (put_angle_in_range_turns (3 * PI / 2 + PI / 5) (17 * PI / 10) 0) by lra.
  rewrite (put_angle_in_range_turns (17 * PI / 10 + PI / 5) (19 * PI / 10) 0) by lra.
  rewrite (put_angle_in_range_turns (19 * PI / 10 + PI / 5) (PI / 10) 1) by lra.
  rewrite (put_angle_in_range_turns (PI / 10 + PI / 5) (3 * PI / 10) 0) by lra.
  rewrite (put_angle_in_range_turns (3 * PI / 10 + PI / 5) (PI / 2) 0) by lra.
  reflexivity.
Qed.

(** A window that crosses zero: for default phases [(0, 0)], a coverage
    of 180 degrees and 6 steps the x phases run from [3 pi / 2] through a
    full turn to [pi / 2].  Each is the one before plus [pi / 5] modulo a
    turn; read as plain numbers they are not monotone. *)
Example get_phases_for_scan_across_zero :
  let phases_x := [3 * PI / 2; 17 * PI / 10; 19 * PI / 10;
                   PI / 10; 3 * PI / 10; PI / 2] in
  get_phases_for_scan 0 0 180 6 1 = Ok (combine phases_x (rev phases_x)) /\
  ~ (forall i j, (i <= j < 6)%nat -> nth i phases_x 0 <= nth j phases_x 0) /\
  ~ (forall i j, (i <= j < 6)%nat -> nth j phases_x 0 <= nth i phases_x 0).
Proof.
  intros phases_x. pose proof PI_bounds as HPI.
  split; [| split].
  - unfold get_phases_for_scan, radians.
    change (1 =? 1)%Z with true. cbv iota.
    rewrite (put_angle_in_range_turns (0 - 1 / 2 * (180 * PI / 180)) (3 * PI / 2) (-1)) by lra.
    rewrite (put_angle_in_range_turns (0 + 1 / 2 * (180 * PI / 180)) (PI / 2) 0) by lra.
    rewrite lin_phase_range_across_zero. reflexivity.
  - intros H. specialize (H 2%nat 3%nat ltac:(lia)). cbn [nth phases_x] in H. lra.
  - intros H. specialize (H 0%nat 1%nat ltac:(lia)). cbn [nth phases_x] in H. lra.
Qed.

(** C3, as stated, fails for a coverage above 180 degrees, where the
    sweep takes the short way round and does not cross the window: for
    default phases [(pi, pi)], a coverage of 270 degrees and 6 steps the
    window around [mux0 = pi] runs from [pi / 4] to [7 pi / 4], but every x
    phase lies in [[pi / 4, 3 pi / 4]], below the default phase, and the
    last one is [3 pi / 4], a quarter turn in all instead of three. *)
Lemma get_phases_for_scan_counterexample :
  let phases_x := [PI / 4; 7 * PI / 20; 9 * PI / 20;
                   11 * PI / 20; 13 * PI / 20; 3 * PI / 4] in
  get_phases_for_scan PI PI 270 6 1 = Ok (combine phases_x (rev phases_x)) /\
  Forall (fun mux => mux < PI) phases_x /\
  put_angle_in_range (PI - radians 270 / 2) = nth 0 phases_x 0 /\
  put_angle_in_range (PI + radians 270 / 2) = 7 * PI / 4 /\
  nth 5 phases_x 0 <> put_angle_in_range (PI + radians 270 / 2).
Proof.
  intros phases_x. pose proof PI_bounds as HPI.
  assert (Hlo : put_angle_in_range (PI - radians 270 / 2) = PI / 4)
    by (unfold radians; apply (put_angle_in_range_turns _ _ 0); lra).
  assert (Hhi : put_angle_in_range (PI + radians 270 / 2) = 7 * PI / 4)
    by (unfold radians; apply (put_angle_in_range_turns _ _ 0); lra).
  assert (Hrange : lin_phase_range (PI / 4) (7 * PI / 4) 6 true = Ok phases_x).
  { rewrite lin_phase_range_run by lia.
    change (Z.to_nat (6 - 1)) with 5%nat. change (6 - 1)%Z with 5%Z.
    rewrite (Rabs_value (7 * PI / 4 - PI / 4) (3 * PI / 2)) by lra.
    rewrite Rmin_right by lra.
    cbn [phase_run].
    rewrite (put_angle_in_range_turns _ (7 * PI / 20) 0) by lra.
    rewrite (put_angle_in_range_turns _ (9 * PI / 20) 0) by lra.
    rewrite (put_angle_in_range_turns _ (11 * PI / 20) 0) by lra.
    rewrite (put_angle_in_range_turns _ (13 * PI / 20) 0) by lra.
    rewrite (put_angle_in_range_turns _ (3 * PI / 4) 0) by lra.
    reflexivity. }
  split.
  - unfold get_phases_for_scan, radians.
    change (1 =? 1)%Z with true. cbv iota.
    rewrite (put_angle_in_range_turns (PI - 1 / 2 * (270 * PI / 180)) (PI / 4) 0) by lra.
    rewrite (put_angle_in_range_turns (PI + 1 / 2 * (270 * PI / 180)) (7 * PI / 4) 0) by lra.
    rewrite Hrange. reflexivity.
  - split; [unfold phases_x; repeat constructor; lra |].
    split; [exact Hlo |]. split; [exact Hhi |].
    rewrite Hhi. cbn [nth phases_x]. lra.
Qed.

(** A window that does not cross zero is swept in even steps. *)
Lemma lin_phase_range_window (lo r : R) (n : Z) :
  (2 <= n)%Z -> 0 <= r <= PI -> 0 <= lo -> lo + r < 2 * PI ->
  exists phases,
    lin_phase_range lo (lo + r) n true = Ok phases /\
    length phases = Z.to_nat n /\
    forall k, (k < Z.to_nat n)%nat ->
      nth k phases 0 = lo + INR k * (r / (IZR n - 1)).
Proof.
  intros Hn Hr Hlo Hhi. pose proof PI_bounds as HPI.
  eexists. split; [now apply lin_phase_range_run |].
  split; [rewrite phase_run_length; lia |].
  intros k Hk.
  rewrite (Rabs_value (lo + r - lo) r) by lra.
  rewrite Rmin_left by lra. rewrite minus_IZR.
  assert (Hm : INR (Z.to_nat (n - 1)) = IZR n - 1).
  { rewrite INR_IZR_INZ, Z2Nat.id by lia. apply minus_IZR. }
  assert (Hpos : 0 < IZR n - 1).
  { rewrite <- minus_IZR. apply IZR_lt. lia. }
  apply phase_run_linear.
  - apply Rmult_le_pos; [lra |]. left. now apply Rinv_0_lt_compat.
  - exact Hlo.
  - rewrite Hm. replace ((IZR n - 1) * (r / (IZR n - 1))) with r by (field; lra).
    exact Hhi.
  - lia.
Qed.

(** The phases of a scan of type 1 whose windows do not cross zero. *)
Lemma get_phases_for_scan_closed_form (mux0 muy0 phase_coverage : R) (n : Z) :
  (2 <= n)%Z -> 0 <= phase_coverage <= 180 ->
  let half := radians phase_coverage / 2 in
  let step := radians phase_coverage / (IZR n - 1) in
  0 <= mux0 - half -> mux0 + half < 2 * PI ->
  0 <= muy0 - half -> muy0 + half < 2 * PI ->
  exists phases,
    get_phases_for_scan mux0 muy0 phase_coverage n 1 = Ok phases /\
    length phases = Z.to_nat n /\
    forall k, (k < Z.to_nat n)%nat ->
      nth k phases (0, 0)
      = (mux0 - half + INR k * step, muy0 + half - INR k * step).
Proof.
  intros Hn Hc half step Hx0 Hx1 Hy0 Hy1. pose proof PI_bounds as HPI.
  assert (Hr : 0 <= radians phase_coverage <= PI) by (unfold radians; nra).
  unfold get_phases_for_scan. change (1 =? 1)%Z with true. cbv iota.
  subst half step. set (r := radians phase_coverage) in *. clearbody r.
  rewrite (put_angle_in_range_id (mux0 - 1 / 2 * r)) by lra.
  rewrite (put_angle_in_range_id (mux0 + 1 / 2 * r)) by lra.
  rewrite (put_angle_in_range_id (muy0 - 1 / 2 * r)) by lra.
  rewrite (put_angle_in_range_id (muy0 + 1 / 2 * r)) by lra.
  destruct (lin_phase_range_window (mux0 - 1 / 2 * r) r n Hn Hr)
    as (xs & Hxs & Hlenx & Hnthx); try lra.
  destruct (lin_phase_range_window (muy0 - 1 / 2 * r) r n Hn Hr)
    as (ys & Hys & Hleny & Hnthy); try lra.
  replace (mux0 - 1 / 2 * r + r) with (mux0 + 1 / 2 * r) in Hxs by lra.
  replace (muy0 - 1 / 2 * r + r) with (muy0 + 1 / 2 * r) in Hys by lra.
  rewrite Hxs, Hys. cbn [bind].
  eexists. split; [reflexivity |].
  split.
  { rewrite length_combine, length_rev, Hlenx, Hleny. lia. }
  intros k Hk.
  rewrite combine_nth by (rewrite length_rev; lia).
  rewrite rev_nth by lia.
  rewrite Hnthx by exact Hk. rewrite Hnthy by lia.
  assert (Hpos : 0 < IZR n - 1).
  { rewrite <- minus_IZR. apply IZR_lt. lia. }
  assert (Hidx : INR (length ys - S k) = IZR n - 1 - INR k).
  { rewrite Hleny. rewrite minus_INR by lia.
    rewrite S_INR, INR_IZR_INZ, Z2Nat.id by lia. lra. }
  rewrite Hidx. f_equal; field; lra.
Qed.

(** Windows that do not wrap.  For a coverage of at most 180 degrees
    and windows around the default phases that stay inside [[0, 2 pi)], a
    scan of type 1 returns [n] pairs: the x phases step up evenly from
    [mux0 - c/2] to [mux0 + c/2], the y phases step down evenly from
    [muy0 + c/2] to [muy0 - c/2], and the y phases taken from [muy0] are
    the x phases taken from [mux0] in reverse order. *)
Lemma get_phases_for_scan_linear (mux0 muy0 phase_coverage : R) (n : Z) :
  (2 <= n)%Z -> 0 <= phase_coverage <= 180 ->
  let half := radians phase_coverage / 2 in
  let step := radians phase_coverage / (IZR n - 1) in
  0 <= mux0 - half -> mux0 + half < 2 * PI ->
  0 <= muy0 - half -> muy0 + half < 2 * PI ->
  exists phases,
    get_phases_for_scan mux0 muy0 phase_coverage n 1 = Ok phases /\
    length phases = Z.to_nat n /\
    forall k, (k < Z.to_nat n)%nat ->
      nth k phases (0, 0)
      = (mux0 - half + INR k * step, muy0 + half - INR k * step) /\
      snd (nth k phases (0, 0)) - muy0
      = fst (nth (Z.to_nat n - S k) phases (0, 0)) - mux0 /\
      ((S k < Z.to_nat n)%nat ->
       fst (nth k phases (0, 0)) <= fst (nth (S k) phases (0, 0)) /\
       snd (nth (S k) phases (0, 0)) <= snd (nth k phases (0, 0))).
Proof.
  intros Hn Hc half step Hx0 Hx1 Hy0 Hy1.
  destruct (get_phases_for_scan_closed_form mux0 muy0 phase_coverage n
              Hn Hc Hx0 Hx1 Hy0 Hy1) as (phases & Hrun & Hlen & Hnth).
  fold half step in Hnth.
  exists phases. split; [exact Hrun |]. split; [exact Hlen |].
  assert (Hpos : 0 < IZR n - 1).
  { rewrite <- minus_IZR. apply IZR_lt. lia. }
  assert (Hstep : 0 <= step).
  { unfold step, radians. apply Rmult_le_pos.
    - pose proof PI_bounds. nra.
    - left. now apply Rinv_0_lt_compat. }
  assert (Hfull : (IZR n - 1) * step = 2 * half).
  { unfold step, half. field. lra. }
  intros k Hk. split; [now apply Hnth |]. split.
  - rewrite (Hnth k Hk), (Hnth (Z.to_nat n - S k)%nat) by lia. cbn [fst snd].
    assert (Hidx : INR (Z.to_nat n - S k) = IZR n - 1 - INR k).
    { rewrite minus_INR by lia.
      rewrite S_INR, INR_IZR_INZ, Z2Nat.id by lia. lra. }
    rewrite Hidx. nra.
  - intros Hk'. rewrite (Hnth k Hk), (Hnth (S k) Hk'). cbn [fst snd].
    rewrite S_INR. nra.
Qed.

Example get_phases_for_scan_linear_example :
  let half := radians 90 / 2 in
  let step := radians 90 / (IZR 6 - 1) in
  exists phases,
    get_phases_for_scan 2 3 90 6 1 = Ok phases /\
    length phases = Z.to_nat 6 /\
    forall k, (k < Z.to_nat 6)%nat ->
      nth k phases (0, 0) = (2 - half + INR k * step, 3 + half - INR k * step) /\
      snd (nth k phases (0, 0)) - 3
      = fst (nth (Z.to_nat 6 - S k) phases (0, 0)) - 2 /\
      ((S k < Z.to_nat 6)%nat ->
       fst (nth k phases (0, 0)) <= fst (nth (S k) phases (0, 0)) /\
       snd (nth (S k) phases (0, 0)) <= snd (nth k phases (0, 0))).
Proof.
  pose proof PI_bounds as HPI.
  apply (get_phases_for_scan_linear 2 3 90 6); unfold radians; try lia; lra.
Defined.

(** ** The method [BeamStats.rms_ellipse_dims] *)

Lemma self_is_not_global : existsb (String.eqb "self") module_globals = false.
Proof. reflexivity. Qed.

(** C10.  Every call of [rms_ellipse_dims] on an instance of [BeamStats]
    raises: with two arguments the instance is a third one and the call is
    refused; with one argument the body runs and finds no [self]. *)
Theorem BeamStats_rms_ellipse_dims_fails (stats : BeamStats) :
  (forall args : list value,
      exists e, BeamStats_rms_ellipse_dims stats args = Err e) /\
  (forall dim1 dim2 : value,
      BeamStats_rms_ellipse_dims stats [dim1; dim2]
      = Err (TypeError "wrong number of arguments")) /\
  (forall dim : value,
      BeamStats_rms_ellipse_dims stats [dim] = Err (NameError "self")).
Proof.
  assert (Hone : forall dim : value,
             BeamStats_rms_ellipse_dims stats [dim] = Err (NameError "self"))
    by reflexivity.
  split; [| split; [reflexivity | exact Hone]].
  intros args. destruct args as [| dim [| dim2 args]].
  - eexists. reflexivity.
  - eexists. apply Hone.
  - eexists. reflexivity.
Qed.

(* ================================================================= *)
(** * Further properties *)

(** ** The cross moment from the diagonal wire *)

(** X1.  [get_sig_xy] undoes the projection onto the diagonal wire: from
    the variance [sig_xx cos^2 + sig_yy sin^2 + 2 sig_xy sin cos] along
    the direction [phi = 90 deg + diag_wire_angle] it returns [sig_xy],
    as long as [sin phi cos phi] is not zero. *)
Theorem get_sig_xy_inverts_projection (sig_xx sig_yy sig_xy diag_wire_angle : R) :
  let phi := radians 90 + diag_wire_angle in
  sin phi * cos phi <> 0 ->
  get_sig_xy sig_xx sig_yy
    (sig_xx * cos phi ^ 2 + sig_yy * sin phi ^ 2 + 2 * sig_xy * sin phi * cos phi)
    diag_wire_angle
  = Ok sig_xy.
Proof.
  intros phi Hne. unfold get_sig_xy. fold phi.
  rewrite py_div_ok by lra.
  f_equal. field. split; intros H; apply Hne; rewrite H; ring.
Qed.

Lemma default_wire_direction : radians 90 + DIAG_WIRE_ANGLE = PI / 4.
Proof. unfold DIAG_WIRE_ANGLE, radians. lra. Qed.

Lemma sin_cos_PI4 : sin (PI / 4) * cos (PI / 4) = 1 / 2.
Proof.
  rewrite sin_PI4, cos_PI4.
  pose proof sqrt2_neq_0 as Hs. pose proof (sqrt_def 2 ltac:(lra)) as Hd.
  replace (1 / sqrt 2 * (1 / sqrt 2)) with (1 / (sqrt 2 * sqrt 2)) by (field; exact Hs).
  rewrite Hd. reflexivity.
Qed.

Lemma get_sig_xy_inverts_projection_witness :
  get_sig_xy 3 5
    (3 * cos (radians 90 + DIAG_WIRE_ANGLE) ^ 2
     + 5 * sin (radians 90 + DIAG_WIRE_ANGLE) ^ 2
     + 2 * 1 * sin (radians 90 + DIAG_WIRE_ANGLE) * cos (radians 90 + DIAG_WIRE_ANGLE))
    DIAG_WIRE_ANGLE
  = Ok 1.
Proof.
  apply (get_sig_xy_inverts_projection 3 5 1 DIAG_WIRE_ANGLE).
  rewrite default_wire_direction, sin_cos_PI4. lra.
Defined.

(** X2.  With the default angle of the diagonal wire, [get_sig_xy] never
    raises and returns [sig_uu - (sig_xx + sig_yy) / 2]. *)
Theorem get_sig_xy_default_angle (sig_xx sig_yy sig_uu : R) :
  get_sig_xy sig_xx sig_yy sig_uu DIAG_WIRE_ANGLE
  = Ok (sig_uu - (sig_xx + sig_yy) / 2).
Proof.
  unfold get_sig_xy. rewrite default_wire_direction.
  pose proof sin_cos_PI4 as Hsc.
  assert (Hs2 : sin (PI / 4) ^ 2 = 1 / 2).
  { replace (sin (PI / 4) ^ 2) with (sin (PI / 4) * cos (PI / 4))
      by (rewrite sin_PI4, cos_PI4; ring).
    exact Hsc. }
  assert (Hc2 : cos (PI / 4) ^ 2 = 1 / 2).
  { replace (cos (PI / 4) ^ 2) with (sin (PI / 4) * cos (PI / 4))
      by (rewrite sin_PI4, cos_PI4; ring).
    exact Hsc. }
  rewrite Hs2, Hc2.
  replace (2 * sin (PI / 4) * cos (PI / 4)) with 1 by lra.
  rewrite py_div_ok by lra. f_equal. field.
Qed.

(** ** Moment vectors and covariance matrices *)

(** X3.  [to_mat] accepts the vectors of exactly ten moments and no
    others; the matrix it returns is symmetric, has the first, second,
    fourth and fifth moment on its diagonal, and unpacking fails with
    [ValueError] for every other length. *)
Theorem to_mat_symmetric (moments : list R) :
  (length moments = 10%nat ->
   exists Sigma,
     to_mat moments = Ok Sigma /\ symmetric4 Sigma /\
     nrows Sigma = 4%nat /\ ncols Sigma = 4%nat /\
     get Sigma 0 0 = nth 0 moments 0 /\ get Sigma 1 1 = nth 1 moments 0 /\
     get Sigma 2 2 = nth 3 moments 0 /\ get Sigma 3 3 = nth 4 moments 0 /\
     get Sigma 0 1 = nth 2 moments 0 /\ get Sigma 2 3 = nth 5 moments 0 /\
     get Sigma 0 2 = nth 6 moments 0 /\ get Sigma 1 2 = nth 7 moments 0 /\
     get Sigma 0 3 = nth 8 moments 0 /\ get Sigma 1 3 = nth 9 moments 0) /\
  (length moments <> 10%nat ->
   to_mat moments = Err (ValueError "wrong number of values to unpack")).
Proof.
  split.
  - intros Hlen.
    destruct moments as [| m0 [| m1 [| m2 [| m3 [| m4 [| m5 [| m6 [| m7 [| m8 [| m9 [| m10 l]]]]]]]]]]];
      try discriminate Hlen.
    eexists. split; [reflexivity |]. split.
    + intros i j Hi Hj.
      destruct i as [|[|[|[|i]]]]; try lia; destruct j as [|[|[|[|j]]]]; try lia;
        reflexivity.
    + repeat split; reflexivity.
  - intros Hlen.
    destruct moments as [| m0 [| m1 [| m2 [| m3 [| m4 [| m5 [| m6 [| m7 [| m8 [| m9 [| m10 l]]]]]]]]]]];
      try reflexivity.
    exfalso. apply Hlen. reflexivity.
Qed.

Lemma to_mat_symmetric_witness :
  exists Sigma,
    to_mat Fixtures.unit_moment_vec = Ok Sigma /\ symmetric4 Sigma /\
    nrows Sigma = 4%nat /\ ncols Sigma = 4%nat /\
    get Sigma 0 0 = nth 0 Fixtures.unit_moment_vec 0 /\
    get Sigma 1 1 = nth 1 Fixtures.unit_moment_vec 0 /\
    get Sigma 2 2 = nth 3 Fixtures.unit_moment_vec 0 /\
    get Sigma 3 3 = nth 4 Fixtures.unit_moment_vec 0 /\
    get Sigma 0 1 = nth 2 Fixtures.unit_moment_vec 0 /\
    get Sigma 2 3 = nth 5 Fixtures.unit_moment_vec 0 /\
    get Sigma 0 2 = nth 6 Fixtures.unit_moment_vec 0 /\
    get Sigma 1 2 = nth 7 Fixtures.unit_moment_vec 0 /\
    get Sigma 0 3 = nth 8 Fixtures.unit_moment_vec 0 /\
    get Sigma 1 3 = nth 9 Fixtures.unit_moment_vec 0.
Proof.
  apply (to_mat_symmetric Fixtures.unit_moment_vec). reflexivity.
Defined.

Lemma np_is_not_global : existsb (String.eqb "np") module_globals = false.
Proof. reflexivity. Qed.

(** X4.  [to_vec] never returns.  On a [Jama.Matrix], and so on every
    matrix that [to_mat] builds, it fails at [Sigma[0]] with [TypeError];
    on a list of four rows of four numbers it gets as far as the name [np],
    which the module does not import, and raises [NameError]; and on every
    other list of lists it raises as well. *)
Theorem to_vec_always_raises :
  (forall Sigma : matrix_value, exists e, to_vec Sigma = Err e) /\
  (forall (moments : list R) (Sigma : Matrix),
      to_mat moments = Ok Sigma -> to_vec (JamaMatrix Sigma) = Err unsubscriptable) /\
  (forall rows : list (list R),
      length rows = 4%nat -> Forall (fun row => length row = 4%nat) rows ->
      to_vec (PyList rows) = Err (NameError "np")).
Proof.
  split; [| split].
  - intros [Sigma | M]; [| eexists; reflexivity]. unfold to_vec.
    destruct (nth_error Sigma 0) as [row_0 |]; [| eexists; reflexivity].
    destruct row_0 as [| a [| b [| c [| d [| e l]]]]]; try (eexists; reflexivity).
    destruct (nth_error Sigma 1) as [row_1 |]; [| eexists; reflexivity].
    destruct (skipn 1 row_1) as [| a1 [| b1 [| c1 [| d1 l1]]]];
      try (eexists; reflexivity).
    destruct (nth_error Sigma 2) as [row_2 |]; [| eexists; reflexivity].
    destruct (skipn 2 row_2) as [| a2 [| b2 [| c2 l2]]]; try (eexists; reflexivity).
    destruct (item Sigma 3 3) as [sig_44 | e]; eexists; reflexivity.
  - intros moments Sigma _. reflexivity.
  - intros rows Hlen Hrows.
    destruct rows as [| r0 [| r1 [| r2 [| r3 [| r4 rows]]]]]; try discriminate Hlen.
    inversion Hrows as [| ? ? H0 Hrows1]; subst.
    inversion Hrows1 as [| ? ? H1 Hrows2]; subst.
    inversion Hrows2 as [| ? ? H2 Hrows3]; subst.
    inversion Hrows3 as [| ? ? H3 _]; subst.
    destruct r0 as [| ? [| ? [| ? [| ? [| ? ?]]]]]; try discriminate H0.
    destruct r1 as [| ? [| ? [| ? [| ? [| ? ?]]]]]; try discriminate H1.
    destruct r2 as [| ? [| ? [| ? [| ? [| ? ?]]]]]; try discriminate H2.
    destruct r3 as [| ? [| ? [| ? [| ? [| ? ?]]]]]; try discriminate H3.
    reflexivity.
Qed.

Lemma to_vec_always_raises_witness :
  to_vec (JamaMatrix (diagonal_matrix [1; 1; 1; 1])) = Err unsubscriptable /\
  to_vec (PyList [[1; 0; 0; 0]; [0; 1; 0; 0]; [0; 0; 1; 0]; [0; 0; 0; 1]])
  = Err (NameError "np").
Proof.
  destruct to_vec_always_raises as (_ & Hjama & Hlist). split.
  - apply (Hjama Fixtures.unit_moment_vec). reflexivity.
  - apply Hlist; [reflexivity | repeat constructor].
Defined.


(** ** When [twiss2D] raises *)

(** X6.  [twiss2D] raises a math domain error when the determinant of
    the x or of the y block is negative, a division by zero when neither
    is negative and one of them is zero, and otherwise returns
    [alpha = - sig_01 / eps] and [beta = sig_00 / eps] in each plane. *)
Theorem twiss2D_outcome (Sigma : Matrix) :
  let dx := get Sigma 0 0 * get Sigma 1 1 - get Sigma 0 1 ^ 2 in
  let dy := get Sigma 2 2 * get Sigma 3 3 - get Sigma 2 3 ^ 2 in
  (dx < 0 \/ dy < 0 -> twiss2D Sigma = Err (ValueError "math domain error")) /\
  (0 <= dx -> 0 <= dy -> dx = 0 \/ dy = 0 ->
   twiss2D Sigma = Err ZeroDivisionError) /\
  (0 < dx -> 0 < dy ->
   twiss2D Sigma
   = Ok (- get Sigma 0 1 / sqrt dx, - get Sigma 2 3 / sqrt dy,
         get Sigma 0 0 / sqrt dx, get Sigma 2 2 / sqrt dy)).
Proof.
  intros dx dy. unfold twiss2D, apparent_emittances. fold dx dy.
  split; [| split].
  - intros [Hx | Hy].
    + rewrite (py_sqrt_neg dx Hx). reflexivity.
    + unfold py_sqrt at 1. destruct (Rltb dx 0); [reflexivity |].
      cbn [bind]. rewrite (py_sqrt_neg dy Hy). reflexivity.
  - intros Hx Hy Hzero.
    rewrite !py_sqrt_ok by assumption. cbn [bind fst snd].
    destruct (Req_dec_T dx 0) as [Hx0 | Hx0].
    + rewrite Hx0, sqrt_0, py_div_zero. reflexivity.
    + destruct Hzero as [Hx1 | Hy0]; [contradiction |].
      rewrite py_div_ok by (apply Rgt_not_eq, sqrt_lt_R0; lra). cbn [bind].
      rewrite Hy0, sqrt_0, py_div_zero. reflexivity.
  - intros Hx Hy.
    pose proof (sqrt_lt_R0 _ Hx). pose proof (sqrt_lt_R0 _ Hy).
    rewrite !py_sqrt_ok by lra. cbn [bind fst snd].
    rewrite !py_div_ok by lra. reflexivity.
Qed.

Lemma twiss2D_outcome_witness :
  twiss2D [[-1; 0; 0; 0]; [0; 1; 0; 0]; [0; 0; 1; 0]; [0; 0; 0; 1]]
  = Err (ValueError "math domain error") /\
  twiss2D [[1; 1; 0; 0]; [1; 1; 0; 0]; [0; 0; 1; 0]; [0; 0; 0; 1]]
  = Err ZeroDivisionError.
Proof.
  split.
  - apply (twiss2D_outcome [[-1; 0; 0; 0]; [0; 1; 0; 0]; [0; 0; 1; 0]; [0; 0; 0; 1]]).
    left. cbv [get nth]. lra.
  - apply (twiss2D_outcome [[1; 1; 0; 0]; [1; 1; 0; 0]; [0; 0; 1; 0]; [0; 0; 0; 1]]);
      [| | left]; cbv [get nth]; lra.
Defined.

(** ** The linear system of [reconstruct] *)

(** X7.  For a transfer matrix without coupling entries in its first and
    third row, the three rows that a measurement adds to [A], applied to
    the moment vector of [Sigma], are the entries [(0,0)], [(2,2)] and
    [(0,2)] of [M Sigma M^T]: the moments of the transported beam. *)
Theorem measurement_rows_transport_moments
    (m00 m01 m10 m11 m12 m13 m22 m23 m30 m31 m32 m33 : R)
    (sig_11 sig_22 sig_12 sig_33 sig_44 sig_34 sig_13 sig_23 sig_14 sig_24 : R) :
  let M := [[m00; m01; 0; 0]; [m10; m11; m12; m13];
            [0; 0; m22; m23]; [m30; m31; m32; m33]] in
  let moment_vec := [sig_11; sig_22; sig_12; sig_33; sig_44; sig_34;
                     sig_13; sig_23; sig_14; sig_24] in
  exists Sigma rows,
    to_mat moment_vec = Ok Sigma /\
    rows_of_measurement M = Ok rows /\
    mulv rows moment_vec
    = [get (times (times M Sigma) (transpose M)) 0 0;
       get (times (times M Sigma) (transpose M)) 2 2;
       get (times (times M Sigma) (transpose M)) 0 2].
Proof.
  intros M moment_vec. eexists _, _.
  split; [reflexivity |]. split; [reflexivity |].
  cbv [mulv transpose M moment_vec]. matrix_compute.
  repeat (f_equal; try ring).
Qed.

Lemma form_A_b_shape_from (measurements : list (list (list R) * (R * R * R))) :
  forall A0 b0 A b,
    form_A_b measurements A0 b0 = Ok (A, b) ->
    length A = (length A0 + 3 * length measurements)%nat /\
    length b = (length b0 + 3 * length measurements)%nat /\
    (Forall (fun row => length row = 10%nat) A0 ->
     Forall (fun row => length row = 10%nat) A).
Proof.
  induction measurements as [| [M [[sig_xx sig_yy] sig_xy]] rest IH];
    intros A0 b0 A b H; cbn [form_A_b] in H.
  - injection H as <- <-. cbn [length]. repeat split; auto; lia.
  - unfold rows_of_measurement in H.
    destruct (item M 0 0) as [m00 |]; cbn [bind] in H; [| discriminate H].
    destruct (item M 0 1) as [m01 |]; cbn [bind] in H; [| discriminate H].
    destruct (item M 2 2) as [m22 |]; cbn [bind] in H; [| discriminate H].
    destruct (item M 2 3) as [m23 |]; cbn [bind] in H; [| discriminate H].
    apply IH in H. destruct H as (HA & Hb & Hrows).
    rewrite !length_app in HA, Hb. cbn [length] in *.
    split; [lia |]. split; [lia |].
    intros H0. apply Hrows. apply Forall_app. split; [exact H0 |].
    repeat constructor.
Qed.

(** X8.  When the first loop of [reconstruct] succeeds, [A] has three
    rows of ten entries for every measurement and [b] has as many entries
    as [A] has rows; the measurements are the pairs that [zip] forms, as
    many as the shorter of the two lists. *)
Theorem form_A_b_shape (transfer_mats : list (list (list R)))
    (moments : list (R * R * R)) (A : list (list R)) (b : list R) :
  form_A_b (combine transfer_mats moments) [] [] = Ok (A, b) ->
  length A = (3 * Nat.min (length transfer_mats) (length moments))%nat /\
  length b = length A /\
  Forall (fun row => length row = 10%nat) A.
Proof.
  intros H. apply form_A_b_shape_from in H. destruct H as (HA & Hb & Hrows).
  rewrite length_combine in HA, Hb. cbn [length] in HA, Hb.
  split; [lia |]. split; [lia |]. apply Hrows. constructor.
Qed.

Lemma form_A_b_shape_witness :
  exists A b,
    form_A_b (combine Fixtures.transfer_mats Fixtures.moments) [] [] = Ok (A, b) /\
    length A = (3 * Nat.min (length Fixtures.transfer_mats)
                            (length Fixtures.moments))%nat /\
    length b = length A /\
    Forall (fun row => length row = 10%nat) A.
Proof.
  destruct fixture_system as (A & b & HAb & _).
  exists A, b. split; [exact HAb |].
  exact (form_A_b_shape Fixtures.transfer_mats Fixtures.moments A b HAb).
Defined.

(** ** The principal axes of the rms ellipse *)

Lemma cos_minus_PI (a : R) : cos (a - PI) = - cos a.
Proof. rewrite cos_minus, cos_PI, sin_PI. ring. Qed.

Lemma sin_minus_PI (a : R) : sin (a - PI) = - sin a.
Proof. rewrite sin_minus, cos_PI, sin_PI. ring. Qed.

Lemma hypotenuse_right_half (x y : R) :
  0 < x -> sqrt (x * x + y * y) = x * sqrt (1 + (y / x)²).
Proof.
  intros Hx.
  assert (Hs : 0 <= sqrt (1 + (y / x)²)) by apply sqrt_pos.
  apply sqrt_lem_1.
  - nra.
  - apply Rmult_le_pos; lra.
  - replace (x * sqrt (1 + (y / x)²) * (x * sqrt (1 + (y / x)²)))
      with (x * x * (sqrt (1 + (y / x)²) * sqrt (1 + (y / x)²))) by ring.
    rewrite sqrt_def by (unfold Rsqr; nra).
    unfold Rsqr. field. lra.
Qed.

Lemma hypotenuse_left_half (x y : R) :
  x < 0 -> sqrt (x * x + y * y) = - x * sqrt (1 + (y / x)²).
Proof.
  intros Hx.
  assert (Hs : 0 <= sqrt (1 + (y / x)²)) by apply sqrt_pos.
  apply sqrt_lem_1.
  - nra.
  - apply Rmult_le_pos; lra.
  - replace (- x * sqrt (1 + (y / x)²) * (- x * sqrt (1 + (y / x)²)))
      with (x * x * (sqrt (1 + (y / x)²) * sqrt (1 + (y / x)²))) by ring.
    rewrite sqrt_def by (unfold Rsqr; nra).
    unfold Rsqr. field. lra.
Qed.

Lemma sqrt_one_plus_sqr_pos (t : R) : 0 < sqrt (1 + t²).
Proof. apply sqrt_lt_R0. unfold Rsqr. nra. Qed.

(** [atan2 y x] is the polar angle of the point [(x, y)]. *)
Lemma atan2_polar (y x : R) :
  sqrt (x * x + y * y) * cos (atan2 y x) = x /\
  sqrt (x * x + y * y) * sin (atan2 y x) = y.
Proof.
  unfold atan2.
  destruct (Rlt_dec 0 x) as [Hpos | Hnpos].
  - rewrite Rltb_true by assumption.
    rewrite cos_atan, sin_atan, hypotenuse_right_half by assumption.
    pose proof (sqrt_one_plus_sqr_pos (y / x)).
    split; field; lra.
  - rewrite Rltb_false by lra.
    destruct (Rlt_dec x 0) as [Hneg | Hnneg].
    + rewrite Rltb_true by assumption.
      pose proof (sqrt_one_plus_sqr_pos (y / x)).
      rewrite hypotenuse_left_half by assumption.
      destruct (Rle_dec 0 y) as [Hy | Hy].
      * rewrite Rleb_true by assumption.
        rewrite neg_cos, neg_sin, cos_atan, sin_atan. split; field; lra.
      * rewrite Rleb_false by lra.
        rewrite cos_minus_PI, sin_minus_PI, cos_atan, sin_atan. split; field; lra.
    + rewrite (Rltb_false x 0) by lra.
      assert (Hx : x = 0) by lra. subst x.
      replace (0 * 0 + y * y) with (y * y) by ring.
      destruct (Rlt_dec 0 y) as [Hy | Hy].
      * rewrite (Rltb_true 0 y) by assumption.
        rewrite sqrt_square, cos_PI2, sin_PI2 by lra. lra.
      * rewrite (Rltb_false 0 y) by lra.
        destruct (Rlt_dec y 0) as [Hy' | Hy'].
        -- rewrite Rltb_true by assumption.
           replace (y * y) with (- y * - y) by ring.
           rewrite sqrt_square, cos_neg, sin_neg, cos_PI2, sin_PI2 by lra. lra.
        -- rewrite Rltb_false by lra.
           assert (Hy0 : y = 0) by lra. subst y.
           replace (0 * 0) with 0 by ring. rewrite sqrt_0, cos_0, sin_0. lra.
Qed.

(** The two radicands of [rms_ellipse_dims]: half the trace plus and
    minus half the spread [rho] of the block. *)
Lemma ellipse_radicands (sig_ii sig_jj sig_ij : R) :
  let phi := - (1 / 2) * atan2 (2 * sig_ij) (sig_ii - sig_jj) in
  let rho := sqrt ((sig_ii - sig_jj) * (sig_ii - sig_jj)
                   + (2 * sig_ij) * (2 * sig_ij)) in
  sig_ii * cos phi ^ 2 + sig_jj * sin phi ^ 2 - 2 * sig_ij * sin phi * cos phi
  = (sig_ii + sig_jj + rho) / 2 /\
  sig_ii * sin phi ^ 2 + sig_jj * cos phi ^ 2 + 2 * sig_ij * sin phi * cos phi
  = (sig_ii + sig_jj - rho) / 2.
Proof.
  intros phi rho.
  destruct (atan2_polar (2 * sig_ij) (sig_ii - sig_jj)) as [Hc Hs].
  fold rho in Hc, Hs.
  set (theta := atan2 (2 * sig_ij) (sig_ii - sig_jj)) in *.
  assert (H2phi : 2 * phi = - theta) by (unfold phi; lra).
  pose proof (cos_2a phi) as Hd1. pose proof (sin_2a phi) as Hd2.
  rewrite H2phi in Hd1, Hd2. rewrite cos_neg in Hd1. rewrite sin_neg in Hd2.
  pose proof (sin2_cos2 phi) as Hd3. unfold Rsqr in Hd3.
  pose proof (sin2_cos2 theta) as H1. unfold Rsqr in H1.
  assert (HA : cos phi * cos phi = (1 + cos theta) / 2) by lra.
  assert (HB : sin phi * sin phi = (1 - cos theta) / 2) by lra.
  assert (Hspread : (sig_ii - sig_jj) * cos theta + (2 * sig_ij) * sin theta = rho).
  { rewrite <- Hc at 1. rewrite <- Hs at 1.
    replace (rho * cos theta * cos theta + rho * sin theta * sin theta)
      with (rho * (sin theta * sin theta + cos theta * cos theta)) by ring.
    rewrite H1. ring. }
  split.
  - replace (sig_ii * cos phi ^ 2 + sig_jj * sin phi ^ 2
             - 2 * sig_ij * sin phi * cos phi)
      with (sig_ii * (cos phi * cos phi) + sig_jj * (sin phi * sin phi)
            - sig_ij * (2 * sin phi * cos phi)) by ring.
    rewrite HA, HB, <- Hd2. lra.
  - replace (sig_ii * sin phi ^ 2 + sig_jj * cos phi ^ 2
             + 2 * sig_ij * sin phi * cos phi)
      with (sig_ii * (sin phi * sin phi) + sig_jj * (cos phi * cos phi)
            + sig_ij * (2 * sin phi * cos phi)) by ring.
    rewrite HA, HB, <- Hd2. lra.
Qed.

Lemma spread_properties (a b c : R) :
  0 <= a -> 0 <= b -> c * c <= a * b ->
  let rho := sqrt ((a - b) * (a - b) + (2 * c) * (2 * c)) in
  0 <= rho <= a + b /\
  rho * rho = (a - b) * (a - b) + (2 * c) * (2 * c).
Proof.
  intros Ha Hb Hc.
  assert (Hnn : 0 <= (a - b) * (a - b) + (2 * c) * (2 * c)).
  { pose proof (Rle_0_sqr (a - b)) as Q1. pose proof (Rle_0_sqr (2 * c)) as Q2.
    unfold Rsqr in Q1, Q2. lra. }
  assert (Hsq : (a - b) * (a - b) + (2 * c) * (2 * c) <= (a + b) * (a + b)) by nra.
  intros rho. split; [split |].
  - apply sqrt_pos.
  - rewrite <- (sqrt_square (a + b)) by lra.
    apply sqrt_le_1_alt. exact Hsq.
  - now apply sqrt_def.
Qed.

(** X9.  For a projection plane whose 2x2 block is positive
    semi-definite, both versions of [rms_ellipse_dims] return the square
    roots of the eigenvalues of the block, the larger first: [c1] is the
    semi-major and [c2] the semi-minor axis, [c1^2 + c2^2] is the trace of
    the block and [c1 c2] the square root of its determinant. *)
Theorem rms_ellipse_dims_principal_axes
    (Sigma : Matrix) (dim1 dim2 : string) (i j : nat) :
  str_to_int dim1 = Ok i -> str_to_int dim2 = Ok j ->
  let sig_ii := get Sigma i i in
  let sig_jj := get Sigma j j in
  let sig_ij := get Sigma i j in
  0 <= sig_ii -> 0 <= sig_jj -> sig_ij * sig_ij <= sig_ii * sig_jj ->
  let rho := sqrt ((sig_ii - sig_jj) * (sig_ii - sig_jj)
                   + (2 * sig_ij) * (2 * sig_ij)) in
  exists phi c1 c2,
    Analysis.rms_ellipse_dims Sigma dim1 dim2 = Ok (phi, c1, c2) /\
    TargetImage.rms_ellipse_dims sig_ii sig_jj sig_ij = (c1, c2, phi) /\
    c1 = sqrt ((sig_ii + sig_jj + rho) / 2) /\
    c2 = sqrt ((sig_ii + sig_jj - rho) / 2) /\
    0 <= c2 <= c1 /\
    c1 * c1 + c2 * c2 = sig_ii + sig_jj /\
    c1 * c2 = sqrt (sig_ii * sig_jj - sig_ij * sig_ij).
Proof.
  intros Hi Hj sig_ii sig_jj sig_ij Hii Hjj Hpsd rho.
  destruct (ellipse_radicands sig_ii sig_jj sig_ij) as [H1 H2]. fold rho in H1, H2.
  destruct (spread_properties sig_ii sig_jj sig_ij Hii Hjj Hpsd) as [[Hrho Hle] Hrho2].
  fold rho in Hrho, Hle, Hrho2.
  exists (- (1 / 2) * atan2 (2 * sig_ij) (sig_ii - sig_jj)),
         (sqrt ((sig_ii + sig_jj + rho) / 2)),
         (sqrt ((sig_ii + sig_jj - rho) / 2)).
  split; [| split].
  - unfold Analysis.rms_ellipse_dims. rewrite Hi, Hj. cbn [bind].
    fold sig_ii sig_jj sig_ij. rewrite H1, H2.
    rewrite !py_sqrt_ok by apply Rabs_pos. cbn [bind].
    rewrite !Rabs_right by lra. reflexivity.
  - unfold TargetImage.rms_ellipse_dims. rewrite H1, H2.
    rewrite !Rabs_right by lra. reflexivity.
  - split; [reflexivity |]. split; [reflexivity |].
    split; [| split].
    + split; [apply sqrt_pos | apply sqrt_le_1; lra].
    + rewrite !sqrt_def by lra. lra.
    + rewrite <- sqrt_mult by lra. f_equal. nra.
Qed.

Lemma rms_ellipse_dims_principal_axes_witness :
  let Sigma := [[2; 1; 0; 0]; [1; 2; 0; 0]; [0; 0; 1; 0]; [0; 0; 0; 1]] in
  let rho := sqrt ((2 - 2) * (2 - 2) + (2 * 1) * (2 * 1)) in
  exists phi c1 c2,
    Analysis.rms_ellipse_dims Sigma "x" "xp" = Ok (phi, c1, c2) /\
    TargetImage.rms_ellipse_dims 2 2 1 = (c1, c2, phi) /\
    c1 = sqrt ((2 + 2 + rho) / 2) /\
    c2 = sqrt ((2 + 2 - rho) / 2) /\
    0 <= c2 <= c1 /\
    c1 * c1 + c2 * c2 = 2 + 2 /\
    c1 * c2 = sqrt (2 * 2 - 1 * 1).
Proof.
  intros Sigma.
  apply (rms_ellipse_dims_principal_axes Sigma "x" "xp" 0 1);
    try reflexivity; cbv [Sigma get nth]; lra.
Defined.

(** ** Rotations of the plotting layer *)

(** X10.  [rotate] keeps the distance from the origin, two rotations
    compose to the rotation by the sum of the angles, and the rotation by
    [- phi] undoes the rotation by [phi]. *)
Theorem rotate_is_a_rotation (x y phi psi : R) :
  let p := Plotting.rotate x y phi in
  fst p * fst p + snd p * snd p = x * x + y * y /\
  Plotting.rotate (fst p) (snd p) psi = Plotting.rotate x y (phi + psi) /\
  Plotting.rotate (fst p) (snd p) (- phi) = (x, y).
Proof.
  unfold Plotting.rotate. cbn [fst snd].
  pose proof (sin2_cos2 phi) as H1. unfold Rsqr in H1.
  split; [| split].
  - replace ((x * cos phi - y * sin phi) * (x * cos phi - y * sin phi)
             + (x * sin phi + y * cos phi) * (x * sin phi + y * cos phi))
      with ((x * x + y * y) * (sin phi * sin phi + cos phi * cos phi)) by ring.
    rewrite H1. ring.
  - rewrite cos_plus, sin_plus. f_equal; ring.
  - rewrite cos_neg, sin_neg. f_equal.
    + replace ((x * cos phi - y * sin phi) * cos phi
               - (x * sin phi + y * cos phi) * - sin phi)
        with (x * (sin phi * sin phi + cos phi * cos phi)) by ring.
      rewrite H1. ring.
    + replace ((x * cos phi - y * sin phi) * - sin phi
               + (x * sin phi + y * cos phi) * cos phi)
        with (y * (sin phi * sin phi + cos phi * cos phi)) by ring.
      rewrite H1. ring.
Qed.

(** ** Synchronizing the model *)

(** X11.  [safe_sync] raises [ValueError] for every mode other than
    ['live'] and ['design'] and prints nothing then; otherwise the mode it
    returns is the mode it leaves the scenario in, it is ['design'] for
    ['design'] and whenever the live machine cannot be reached, and the
    fallback is the only case in which a line is printed. *)
Theorem safe_sync_outcome (live_fails : bool) (scenario_mode sync_mode : string) :
  (sync_mode <> "live"%string -> sync_mode <> "design"%string ->
   safe_sync live_fails scenario_mode sync_mode
   = ([], Err (ValueError "`sync_mode` must be in {'live', 'design'}"))) /\
  safe_sync live_fails scenario_mode "design" = ([], Ok ("design", "design"))%string /\
  safe_sync false scenario_mode "live" = ([], Ok ("live", "live"))%string /\
  safe_sync true scenario_mode "live"
  = (["Can't sync with live machine. Using design fields."],
     Ok ("design", "design"))%string /\
  (forall printed mode returned,
      safe_sync live_fails scenario_mode sync_mode = (printed, Ok (mode, returned)) ->
      mode = returned /\ (returned = "live" \/ returned = "design")%string).
Proof.
  split; [| split; [| split; [| split]]]; try reflexivity.
  - intros Hl Hd. unfold safe_sync.
    apply String.eqb_neq in Hl, Hd. now rewrite Hl, Hd.
  - intros printed mode returned. unfold safe_sync.
    destruct (String.eqb sync_mode "live") eqn:Hl.
    + apply String.eqb_eq in Hl. subst sync_mode. cbn [orb negb].
      destruct live_fails; cbn; intros H; inversion H; auto.
    + destruct (String.eqb sync_mode "design") eqn:Hd; cbn [orb negb].
      * apply String.eqb_eq in Hd. subst sync_mode.
        cbn. intros H; inversion H; auto.
      * discriminate.
Qed.

Lemma safe_sync_outcome_witness :
  safe_sync true "design" "default"
  = ([], Err (ValueError "`sync_mode` must be in {'live', 'design'}")).
Proof.
  apply (safe_sync_outcome true "design" "default"); discriminate.
Defined.

(** ** Short phase ranges *)

Lemma extend_phases_length (k : nat) (step mu : R) :
  length (extend_phases k step [mu]) = S k.
Proof.
  change [mu] with ([] ++ [mu]).
  rewrite (extend_phases_run k step [] mu). cbn [app]. apply phase_run_length.
Qed.

(** X12.  [lin_phase_range] divides by [n_steps - 1] with the endpoint and
    by [n_steps] without it, and raises [ZeroDivisionError] exactly when
    that divisor is zero; otherwise it returns [n_steps] phases that start
    with [mu_min], and just [[mu_min]] when [n_steps] is zero or
    negative. *)
Theorem lin_phase_range_length (mu_min mu_max : R) (n_steps : Z)
    (endpoint : bool) :
  let divisor := if endpoint then (n_steps - 1)%Z else n_steps in
  (divisor = 0%Z ->
   lin_phase_range mu_min mu_max n_steps endpoint = Err ZeroDivisionError) /\
  (divisor <> 0%Z ->
   exists phases,
     lin_phase_range mu_min mu_max n_steps endpoint = Ok phases /\
     length phases = Z.to_nat (Z.max n_steps 1) /\
     nth 0 phases 0 = mu_min).
Proof.
  intros divisor. unfold lin_phase_range.
  set (abs_diff := if Rltb PI _ then _ else _).
  assert (Hdiv : (if endpoint then py_div abs_diff (IZR (n_steps - 1))
                  else py_div abs_diff (IZR n_steps))
                 = py_div abs_diff (IZR divisor))
    by (unfold divisor; destruct endpoint; reflexivity).
  rewrite Hdiv. split.
  - intros ->. rewrite py_div_zero. reflexivity.
  - intros Hne. rewrite py_div_ok by (apply not_0_IZR; exact Hne). cbn [bind].
    eexists. split; [reflexivity |]. split.
    + rewrite extend_phases_length. lia.
    + change [mu_min] with ([] ++ [mu_min]).
      rewrite (extend_phases_run _ _ [] mu_min). apply phase_run_first.
Qed.

Lemma lin_phase_range_length_witness :
  lin_phase_range 1 2 1 true = Err ZeroDivisionError /\
  exists phases,
    lin_phase_range 1 2 (-3) true = Ok phases /\
    length phases = Z.to_nat (Z.max (-3) 1) /\
    nth 0 phases 0 = 1.
Proof.
  split.
  - apply (lin_phase_range_length 1 2 1 true). reflexivity.
  - apply (lin_phase_range_length 1 2 (-3) true). discriminate.
Defined.

(** ** More on setting quadrupole fields *)

Section RampProperties.

Variables toCAFromField toFieldFromCA : string -> R -> R.

Abbreviation get_field' := (get_field toFieldFromCA).
Abbreviation set_field' := (set_field toCAFromField).
Abbreviation ramp_pass' := (ramp_pass toCAFromField toFieldFromCA).
Abbreviation ramp_loop' := (ramp_loop toCAFromField toFieldFromCA).
Abbreviation stepped' := (stepped toCAFromField).

Lemma get_field_book_same st st' quad_id :
  book_channels st' !! quad_id = book_channels st !! quad_id ->
  (is_Some (live_fields st !! quad_id) <-> is_Some (live_fields st' !! quad_id)) ->
  get_field' st' quad_id "book" = get_field' st quad_id "book".
Proof.
  intros Hb Hl. unfold get_field. cbn [String.eqb Ascii.eqb Bool.eqb].
  rewrite Hb.
  destruct (live_fields st !! quad_id) as [x |] eqn:E1;
    destruct (live_fields st' !! quad_id) as [y |] eqn:E2; try reflexivity.
  - exfalso. destruct Hl as [Hl _].
    destruct (Hl (ex_intro _ x eq_refl)) as [z Hz]. discriminate Hz.
  - exfalso. destruct Hl as [_ Hl].
    destruct (Hl (ex_intro _ y eq_refl)) as [z Hz]. discriminate Hz.
Qed.

Lemma get_field_book_stepped st quad_id field :
  toFieldFromCA quad_id (toCAFromField quad_id field) = field ->
  get_field' (stepped' st quad_id field) quad_id "book" = Ok field.
Proof.
  intros Hinv.
  destruct (stepped_lookup toCAFromField st quad_id field) as [Hb Hl].
  rewrite (get_field_book toFieldFromCA _ quad_id field _ Hl Hb).
  now rewrite Hinv.
Qed.

Lemma get_field_book_stepped_other st quad_id field q :
  quad_id <> q ->
  get_field' (stepped' st quad_id field) q "book" = get_field' st q "book".
Proof.
  intros Hne.
  destruct (stepped_lookup_other toCAFromField st quad_id field q Hne) as [Hb Hl].
  apply get_field_book_same; [exact Hb |]. now rewrite Hl.
Qed.

(** What a pass does to the book values of the magnets it visits. *)
Lemma ramp_pass_books (targets : list (string * R)) :
  forall st max_frac_change stop,
    (forall q f, toFieldFromCA q (toCAFromField q f) = f) ->
    NoDup (map fst targets) ->
    (forall q f, In (q, f) targets -> ready st q) ->
    exists stop' st',
      ramp_pass' st targets max_frac_change stop = Ok (stop', st') /\
      (forall q f b, In (q, f) targets -> get_field' st q "book" = Ok b ->
         get_field' st' q "book" = Ok (ramp_target b f max_frac_change)) /\
      (forall q, ~ In q (map fst targets) ->
         get_field' st' q "book" = get_field' st q "book") /\
      (forall q, ready st q -> ready st' q).
Proof.
  induction targets as [| [quad_id field] rest IH];
    intros st mfc stop Hinv Hnodup Hready.
  - exists stop, st. split; [reflexivity |].
    split; [intros q f b [] |]. split; auto.
  - cbn [map fst] in Hnodup. apply NoDup_cons in Hnodup as [Hnotin Hrest].
    assert (Hnotin' : ~ In quad_id (map fst rest))
      by (intros H; apply Hnotin; now apply list_elem_of_In).
    assert (Hq : ready st quad_id) by (apply (Hready quad_id field); now left).
    destruct Hq as [[lv Hl] [ca Hb]].
    pose proof (get_field_book toFieldFromCA st quad_id lv ca Hl Hb) as Hbook.
    cbn [Optics.ramp_pass]. rewrite Hbook. cbn [bind].
    set (book := toFieldFromCA quad_id ca) in *.
    destruct (Rltb (mfc * Rabs book) (Rabs (field - book))) eqn:Hstep.
    + set (new_field := if Rleb 0 (field - book) then _ else _).
      assert (Hnew : new_field = ramp_target book field mfc)
        by (unfold ramp_target; now rewrite Hstep).
      pose proof (set_book_and_live toCAFromField st quad_id new_field
                    (conj (ex_intro _ lv Hl) (ex_intro _ ca Hb))) as Hset.
      destruct (set_field toCAFromField st quad_id new_field "book") as [st1 | e];
        cbn [bind] in Hset |- *; [| discriminate Hset].
      rewrite Hset. cbn [bind].
      destruct (IH (stepped' st quad_id new_field) mfc false Hinv Hrest)
        as (stop' & st' & Hrun & Hin & Hout & Hkeep).
      { intros q f Hqf. apply ready_stepped. apply (Hready q f). now right. }
      exists stop', st'. split; [exact Hrun |]. split; [| split].
      * intros q f b [Heq | Hqf] Hqb.
        -- inversion Heq; subst q f.
           rewrite Hbook in Hqb. inversion Hqb; subst b.
           rewrite (Hout quad_id Hnotin'), <- Hnew.
           apply get_field_book_stepped, Hinv.
        -- apply (Hin q f b Hqf).
           rewrite get_field_book_stepped_other; [exact Hqb |].
           intros ->. apply Hnotin'. apply (in_map fst) in Hqf. exact Hqf.
      * intros q Hq. cbn [map fst] in Hq.
        rewrite (Hout q) by (intros H; apply Hq; now right).
        apply get_field_book_stepped_other. intros ->. apply Hq. now left.
      * intros q Hq. apply Hkeep. now apply ready_stepped.
    + assert (Hsame : ramp_target book field mfc = book)
        by (unfold ramp_target; now rewrite Hstep).
      destruct (IH st mfc stop Hinv Hrest) as (stop' & st' & Hrun & Hin & Hout & Hkeep).
      { intros q f Hqf. apply (Hready q f). now right. }
      exists stop', st'. split; [exact Hrun |]. split; [| split].
      * intros q f b [Heq | Hqf] Hqb.
        -- inversion Heq; subst q f.
           rewrite Hbook in Hqb. inversion Hqb; subst b.
           rewrite (Hout quad_id Hnotin'), Hsame. exact Hbook.
        -- now apply (Hin q f b Hqf).
      * intros q Hq. cbn [map fst] in Hq.
        apply Hout. intros H. apply Hq. now right.
      * exact Hkeep.
Qed.

(** The step of one pass: bounded, towards the target, never past it,
    and never through zero. *)
Lemma ramp_target_step (book field max_frac_change : R) :
  0 <= max_frac_change ->
  let book' := ramp_target book field max_frac_change in
  Rabs (book' - book) <= max_frac_change * Rabs book /\
  Rabs (field - book') <= Rabs (field - book) /\
  0 <= (field - book) * (book' - book) /\
  (max_frac_change <= 1 -> 0 <= book * book').
Proof.
  intros Hm book'. unfold book', ramp_target.
  pose proof (Rabs_pos book) as Hb.
  assert (Hmb : 0 <= max_frac_change * Rabs book) by now apply Rmult_le_pos.
  assert (Hbb : book * book = Rabs book * Rabs book).
  { unfold Rabs. destruct (Rcase_abs book); ring. }
  assert (Hcap : max_frac_change <= 1 -> max_frac_change * Rabs book <= Rabs book).
  { intros H1. nra. }
  assert (Hbd : - Rabs book <= book <= Rabs book).
  { unfold Rabs. destruct (Rcase_abs book); lra. }
  unfold Rltb, Rleb.
  destruct (Rlt_dec (max_frac_change * Rabs book) (Rabs (field - book))) as [Hstep | Hstep].
  - destruct (Rle_dec 0 (field - book)) as [Hup | Hdown].
    + rewrite (Rabs_right (field - book)) in Hstep |- * by lra.
      replace (book + max_frac_change * Rabs book - book)
        with (max_frac_change * Rabs book) by ring.
      rewrite (Rabs_right (max_frac_change * Rabs book)) by lra.
      rewrite (Rabs_right (field - (book + max_frac_change * Rabs book))) by lra.
      split; [lra | split; [lra | split; [nra |]]].
      intros H1. specialize (Hcap H1). nra.
    + rewrite (Rabs_left (field - book)) in Hstep |- * by lra.
      replace (book - max_frac_change * Rabs book - book)
        with (- (max_frac_change * Rabs book)) by ring.
      rewrite Rabs_Ropp, (Rabs_right (max_frac_change * Rabs book)) by lra.
      rewrite (Rabs_left (field - (book - max_frac_change * Rabs book))) by lra.
      split; [lra | split; [lra | split; [nra |]]].
      intros H1. specialize (Hcap H1). nra.
  - replace (book - book) with 0 by ring. rewrite Rabs_R0.
    split; [lra | split; [lra | split; [nra |]]].
    intros _. nra.
Qed.

End RampProperties.

(** X13.  In one pass of the live ramp over distinct magnets that are
    ready, the book value of every listed magnet moves by at most
    [max_frac_change] times its magnitude, towards its target and not past
    it, and for [max_frac_change <= 1] it does not change sign; the book
    values of all other magnets stay as they are. *)
Theorem ramp_pass_is_bounded
    (toCAFromField toFieldFromCA : string -> R -> R)
    (st : PhaseController) (targets : list (string * R))
    (max_frac_change : R) (stop : bool) :
  (forall q f, toFieldFromCA q (toCAFromField q f) = f) ->
  NoDup (map fst targets) ->
  (forall q f, In (q, f) targets -> ready st q) ->
  0 <= max_frac_change ->
  exists stop' st',
    ramp_pass toCAFromField toFieldFromCA st targets max_frac_change stop
    = Ok (stop', st') /\
    (forall q f book, In (q, f) targets ->
       get_field toFieldFromCA st q "book" = Ok book ->
       exists book',
         get_field toFieldFromCA st' q "book" = Ok book' /\
         Rabs (book' - book) <= max_frac_change * Rabs book /\
         Rabs (f - book') <= Rabs (f - book) /\
         0 <= (f - book) * (book' - book) /\
         (max_frac_change <= 1 -> 0 <= book * book')) /\
    (forall q, ~ In q (map fst targets) ->
       get_field toFieldFromCA st' q "book" = get_field toFieldFromCA st q "book").
Proof.
  intros Hinv Hnodup Hready Hm.
  destruct (ramp_pass_books toCAFromField toFieldFromCA targets st max_frac_change
              stop Hinv Hnodup Hready) as (stop' & st' & Hrun & Hin & Hout & _).
  exists stop', st'. split; [exact Hrun |]. split; [| exact Hout].
  intros q f book Hqf Hbook.
  exists (ramp_target book f max_frac_change).
  split; [now apply (Hin q f book) |].
  now apply ramp_target_step.
Qed.

Lemma ramp_pass_is_bounded_witness :
  let id := fun (_ : string) (x : R) => x in
  let st := {| live_fields := {["RTBT_Mag:QH02"%string := 100]};
               model_fields := {["RTBT_Mag:QH02"%string := [100]]};
               book_channels := {["RTBT_Mag:QH02"%string := 100]};
               shared_power := empty |} in
  let targets := [("RTBT_Mag:QH02"%string, 110)] in
  exists stop' st',
    ramp_pass id id st targets (1 / 100) true = Ok (stop', st') /\
    (forall q f book, In (q, f) targets ->
       get_field id st q "book" = Ok book ->
       exists book',
         get_field id st' q "book" = Ok book' /\
         Rabs (book' - book) <= 1 / 100 * Rabs book /\
         Rabs (f - book') <= Rabs (f - book) /\
         0 <= (f - book) * (book' - book) /\
         (1 / 100 <= 1 -> 0 <= book * book')) /\
    (forall q, ~ In q (map fst targets) ->
       get_field id st' q "book" = get_field id st q "book").
Proof.
  intros id st targets.
  apply (ramp_pass_is_bounded id id st targets (1 / 100) true).
  - reflexivity.
  - apply NoDup_singleton.
  - intros q f [Heq | []]. inversion Heq; subst.
    split; exists 100; reflexivity.
  - lra.
Defined.

Section SettledProperties.

Variables toCAFromField toFieldFromCA : string -> R -> R.

Abbreviation get_field' := (get_field toFieldFromCA).
Abbreviation get_fields' := (get_fields toFieldFromCA).
Abbreviation set_field' := (set_field toCAFromField).
Abbreviation ramp_pass' := (ramp_pass toCAFromField toFieldFromCA).
Abbreviation ramp_loop' := (ramp_loop toCAFromField toFieldFromCA).
Abbreviation set_targets' := (set_targets toCAFromField).

(** Every listed magnet is within one step of its target. *)
Let settled (st : PhaseController) (targets : list (string * R))
    (max_frac_change : R) : Prop :=
  forall q f, In (q, f) targets ->
    exists book, get_field' st q "book" = Ok book /\
                 Rabs (f - book) <= max_frac_change * Rabs book.

Lemma Rltb_false_inv x y : Rltb x y = false -> y <= x.
Proof. unfold Rltb. destruct (Rlt_dec x y); [discriminate | lra]. Qed.

Lemma ramp_pass_true (targets : list (string * R)) (max_frac_change : R) :
  forall st stop st',
    ramp_pass' st targets max_frac_change stop = Ok (true, st') ->
    stop = true /\ st' = st /\ settled st targets max_frac_change.
Proof.
  induction targets as [| [quad_id field] rest IH]; intros st stop st' H.
  - cbn in H. inversion H; subst. repeat split. intros q f [].
  - cbn [Optics.ramp_pass] in H.
    destruct (Optics.get_field toFieldFromCA st quad_id "book") as [book | e] eqn:Hbook;
      cbn [bind] in H; [| discriminate H].
    cbv zeta in H.
    destruct (Rltb (max_frac_change * Rabs book) (Rabs (field - book))) eqn:Hstep.
    + destruct (Optics.set_field toCAFromField st quad_id _ "book") as [st1 | e];
        cbn [bind] in H; [| discriminate H].
      destruct (Optics.set_field toCAFromField st1 quad_id _ "live") as [st2 | e];
        cbn [bind] in H; [| discriminate H].
      apply IH in H as [Hfalse _]. discriminate Hfalse.
    + apply IH in H as (Hstop & Hst & Hrest).
      split; [exact Hstop |]. split; [exact Hst |].
      intros q f [Heq | Hin].
      * inversion Heq; subst q f. exists book. split; [exact Hbook |].
        now apply Rltb_false_inv.
      * now apply Hrest.
Qed.

Lemma ramp_pass_settled_run (targets : list (string * R)) (max_frac_change : R) :
  forall st stop,
    settled st targets max_frac_change ->
    ramp_pass' st targets max_frac_change stop = Ok (stop, st).
Proof.
  induction targets as [| [quad_id field] rest IH]; intros st stop Hs.
  - reflexivity.
  - cbn [Optics.ramp_pass].
    destruct (Hs quad_id field) as (book & Hbook & Hclose); [now left |].
    rewrite Hbook. cbn [bind]. cbv zeta.
    rewrite Rltb_false by exact Hclose.
    apply IH. intros q f Hin. apply Hs. now right.
Qed.

Lemma ramp_target_zero (field max_frac_change : R) :
  ramp_target 0 field max_frac_change = 0.
Proof.
  unfold ramp_target. rewrite Rabs_R0.
  destruct (Rltb _ _); [destruct (Rleb _ _) |]; ring.
Qed.

Lemma set_field_keeps_model st quad_id field opt st' :
  opt <> "model"%string ->
  set_field' st quad_id field opt = Ok st' ->
  model_fields st' = model_fields st /\ shared_power st' = shared_power st.
Proof.
  intros Hopt H. unfold Optics.set_field in H.
  apply String.eqb_neq in Hopt. rewrite Hopt in H.
  destruct (String.eqb opt "live").
  - destruct (live_fields st !! quad_id); [| discriminate H].
    inversion H; subst. now split.
  - destruct (String.eqb opt "book"); [| discriminate H].
    destruct (book_channels st !! quad_id); [| discriminate H].
    destruct (live_fields st !! quad_id); [| discriminate H].
    inversion H; subst. now split.
Qed.

Lemma ramp_pass_keeps_model (targets : list (string * R)) (max_frac_change : R) :
  forall st stop stop' st',
    ramp_pass' st targets max_frac_change stop = Ok (stop', st') ->
    model_fields st' = model_fields st /\ shared_power st' = shared_power st.
Proof.
  induction targets as [| [quad_id field] rest IH]; intros st stop stop' st' H.
  - cbn in H. inversion H; subst. now split.
  - cbn [Optics.ramp_pass] in H.
    destruct (Optics.get_field toFieldFromCA st quad_id "book") as [book | e];
      cbn [bind] in H; [| discriminate H].
    cbv zeta in H.
    destruct (Rltb (max_frac_change * Rabs book) (Rabs (field - book))).
    + destruct (Optics.set_field toCAFromField st quad_id _ "book") as [st1 | e] eqn:H1;
        cbn [bind] in H; [| discriminate H].
      destruct (Optics.set_field toCAFromField st1 quad_id _ "live") as [st2 | e] eqn:H2;
        cbn [bind] in H; [| discriminate H].
      apply set_field_keeps_model in H1 as [Hm1 Hs1]; [| discriminate].
      apply set_field_keeps_model in H2 as [Hm2 Hs2]; [| discriminate].
      apply IH in H as [Hm Hs]. split; congruence.
    + now apply IH in H.
Qed.

Lemma ramp_loop_keeps_model (targets : list (string * R)) (max_frac_change : R)
    (remaining : nat) :
  forall stop st st',
    ramp_loop' remaining stop st targets max_frac_change = Ok st' ->
    model_fields st' = model_fields st /\ shared_power st' = shared_power st.
Proof.
  induction remaining as [| remaining IH]; intros stop st st' H.
  - destruct stop; cbn in H; inversion H; subst; now split.
  - destruct stop; [cbn in H; inversion H; subst; now split |].
    cbn [Optics.ramp_loop] in H.
    destruct (Optics.ramp_pass toCAFromField toFieldFromCA st targets max_frac_change true)
      as [[stop1 st1] | e] eqn:Hpass; cbn [bind fst snd] in H; [| discriminate H].
    apply ramp_pass_keeps_model in Hpass as [Hm1 Hs1].
    apply IH in H as [Hm Hs]. split; congruence.
Qed.

Lemma set_targets_keeps_model (targets : list (string * R)) :
  forall st st',
    set_targets' st targets = Ok st' ->
    model_fields st' = model_fields st /\ shared_power st' = shared_power st.
Proof.
  induction targets as [| [quad_id field] rest IH]; intros st st' H.
  - cbn in H. inversion H; subst. now split.
  - cbn [Optics.set_targets] in H.
    destruct (Optics.set_field toCAFromField st quad_id field "book") as [st1 | e] eqn:H1;
      cbn [bind] in H; [| discriminate H].
    destruct (Optics.set_field toCAFromField st1 quad_id field "live") as [st2 | e] eqn:H2;
      cbn [bind] in H; [| discriminate H].
    apply set_field_keeps_model in H1 as [Hm1 Hs1]; [| discriminate].
    apply set_field_keeps_model in H2 as [Hm2 Hs2]; [| discriminate].
    apply IH in H as [Hm Hs]. split; congruence.
Qed.

Lemma get_field_model_same st st' quad_id :
  model_fields st' = model_fields st ->
  get_field' st' quad_id "model" = get_field' st quad_id "model".
Proof. intros Hm. unfold Optics.get_field. cbn [String.eqb Ascii.eqb Bool.eqb]. now rewrite Hm. Qed.

Lemma get_fields_model_same st st' (quad_ids : list string) :
  model_fields st' = model_fields st ->
  get_fields' st' quad_ids "model" = get_fields' st quad_ids "model".
Proof.
  intros Hm. induction quad_ids as [| q ids IH]; [reflexivity |].
  cbn [Optics.get_fields fold_right] in IH |- *.
  rewrite (get_field_model_same st st' q Hm).
  unfold Optics.get_fields in IH. now rewrite IH.
Qed.

Lemma get_fields_length st opt (quad_ids : list string) :
  forall fields, get_fields' st quad_ids opt = Ok fields ->
                 length quad_ids = length fields.
Proof.
  induction quad_ids as [| q ids IH]; intros fields H.
  - cbn in H. now inversion H.
  - cbn [Optics.get_fields fold_right] in H.
    destruct (Optics.get_field toFieldFromCA st q opt) as [f | e];
      cbn [bind] in H; [| discriminate H].
    fold (get_fields' st ids opt) in H.
    destruct (get_fields' st ids opt) as [rest | e];
      cbn [bind] in H; [| discriminate H].
    inversion H; subst. cbn [length]. f_equal. now apply IH.
Qed.

Lemma get_fields_from st opt (quad_ids : list string) :
  forall fields,
    length quad_ids = length fields ->
    (forall q f, In (q, f) (combine quad_ids fields) -> get_field' st q opt = Ok f) ->
    get_fields' st quad_ids opt = Ok fields.
Proof.
  induction quad_ids as [| q ids IH]; intros [| f fields] Hlen Hall;
    try discriminate Hlen; [reflexivity |].
  cbn [Optics.get_fields fold_right].
  rewrite (Hall q f) by now left. cbn [bind].
  fold (get_fields' st ids opt).
  rewrite (IH fields).
  - reflexivity.
  - now injection Hlen.
  - intros q' f' Hin. apply Hall. now right.
Qed.

End SettledProperties.

(** X14.  A pass of the live ramp reports that the ramp is over exactly
    when every listed magnet is within [max_frac_change] times the
    magnitude of its book value of its target; such a pass changes nothing,
    and from such a state the ramp loop returns the state as it is. *)
Theorem ramp_pass_stops_when_settled
    (toCAFromField toFieldFromCA : string -> R -> R)
    (st : PhaseController) (targets : list (string * R)) (max_frac_change : R) :
  let settled :=
    forall q f, In (q, f) targets ->
      exists book, get_field toFieldFromCA st q "book" = Ok book /\
                   Rabs (f - book) <= max_frac_change * Rabs book in
  (forall st',
     ramp_pass toCAFromField toFieldFromCA st targets max_frac_change true
     = Ok (true, st') -> st' = st /\ settled) /\
  (settled ->
   ramp_pass toCAFromField toFieldFromCA st targets max_frac_change true
   = Ok (true, st) /\
   forall remaining,
     ramp_loop toCAFromField toFieldFromCA remaining false st targets max_frac_change
     = Ok st).
Proof.
  intros settled. split.
  - intros st' H.
    apply ramp_pass_true in H as (_ & Hst & Hs). now split.
  - intros Hs.
    pose proof (ramp_pass_settled_run toCAFromField toFieldFromCA targets
                  max_frac_change st true Hs) as Hrun.
    split; [exact Hrun |].
    intros [| remaining]; [reflexivity |].
    cbn [Optics.ramp_loop]. rewrite Hrun. cbn [bind fst snd].
    destruct remaining; reflexivity.
Qed.

Lemma ramp_pass_stops_when_settled_witness :
  let id := fun (_ : string) (x : R) => x in
  let st := {| live_fields := {["RTBT_Mag:QH02"%string := 100]};
               model_fields := {["RTBT_Mag:QH02"%string := [100]]};
               book_channels := {["RTBT_Mag:QH02"%string := 100]};
               shared_power := empty |} in
  let targets := [("RTBT_Mag:QH02"%string, 100 + 1 / 2)] in
  ramp_pass id id st targets (1 / 100) true = Ok (true, st) /\
  forall remaining, ramp_loop id id remaining false st targets (1 / 100) = Ok st.
Proof.
  intros id st targets.
  apply (ramp_pass_stops_when_settled id id st targets (1 / 100)).
  intros q f [Heq | []]. inversion Heq; subst.
  exists 100. split; [reflexivity |].
  replace (100 + 1 / 2 - 100) with (1 / 2) by lra.
  rewrite !Rabs_right by lra. lra.
Defined.

(** X15.  The ramp cannot move a magnet whose book value is zero: with
    a target other than zero, every pass asks for another pass and leaves
    the book value at zero, and the book value is still zero when the ramp
    loop ends, whatever the number of iterations it is allowed. *)
Theorem ramp_stalls_at_zero
    (toCAFromField toFieldFromCA : string -> R -> R)
    (targets : list (string * R)) (max_frac_change : R)
    (quad_id : string) (field : R) :
  (forall q f, toFieldFromCA q (toCAFromField q f) = f) ->
  NoDup (map fst targets) ->
  In (quad_id, field) targets ->
  field <> 0 ->
  forall st : PhaseController,
    (forall q f, In (q, f) targets -> ready st q) ->
    get_field toFieldFromCA st quad_id "book" = Ok 0 ->
    (exists st1,
       ramp_pass toCAFromField toFieldFromCA st targets max_frac_change true
       = Ok (false, st1) /\
       get_field toFieldFromCA st1 quad_id "book" = Ok 0) /\
    (forall remaining,
       exists st',
         ramp_loop toCAFromField toFieldFromCA remaining false st targets
           max_frac_change = Ok st' /\
         get_field toFieldFromCA st' quad_id "book" = Ok 0).
Proof.
  intros Hinv Hnodup Hin Hfield.
  assert (Hpass : forall st stop,
             (forall q f, In (q, f) targets -> ready st q) ->
             get_field toFieldFromCA st quad_id "book" = Ok 0 ->
             exists st1,
               ramp_pass toCAFromField toFieldFromCA st targets max_frac_change stop
               = Ok (false, st1) /\
               get_field toFieldFromCA st1 quad_id "book" = Ok 0 /\
               (forall q f, In (q, f) targets -> ready st1 q)).
  { intros st stop Hready Hzero.
    destruct (ramp_pass_books toCAFromField toFieldFromCA targets st max_frac_change
                stop Hinv Hnodup Hready) as (stop' & st1 & Hrun & Hbooks & _ & Hkeep).
    assert (Hstop : stop' = false).
    { destruct stop'; [| reflexivity]. exfalso.
      apply ramp_pass_true in Hrun as (_ & _ & Hs).
      destruct (Hs quad_id field Hin) as (book & Hbook & Hclose).
      rewrite Hzero in Hbook. inversion Hbook; subst book.
      rewrite Rabs_R0, Rmult_0_r, Rminus_0_r in Hclose.
      apply Hfield. pose proof (Rabs_pos field) as Hpos.
      destruct (Req_dec field 0) as [H0 | H0]; [exact H0 |].
      apply Rabs_pos_lt in H0. lra. }
    subst stop'. exists st1. split; [exact Hrun |]. split.
    - rewrite (Hbooks quad_id field 0 Hin Hzero). now rewrite ramp_target_zero.
    - intros q f Hqf. apply Hkeep. now apply (Hready q f). }
  intros st Hready Hzero. split.
  - destruct (Hpass st true Hready Hzero) as (st1 & Hrun & Hz & _). now exists st1.
  - intros remaining. revert st Hready Hzero.
    induction remaining as [| remaining IH]; intros st Hready Hzero.
    + exists st. now split.
    + cbn [Optics.ramp_loop].
      destruct (Hpass st true Hready Hzero) as (st1 & Hrun & Hz & Hr).
      rewrite Hrun. cbn [bind fst snd]. now apply IH.
Qed.

Lemma ramp_stalls_at_zero_witness :
  let id := fun (_ : string) (x : R) => x in
  let st := {| live_fields := {["RTBT_Mag:QH02"%string := 0]};
               model_fields := {["RTBT_Mag:QH02"%string := [0]]};
               book_channels := {["RTBT_Mag:QH02"%string := 0]};
               shared_power := empty |} in
  let targets := [("RTBT_Mag:QH02"%string, 5)] in
  (exists st1,
     ramp_pass id id st targets (1 / 100) true = Ok (false, st1) /\
     get_field id st1 "RTBT_Mag:QH02" "book" = Ok 0) /\
  (forall remaining,
     exists st',
       ramp_loop id id remaining false st targets (1 / 100) = Ok st' /\
       get_field id st' "RTBT_Mag:QH02" "book" = Ok 0).
Proof.
  intros id st targets.
  apply (ramp_stalls_at_zero id id targets (1 / 100) "RTBT_Mag:QH02" 5).
  - reflexivity.
  - apply NoDup_singleton.
  - now left.
  - lra.
  - intros q f [Heq | []]. inversion Heq; subst.
    split; exists 0; reflexivity.
  - reflexivity.
Defined.

(** X16.  With calibrations that are inverse to each other and distinct
    independent magnets that are ready, [sync_live_with_model] ends with
    the live and the book value of every independent magnet at its model
    field, and leaves the model as it was. *)
Theorem sync_live_with_model_result
    (toCAFromField toFieldFromCA : string -> R -> R)
    (st : PhaseController) (ind_quad_ids : list string) (fields : list R)
    (max_frac_change : R) (max_iters : Z) :
  (forall q f, toFieldFromCA q (toCAFromField q f) = f) ->
  NoDup ind_quad_ids ->
  (forall q, In q ind_quad_ids -> ready st q) ->
  get_fields toFieldFromCA st ind_quad_ids "model" = Ok fields ->
  exists st',
    sync_live_with_model toCAFromField toFieldFromCA st ind_quad_ids
      max_frac_change max_iters = Ok st' /\
    get_fields toFieldFromCA st' ind_quad_ids "live" = Ok fields /\
    get_fields toFieldFromCA st' ind_quad_ids "book" = Ok fields /\
    get_fields toFieldFromCA st' ind_quad_ids "model" = Ok fields /\
    model_fields st' = model_fields st.
Proof.
  intros Hinv Hnodup Hready Hget.
  pose proof (get_fields_length toFieldFromCA st "model" ind_quad_ids fields Hget) as Hlen.
  pose proof (map_fst_combine ind_quad_ids fields Hlen) as Hkeys.
  assert (Hready' : forall q f, In (q, f) (combine ind_quad_ids fields) -> ready st q).
  { intros q f Hin. apply Hready. rewrite <- Hkeys.
    apply (in_map fst) in Hin. exact Hin. }
  unfold sync_live_with_model. rewrite Hget. cbn [bind].
  unfold set_fields. cbn [String.eqb Ascii.eqb Bool.eqb].
  destruct (ramp_loop_ok toCAFromField toFieldFromCA (Z.to_nat max_iters) false st
              (combine ind_quad_ids fields) max_frac_change Hready')
    as (st1 & Hloop & Hkeep).
  rewrite Hloop. cbn [bind].
  destruct (set_targets_ok toCAFromField (combine ind_quad_ids fields) st1)
    as (st' & Hrun & Hin & _).
  { now rewrite Hkeys. }
  { intros q f Hqf. apply Hkeep. now apply (Hready' q f). }
  apply ramp_loop_keeps_model in Hloop as [Hm1 _].
  pose proof (set_targets_keeps_model toCAFromField _ _ _ Hrun) as [Hm2 _].
  assert (Hm : model_fields st' = model_fields st) by congruence.
  exists st'. split; [exact Hrun |]. split; [| split; [| split]].
  - apply get_fields_from; [exact Hlen |].
    intros q f Hqf. destruct (Hin q f Hqf) as [_ Hl].
    now apply get_field_live.
  - apply get_fields_from; [exact Hlen |].
    intros q f Hqf. destruct (Hin q f Hqf) as [Hb Hl].
    rewrite (get_field_book toFieldFromCA st' q f _ Hl Hb). now rewrite Hinv.
  - now rewrite (get_fields_model_same toFieldFromCA st st' ind_quad_ids Hm).
  - exact Hm.
Qed.

Lemma sync_live_with_model_result_witness :
  let id := fun (_ : string) (x : R) => x in
  let st := {| live_fields := {["RTBT_Mag:QH02"%string := 100]};
               model_fields := {["RTBT_Mag:QH02"%string := [110]]};
               book_channels := {["RTBT_Mag:QH02"%string := 100]};
               shared_power := empty |} in
  let ids := ["RTBT_Mag:QH02"%string] in
  exists st',
    sync_live_with_model id id st ids (1 / 100) 100 = Ok st' /\
    get_fields id st' ids "live" = Ok [110] /\
    get_fields id st' ids "book" = Ok [110] /\
    get_fields id st' ids "model" = Ok [110] /\
    model_fields st' = model_fields st.
Proof.
  intros id st ids.
  apply (sync_live_with_model_result id id st ids [110] (1 / 100) 100).
  - reflexivity.
  - apply NoDup_singleton.
  - intros q [Heq | []]. subst q. split; exists 100; reflexivity.
  - reflexivity.
Defined.

(** ** Fields of the model *)

Section ModelProperties.

Variable toCAFromField : string -> R -> R.
Variable toFieldFromCA : string -> R -> R.

(** The loop over the magnets that share the power supply. *)
Let each (depth : nat) (field : R) :=
  fix each (st : PhaseController) (ids : list string) : result PhaseController :=
    match ids with
    | [] => Ok st
    | dep_quad_id :: ids' =>
        st' <- set_field_model depth st dep_quad_id field ;;
        each st' ids'
    end.

Lemma set_field_model_step depth st quad_id field elems :
  model_fields st !! quad_id = Some elems ->
  set_field_model (S depth) st quad_id field
  = let st1 := with_model st (<[quad_id := map (fun _ => field) elems]> (model_fields st)) in
    match shared_power st !! quad_id with
    | None => Ok st1
    | Some dep_quad_ids => each depth field st1 dep_quad_ids
    end.
Proof. intros Hm. cbn [set_field_model]. rewrite Hm. reflexivity. Qed.

Lemma map_const_twice (field : R) (elems : list R) :
  map (fun _ : R => field) (map (fun _ : R => field) elems)
  = map (fun _ : R => field) elems.
Proof. now rewrite map_map. Qed.

Lemma each_leaves depth field (deps : list string) : forall st,
  (forall d, In d deps ->
     shared_power st !! d = None /\ is_Some (model_fields st !! d)) ->
  exists st',
    each (S depth) field st deps = Ok st' /\
    (forall x, In x deps ->
       model_fields st' !! x = map (fun _ => field) <$> model_fields st !! x) /\
    (forall x, ~ In x deps -> model_fields st' !! x = model_fields st !! x) /\
    live_fields st' = live_fields st /\
    book_channels st' = book_channels st /\
    shared_power st' = shared_power st.
Proof.
  induction deps as [| d ds IH]; intros st Hdeps.
  - exists st. split; [reflexivity |]. split; [intros x [] |]. repeat split.
  - destruct (Hdeps d) as [Hs [elems Hm]]; [now left |].
    change (each (S depth) field st (d :: ds))
      with (st' <- set_field_model (S depth) st d field ;; each (S depth) field st' ds).
    rewrite (set_field_model_step depth st d field elems Hm). cbv zeta.
    rewrite Hs. cbn [bind].
    set (st1 := with_model st _).
    destruct (IH st1) as (st' & Hrun & Hin & Hout & Hl & Hb & Hsp).
    { intros d' Hd'. destruct (Hdeps d') as [Hs' Hm']; [now right |].
      split; [exact Hs' |]. cbn [model_fields st1 with_model].
      apply lookup_insert_is_Some. destruct (decide (d = d')); auto. }
    exists st'. split; [exact Hrun |]. split; [| split; [| repeat split]].
    + intros x Hx.
      destruct (in_dec string_dec x ds) as [Hxs | Hxs].
      * rewrite (Hin x Hxs). cbn [model_fields st1 with_model].
        destruct (decide (d = x)) as [-> | Hne].
        -- rewrite lookup_insert_eq, Hm. cbn. now rewrite map_const_twice.
        -- now rewrite lookup_insert_ne.
      * rewrite (Hout x Hxs). cbn [model_fields st1 with_model].
        destruct Hx as [-> | Hx]; [| contradiction].
        rewrite lookup_insert_eq, Hm. reflexivity.
    + intros x Hx. rewrite (Hout x) by (intros H; apply Hx; now right).
      cbn [model_fields st1 with_model].
      apply lookup_insert_ne. intros ->. apply Hx. now left.
    + exact Hl.
    + exact Hb.
    + exact Hsp.
Qed.

Lemma set_field_model_spreads depth st quad_id field elems :
  model_fields st !! quad_id = Some elems ->
  (forall d, In d (default [] (shared_power st !! quad_id)) ->
     shared_power st !! d = None /\ is_Some (model_fields st !! d)) ->
  exists st',
    set_field_model (S (S depth)) st quad_id field = Ok st' /\
    (forall x, x = quad_id \/ In x (default [] (shared_power st !! quad_id)) ->
       model_fields st' !! x = map (fun _ => field) <$> model_fields st !! x) /\
    (forall x, x <> quad_id -> ~ In x (default [] (shared_power st !! quad_id)) ->
       model_fields st' !! x = model_fields st !! x) /\
    live_fields st' = live_fields st /\
    book_channels st' = book_channels st /\
    shared_power st' = shared_power st.
Proof.
  intros Hm Hdeps.
  rewrite (set_field_model_step (S depth) st quad_id field elems Hm). cbv zeta.
  set (st1 := with_model st _).
  assert (Hq1 : model_fields st1 !! quad_id = Some (map (fun _ => field) elems))
    by (cbn; apply lookup_insert_eq).
  assert (Hx1 : forall x, x <> quad_id -> model_fields st1 !! x = model_fields st !! x).
  { intros x Hx. cbn. now apply lookup_insert_ne. }
  destruct (shared_power st !! quad_id) as [deps |] eqn:Hsp; cbn [default] in *.
  - destruct (each_leaves depth field deps st1) as (st' & Hrun & Hin & Hout & Hl & Hb & Hs).
    { intros d Hd. destruct (Hdeps d Hd) as [Hs' Hm']. split; [exact Hs' |].
      cbn [model_fields st1 with_model].
      apply lookup_insert_is_Some. destruct (decide (quad_id = d)); auto. }
    exists st'. split; [exact Hrun |]. split; [| split; [| repeat split]].
    + intros x Hx.
      destruct (in_dec string_dec x deps) as [Hxd | Hxd].
      * rewrite (Hin x Hxd).
        destruct (decide (x = quad_id)) as [-> | Hne].
        -- rewrite Hq1, Hm. cbn. now rewrite map_const_twice.
        -- now rewrite Hx1.
      * rewrite (Hout x Hxd).
        destruct Hx as [-> | Hx]; [| contradiction].
        now rewrite Hq1, Hm.
    + intros x Hne Hxd. rewrite (Hout x Hxd). now apply Hx1.
    + exact Hl.
    + exact Hb.
    + exact Hs.
  - exists st1. split; [reflexivity |]. split; [| split; [| repeat split]].
    + intros x [-> | []]. now rewrite Hq1, Hm.
    + intros x Hne _. now apply Hx1.
Qed.

End ModelProperties.

(** X17.  Setting the model field of a magnet whose dependents have no
    dependents of their own gives the field to every model element of the
    magnet and of each magnet that shares its power supply, and changes
    nothing else: no other magnet of the model, no live field, no book
    value.  The model field read back from the magnet is the field that was
    set. *)
Theorem set_field_model_propagates
    (toCAFromField toFieldFromCA : string -> R -> R)
    (st : PhaseController) (quad_id : string) (field elem : R) (elems : list R) :
  let dep_quad_ids := default [] (shared_power st !! quad_id) in
  model_fields st !! quad_id = Some (elem :: elems) ->
  (forall d, In d dep_quad_ids ->
     shared_power st !! d = None /\ is_Some (model_fields st !! d)) ->
  exists st',
    set_field toCAFromField st quad_id field "model" = Ok st' /\
    get_field toFieldFromCA st' quad_id "model" = Ok field /\
    (forall x, x = quad_id \/ In x dep_quad_ids ->
       model_fields st' !! x = map (fun _ => field) <$> model_fields st !! x) /\
    (forall x, x <> quad_id -> ~ In x dep_quad_ids ->
       model_fields st' !! x = model_fields st !! x) /\
    live_fields st' = live_fields st /\
    book_channels st' = book_channels st /\
    shared_power st' = shared_power st.
Proof.
  intros deps Hm Hdeps.
  destruct (set_field_model_spreads 998 st quad_id field (elem :: elems) Hm Hdeps)
    as (st' & Hrun & Hin & Hout & Hl & Hb & Hs).
  exists st'. split; [exact Hrun |]. split; [| repeat split; assumption].
  unfold get_field. cbn [String.eqb Ascii.eqb Bool.eqb].
  rewrite (Hin quad_id) by now left. rewrite Hm. reflexivity.
Qed.

Lemma set_field_model_propagates_witness :
  let id := fun (_ : string) (x : R) => x in
  let st := {| live_fields := empty;
               model_fields := {["RTBT_Mag:QH26"%string := [1; 1];
                                 "RTBT_Mag:QH28"%string := [3]]};
               book_channels := empty;
               shared_power := {["RTBT_Mag:QH26"%string := ["RTBT_Mag:QH28"%string]]} |} in
  let dep_quad_ids := default [] (shared_power st !! "RTBT_Mag:QH26"%string) in
  exists st',
    set_field id st "RTBT_Mag:QH26" 2 "model" = Ok st' /\
    get_field id st' "RTBT_Mag:QH26" "model" = Ok 2 /\
    (forall x, x = "RTBT_Mag:QH26"%string \/ In x dep_quad_ids ->
       model_fields st' !! x = map (fun _ => 2) <$> model_fields st !! x) /\
    (forall x, x <> "RTBT_Mag:QH26"%string -> ~ In x dep_quad_ids ->
       model_fields st' !! x = model_fields st !! x) /\
    live_fields st' = live_fields st /\
    book_channels st' = book_channels st /\
    shared_power st' = shared_power st.
Proof.
  intros id st dep_quad_ids.
  apply (set_field_model_propagates id id st "RTBT_Mag:QH26" 2 1 [1]).
  - reflexivity.
  - intros d [<- | []]. split; [reflexivity | exists [3]; reflexivity].
Defined.

(** ** Magnets that share a power supply *)

Lemma fold_left_prefix_invariant {A B : Type} (f : A -> B -> A)
    (P : list B -> A -> Prop) (l : list B) :
  (forall done x rest a, l = done ++ x :: rest -> P done a -> P (done ++ [x]) (f a x)) ->
  forall rest done a, l = done ++ rest -> P done a -> P l (fold_left f rest a).
Proof.
  intros Hstep. induction rest as [| x rest IH]; intros done a Hl HP.
  - cbn. rewrite Hl, app_nil_r. exact HP.
  - cbn [fold_left]. apply (IH (done ++ [x])).
    + rewrite Hl, <- app_assoc. reflexivity.
    + now apply (Hstep done x rest).
Qed.

Lemma fold_left_preserves {A B : Type} (f : A -> B -> A) (P : A -> Prop) :
  forall l : list B,
    (forall a x, In x l -> P a -> P (f a x)) ->
    forall a, P a -> P (fold_left f l a).
Proof.
  induction l as [| x l IH]; intros Hstep a HP; [exact HP |].
  cbn [fold_left]. apply IH.
  - intros a' x' Hin. apply Hstep. now right.
  - apply Hstep; [now left | exact HP].
Qed.

Lemma combine_snoc {A B : Type} (l : list A) : forall (l' : list B) (a : A) (b : B),
  length l = length l' ->
  combine (l ++ [a]) (l' ++ [b]) = combine l l' ++ [(a, b)].
Proof.
  induction l as [| x l IH]; intros [| y l'] a b Hlen; try discriminate Hlen.
  - reflexivity.
  - cbn. f_equal. apply IH. now injection Hlen.
Qed.

Lemma in_combine_partner {A B : Type} (l : list A) : forall (l' : list B) (a : A),
  length l = length l' -> In a l -> exists b, In (a, b) (combine l l').
Proof.
  induction l as [| x l IH]; intros [| y l'] a Hlen Hin; try discriminate Hlen.
  - destruct Hin.
  - destruct Hin as [-> | Hin].
    + exists y. now left.
    + destruct (IH l' a) as [b Hb]; [now injection Hlen | exact Hin |].
      exists b. now right.
Qed.

Lemma in_combine_partner_r {A B : Type} (l : list A) : forall (l' : list B) (b : B),
  length l = length l' -> In b l' -> exists a, In (a, b) (combine l l').
Proof.
  induction l as [| x l IH]; intros [| y l'] b Hlen Hin; try discriminate Hlen.
  - destruct Hin.
  - destruct Hin as [-> | Hin].
    + exists x. now left.
    + destruct (IH l' b) as [a Ha]; [now injection Hlen | exact Hin |].
      exists a. now right.
Qed.

Lemma NoDup_left_functional {A B : Type} (l : list A) : forall (l' : list B) a b b',
  NoDup l -> In (a, b) (combine l l') -> In (a, b') (combine l l') -> b = b'.
Proof.
  induction l as [| x l IH]; intros [| y l'] a b b' Hnd H1 H2;
    try destruct H1.
  all: apply NoDup_cons in Hnd as [Hx Hnd].
  all: destruct H2 as [H2 | H2].
  - congruence.
  - exfalso. apply Hx. apply list_elem_of_In.
    inversion H; subst. now apply in_combine_l in H2.
  - exfalso. apply Hx. apply list_elem_of_In.
    inversion H2; subst. now apply in_combine_l in H.
  - now apply (IH l' a).
Qed.

Lemma NoDup_right_functional {A B : Type} (l : list A) : forall (l' : list B) a a' b,
  NoDup l' -> In (a, b) (combine l l') -> In (a', b) (combine l l') -> a = a'.
Proof.
  induction l as [| x l IH]; intros [| y l'] a a' b Hnd H1 H2;
    try destruct H1.
  all: apply NoDup_cons in Hnd as [Hy Hnd].
  all: destruct H2 as [H2 | H2].
  - congruence.
  - exfalso. apply Hy. apply list_elem_of_In.
    inversion H; subst. now apply in_combine_r in H2.
  - exfalso. apply Hy. apply list_elem_of_In.
    inversion H2; subst. now apply in_combine_r in H.
  - now apply (IH l' a a' b).
Qed.

Lemma NoDup_from_partner {A B : Type} (l : list A) : forall l' : list B,
  NoDup l' -> length l = length l' ->
  (forall a b b', In (a, b) (combine l l') -> In (a, b') (combine l l') -> b = b') ->
  NoDup l.
Proof.
  induction l as [| x l IH]; intros [| y l'] Hnd Hlen Hfun;
    try discriminate Hlen; [apply NoDup_nil_2 |].
  apply NoDup_cons in Hnd as [Hy Hnd].
  apply NoDup_cons. split.
  - intros Hx. apply list_elem_of_In in Hx.
    destruct (in_combine_partner l l' x) as [y' Hxy]; [now injection Hlen | exact Hx |].
    assert (y = y') by (apply (Hfun x); [now left | now right]).
    subst y'. apply Hy. apply list_elem_of_In. now apply in_combine_r in Hxy.
  - apply (IH l' Hnd); [now injection Hlen |].
    intros a b b' Hb Hb'. apply (Hfun a); now right.
Qed.

(** What the first loop keeps: one magnet for every power supply. *)
Lemma init_independent_invariant (quad_ids ps_ids : list string) :
  let ind := init_independent quad_ids ps_ids in
  length (fst ind) = length (snd ind) /\
  NoDup (snd ind) /\
  (forall k ps, In (k, ps) (combine (fst ind) (snd ind)) ->
     In (k, ps) (combine quad_ids ps_ids)) /\
  (forall q ps, In (q, ps) (combine quad_ids ps_ids) -> In ps (snd ind)).
Proof.
  unfold init_independent.
  set (pairs := combine quad_ids ps_ids).
  set (f := fun (acc : list string * list string) (node : string * string) => _).
  apply (fold_left_prefix_invariant f
           (fun done ind =>
              length (fst ind) = length (snd ind) /\
              NoDup (snd ind) /\
              (forall k ps, In (k, ps) (combine (fst ind) (snd ind)) -> In (k, ps) pairs) /\
              (forall q ps, In (q, ps) done -> In ps (snd ind)))
           pairs) with (done := []).
  - intros done [q ps] rest [iq ip] Hl (Hlen & Hnd & Hsub & Hall).
    cbn [fst snd] in *. unfold f.
    destruct (existsb (String.eqb ps) ip) eqn:Hex; cbn [fst snd].
    + split; [exact Hlen |]. split; [exact Hnd |]. split; [exact Hsub |].
      intros q' ps' Hin. apply in_app_or in Hin as [Hin | [Heq | []]].
      * now apply (Hall q').
      * inversion Heq; subst q' ps'.
        apply existsb_exists in Hex as (ps' & Hps' & Heqb).
        apply String.eqb_eq in Heqb. now subst ps'.
    + assert (Hnot : ~ In ps ip).
      { intros Hin. apply Bool.not_true_iff_false in Hex. apply Hex.
        apply existsb_exists. exists ps. split; [exact Hin | apply String.eqb_refl]. }
      split; [rewrite !length_app; cbn; lia |]. split; [| split].
      * apply NoDup_app. split; [exact Hnd |]. split; [| apply NoDup_singleton].
        intros x Hx Hx'. apply list_elem_of_In in Hx.
        apply list_elem_of_In in Hx'. destruct Hx' as [<- | []]. contradiction.
      * intros k ps' Hin. rewrite combine_snoc in Hin by exact Hlen.
        apply in_app_or in Hin as [Hin | [Heq | []]].
        -- now apply Hsub.
        -- inversion Heq; subst k ps'. rewrite Hl. apply in_or_app. right. now left.
      * intros q' ps' Hin. apply in_or_app.
        apply in_app_or in Hin as [Hin | [Heq | []]].
        -- left. now apply (Hall q').
        -- inversion Heq; subst. right. now left.
  - reflexivity.
  - cbn. split; [reflexivity |]. split; [apply NoDup_nil_2 |].
    split; intros ? ? [].
Qed.

(** What the second loop records: under an independent magnet, other
    magnets on the same supply. *)
Lemma init_shared_power_invariant (quad_ids ps_ids ind_quad_ids ind_ps_ids : list string) :
  forall k deps,
    init_shared_power quad_ids ps_ids ind_quad_ids ind_ps_ids !! k = Some deps ->
    In k ind_quad_ids /\
    forall d, In d deps ->
      exists ps, In (d, ps) (combine quad_ids ps_ids) /\
                 In (k, ps) (combine ind_quad_ids ind_ps_ids) /\
                 d <> k.
Proof.
  unfold init_shared_power.
  set (pairs := combine quad_ids ps_ids).
  set (inds := combine ind_quad_ids ind_ps_ids).
  set (P := fun shared : gmap string (list string) =>
              forall k deps, shared !! k = Some deps ->
                In k ind_quad_ids /\
                forall d, In d deps ->
                  exists ps, In (d, ps) pairs /\ In (k, ps) inds /\ d <> k).
  change (P (fold_left
               (fun (shared : gmap string (list string)) (node : string * string) =>
                  let '(quad_id, ps_id) := node in
                  fold_left
                    (fun (shared : gmap string (list string)) (ind : string * string) =>
                       let '(ind_quad_id, ind_ps_id) := ind in
                       if String.eqb ps_id ind_ps_id && negb (String.eqb quad_id ind_quad_id)
                       then <[ind_quad_id :=
                                default [] (shared !! ind_quad_id) ++ [quad_id]]> shared
                       else shared) inds shared) pairs empty)).
  apply fold_left_preserves.
  - intros shared [q ps] Hq HP.
    apply fold_left_preserves; [| exact HP].
    intros shared' [iq ip] Hi HP'.
    destruct (String.eqb ps ip && negb (String.eqb q iq)) eqn:Hcond; [| exact HP'].
    apply andb_prop in Hcond as [Hps Hne].
    apply String.eqb_eq in Hps. subst ip.
    apply Bool.negb_true_iff, String.eqb_neq in Hne.
    intros k deps Hk.
    destruct (decide (iq = k)) as [-> | Hother].
    + rewrite lookup_insert_eq in Hk. inversion Hk; subst deps.
      split; [now apply in_combine_l in Hi |].
      intros d Hd. apply in_app_or in Hd as [Hd | [<- | []]].
      * destruct (shared' !! k) as [old |] eqn:Hold; cbn [default] in Hd; [| destruct Hd].
        destruct (HP' k old Hold) as [_ Hdeps]. now apply Hdeps.
      * exists ps. repeat split; assumption.
    + rewrite lookup_insert_ne in Hk by exact Hother. now apply HP'.
  - intros k deps Hk. rewrite lookup_empty in Hk. discriminate Hk.
Qed.

Lemma fold_left_establishes {A B : Type} (f : A -> B -> A) (Q : A -> Prop) (x : B) :
  (forall a, Q (f a x)) ->
  (forall a y, Q a -> Q (f a y)) ->
  forall l : list B, In x l -> forall a, Q (fold_left f l a).
Proof.
  intros Hx Hkeep. induction l as [| y l IH]; intros Hin a; [destruct Hin |].
  cbn [fold_left]. destruct Hin as [-> | Hin].
  - apply fold_left_preserves; [intros; now apply Hkeep | apply Hx].
  - now apply IH.
Qed.

(** The second loop misses no magnet: a magnet on the supply of an
    independent magnet other than itself is recorded under it. *)
Lemma init_shared_power_complete (quad_ids ps_ids ind_quad_ids ind_ps_ids : list string) :
  forall q k ps,
    In (q, ps) (combine quad_ids ps_ids) ->
    In (k, ps) (combine ind_quad_ids ind_ps_ids) ->
    q <> k ->
    exists deps,
      init_shared_power quad_ids ps_ids ind_quad_ids ind_ps_ids !! k = Some deps /\
      In q deps.
Proof.
  intros q k ps Hq Hk Hne. unfold init_shared_power.
  set (Q := fun shared : gmap string (list string) =>
              exists deps, shared !! k = Some deps /\ In q deps).
  set (inner := fun (node : string * string) (shared : gmap string (list string))
                    (ind : string * string) =>
                  let '(quad_id, ps_id) := node in
                  let '(ind_quad_id, ind_ps_id) := ind in
                  if String.eqb ps_id ind_ps_id && negb (String.eqb quad_id ind_quad_id)
                  then <[ind_quad_id :=
                           default [] (shared !! ind_quad_id) ++ [quad_id]]> shared
                  else shared).
  assert (Hkeep : forall node shared ind, Q shared -> Q (inner node shared ind)).
  { intros [q' ps'] shared [iq ip] (deps & Hdeps & Hin). unfold inner.
    destruct (String.eqb ps' ip && negb (String.eqb q' iq)); [| now exists deps].
    destruct (decide (iq = k)) as [-> | Hother].
    - exists (deps ++ [q']). rewrite lookup_insert_eq, Hdeps. cbn [default].
      split; [reflexivity |]. apply in_or_app. now left.
    - exists deps. now rewrite lookup_insert_ne. }
  change (Q (fold_left
               (fun (shared : gmap string (list string)) (node : string * string) =>
                  let '(quad_id, ps_id) := node in
                  fold_left (inner (quad_id, ps_id))
                    (combine ind_quad_ids ind_ps_ids) shared)
               (combine quad_ids ps_ids) empty)).
  apply (fold_left_establishes _ Q (q, ps)); [| | exact Hq].
  - intros shared.
    apply (fold_left_establishes _ Q (k, ps)); [| | exact Hk].
    + intros shared'. unfold inner.
      rewrite String.eqb_refl.
      apply String.eqb_neq in Hne. rewrite Hne. cbn [negb andb].
      exists (default [] (shared' !! k) ++ [q]). rewrite lookup_insert_eq.
      split; [reflexivity |]. apply in_or_app. right. now left.
    + intros shared' ind. apply Hkeep.
  - intros shared [q' ps'] HQ.
    apply fold_left_preserves; [| exact HQ].
    intros shared' ind _. apply Hkeep.
Qed.

(** X18.  For magnets with distinct ids, the two loops of [__init__]
    keep one independent magnet for every power supply, and record under an
    independent magnet only magnets of the sequence that are on its supply
    and are not independent themselves: no magnet listed as sharing power
    has an entry of its own.  Every magnet that is not independent is
    recorded under the independent magnet of its supply. *)
Theorem init_shared_power_structure (quad_ids ps_ids : list string) :
  NoDup quad_ids ->
  let ind_quad_ids := fst (init_independent quad_ids ps_ids) in
  let ind_ps_ids := snd (init_independent quad_ids ps_ids) in
  let shared := init_shared_power quad_ids ps_ids ind_quad_ids ind_ps_ids in
  length ind_quad_ids = length ind_ps_ids /\
  NoDup ind_ps_ids /\
  NoDup ind_quad_ids /\
  (forall q ps, In (q, ps) (combine quad_ids ps_ids) -> In ps ind_ps_ids) /\
  (forall k ps, In (k, ps) (combine ind_quad_ids ind_ps_ids) ->
     In (k, ps) (combine quad_ids ps_ids)) /\
  (forall k deps, shared !! k = Some deps ->
     In k ind_quad_ids /\
     forall d, In d deps ->
       In d quad_ids /\ ~ In d ind_quad_ids /\ shared !! d = None /\
       exists ps, In (d, ps) (combine quad_ids ps_ids) /\
                  In (k, ps) (combine ind_quad_ids ind_ps_ids)) /\
  (forall q ps, In (q, ps) (combine quad_ids ps_ids) -> ~ In q ind_quad_ids ->
     exists k deps, In (k, ps) (combine ind_quad_ids ind_ps_ids) /\
                    shared !! k = Some deps /\ In q deps).
Proof.
  intros Hnodup iq ip shared.
  destruct (init_independent_invariant quad_ids ps_ids) as (Hlen & Hnd & Hsub & Hall).
  fold iq ip in Hlen, Hnd, Hsub, Hall.
  assert (Hdep : forall k d ps,
             In (d, ps) (combine quad_ids ps_ids) -> In (k, ps) (combine iq ip) ->
             d <> k -> ~ In d iq).
  { intros k d ps Hd Hk Hne Hin.
    destruct (in_combine_partner iq ip d Hlen Hin) as [ps' Hd'].
    pose proof (NoDup_left_functional quad_ids ps_ids d ps ps' Hnodup Hd
                  (Hsub d ps' Hd')) as Heq.
    subst ps'. apply Hne.
    now apply (NoDup_right_functional iq ip d k ps Hnd). }
  split; [exact Hlen |]. split; [exact Hnd |]. split; [| split; [exact Hall |]].
  - apply (NoDup_from_partner iq ip Hnd Hlen).
    intros a b b' Hb Hb'.
    exact (NoDup_left_functional quad_ids ps_ids a b b' Hnodup (Hsub a b Hb) (Hsub a b' Hb')).
  - split; [exact Hsub |]. split; [| intros q ps Hq Hnot].
    2: { destruct (in_combine_partner_r iq ip ps Hlen (Hall q ps Hq)) as [k Hk].
         assert (Hne : q <> k).
         { intros ->. apply Hnot. now apply in_combine_l in Hk. }
         destruct (init_shared_power_complete quad_ids ps_ids iq ip q k ps Hq Hk Hne)
           as (deps & Hdeps & Hin).
         exists k, deps. now repeat split. }
    intros k deps Hk.
    destruct (init_shared_power_invariant quad_ids ps_ids iq ip k deps Hk) as [Hkin Hdeps].
    split; [exact Hkin |].
    intros d Hd. destruct (Hdeps d Hd) as (ps & Hdp & Hkp & Hne).
    assert (Hnot : ~ In d iq) by now apply (Hdep k d ps).
    split; [now apply in_combine_l in Hdp |]. split; [exact Hnot |]. split.
    + destruct (shared !! d) as [deps' |] eqn:Hd'; [| reflexivity].
      exfalso. apply Hnot.
      now destruct (init_shared_power_invariant quad_ids ps_ids iq ip d deps' Hd').
    + exists ps. now split.
Qed.

Lemma init_shared_power_structure_witness :
  let quad_ids := ["RTBT_Mag:QH26"; "RTBT_Mag:QV27"; "RTBT_Mag:QH28"]%string in
  let ps_ids := ["RTBT_Mag:PS_QH26a28"; "RTBT_Mag:PS_QV27"; "RTBT_Mag:PS_QH26a28"]%string in
  let ind_quad_ids := fst (init_independent quad_ids ps_ids) in
  let ind_ps_ids := snd (init_independent quad_ids ps_ids) in
  let shared := init_shared_power quad_ids ps_ids ind_quad_ids ind_ps_ids in
  length ind_quad_ids = length ind_ps_ids /\
  NoDup ind_ps_ids /\
  NoDup ind_quad_ids /\
  (forall q ps, In (q, ps) (combine quad_ids ps_ids) -> In ps ind_ps_ids) /\
  (forall k ps, In (k, ps) (combine ind_quad_ids ind_ps_ids) ->
     In (k, ps) (combine quad_ids ps_ids)) /\
  (forall k deps, shared !! k = Some deps ->
     In k ind_quad_ids /\
     forall d, In d deps ->
       In d quad_ids /\ ~ In d ind_quad_ids /\ shared !! d = None /\
       exists ps, In (d, ps) (combine quad_ids ps_ids) /\
                  In (k, ps) (combine ind_quad_ids ind_ps_ids)) /\
  (forall q ps, In (q, ps) (combine quad_ids ps_ids) -> ~ In q ind_quad_ids ->
     exists k deps, In (k, ps) (combine ind_quad_ids ind_ps_ids) /\
                    shared !! k = Some deps /\ In q deps).
Proof.
  intros quad_ids ps_ids.
  apply (init_shared_power_structure quad_ids ps_ids).
  apply (bool_decide_unpack _). vm_compute. reflexivity.
Defined.

(** ** Saving and restoring the model *)

Section ModelRoundTrip.

Variables toCAFromField toFieldFromCA : string -> R -> R.

Abbreviation get_field' := (get_field toFieldFromCA).
Abbreviation get_fields' := (get_fields toFieldFromCA).
Abbreviation set_field' := (set_field toCAFromField).
Abbreviation set_model_targets' := (set_model_targets toCAFromField).

Lemma get_field_model_lookup st st' quad_id :
  model_fields st' !! quad_id = model_fields st !! quad_id ->
  get_field' st' quad_id "model" = get_field' st quad_id "model".
Proof.
  intros H. unfold Optics.get_field. cbn [String.eqb Ascii.eqb Bool.eqb].
  now rewrite H.
Qed.

Lemma set_field_model_ready st (quad_ids : list string) quad_id field :
  model_ready st quad_ids -> In quad_id quad_ids ->
  exists st',
    set_field' st quad_id field "model" = Ok st' /\
    model_ready st' quad_ids /\
    get_field' st' quad_id "model" = Ok field /\
    (forall x, In x quad_ids -> x <> quad_id ->
       get_field' st' x "model" = get_field' st x "model") /\
    live_fields st' = live_fields st /\
    book_channels st' = book_channels st /\
    shared_power st' = shared_power st.
Proof.
  intros [Helems Hshared] Hq.
  destruct (Helems quad_id Hq) as (elem & elems & Hm).
  assert (Hdeps : forall d, In d (default [] (shared_power st !! quad_id)) ->
                    ~ In d quad_ids /\ shared_power st !! d = None /\
                    is_Some (model_fields st !! d)).
  { intros d Hd. destruct (shared_power st !! quad_id) as [deps |] eqn:Hsp;
      cbn [default] in Hd; [| destruct Hd].
    now apply (Hshared quad_id deps). }
  destruct (set_field_model_spreads 998 st quad_id field (elem :: elems) Hm)
    as (st' & Hrun & Hin & Hout & Hl & Hb & Hs).
  { intros d Hd. now destruct (Hdeps d Hd) as (_ & ? & ?). }
  exists st'. split; [exact Hrun |]. clear Hrun.
  assert (Hsome : forall x, is_Some (model_fields st !! x) ->
                    is_Some (model_fields st' !! x)).
  { intros x [l Hx].
    destruct (decide (x = quad_id)) as [-> | Hne];
      [| destruct (in_dec string_dec x (default [] (shared_power st !! quad_id)))].
    - rewrite (Hin quad_id) by (left; reflexivity). rewrite Hx. eexists. reflexivity.
    - rewrite (Hin x) by (right; assumption). rewrite Hx. eexists. reflexivity.
    - rewrite (Hout x) by assumption. rewrite Hx. eexists. reflexivity. }
  split; [| split; [| split; [| repeat split]]].
  - split.
    + intros q Hq'. destruct (Helems q Hq') as (e & es & Hqm).
      destruct (decide (q = quad_id)) as [-> | Hne].
      * rewrite (Hin quad_id) by (left; reflexivity). rewrite Hqm. cbn.
        eexists _, _. reflexivity.
      * rewrite (Hout q).
        -- exists e, es. exact Hqm.
        -- exact Hne.
        -- intros Hd. destruct (Hdeps q Hd) as [Hnot _]. contradiction.
    + rewrite Hs. intros k deps Hk d Hd.
      destruct (Hshared k deps Hk d Hd) as (Hnot & Hnone & Hsm).
      split; [exact Hnot |]. split; [exact Hnone |]. now apply Hsome.
  - unfold Optics.get_field. cbn [String.eqb Ascii.eqb Bool.eqb].
    rewrite (Hin quad_id) by (left; reflexivity). rewrite Hm. reflexivity.
  - intros x Hx Hne. apply get_field_model_lookup. apply Hout; [exact Hne |].
    intros Hd. destruct (Hdeps x Hd) as [Hnot _]. contradiction.
  - exact Hl.
  - exact Hb.
  - exact Hs.
Qed.

Lemma set_model_targets_ok (quad_ids : list string) (targets : list (string * R)) :
  forall st,
    model_ready st quad_ids ->
    (forall q f, In (q, f) targets -> In q quad_ids) ->
    exists st',
      set_model_targets' st targets = Ok st' /\
      model_ready st' quad_ids /\
      (NoDup (map fst targets) ->
       forall q f, In (q, f) targets -> get_field' st' q "model" = Ok f) /\
      (forall x, In x quad_ids -> ~ In x (map fst targets) ->
         get_field' st' x "model" = get_field' st x "model") /\
      live_fields st' = live_fields st /\
      book_channels st' = book_channels st /\
      shared_power st' = shared_power st.
Proof.
  induction targets as [| [quad_id field] rest IH]; intros st Hready Hkeys.
  - exists st. split; [reflexivity |]. split; [exact Hready |].
    split; [intros _ q f [] |]. repeat split.
  - cbn [Optics.set_model_targets].
    destruct (set_field_model_ready st quad_ids quad_id field Hready)
      as (st1 & Hrun1 & Hready1 & Hget1 & Hother1 & Hl1 & Hb1 & Hs1).
    { apply (Hkeys quad_id field). now left. }
    rewrite Hrun1. cbn [bind].
    destruct (IH st1 Hready1) as (st' & Hrun & Hready' & Hin & Hout & Hl & Hb & Hs).
    { intros q f Hqf. apply (Hkeys q f). now right. }
    exists st'. split; [exact Hrun |]. split; [exact Hready' |].
    split; [| split; [| repeat split; congruence]].
    + intros Hnodup q f Hqf. cbn [map fst] in Hnodup.
      apply NoDup_cons in Hnodup as [Hnotin Hnodup].
      destruct Hqf as [Heq | Hqf].
      * inversion Heq; subst q f. rewrite Hout; [exact Hget1 | |].
        -- apply (Hkeys quad_id field). now left.
        -- intros H. apply Hnotin. now apply list_elem_of_In.
      * now apply Hin.
    + intros x Hx Hnot. cbn [map fst] in Hnot.
      rewrite Hout; [| exact Hx | intros H; apply Hnot; now right].
      apply Hother1; [exact Hx |]. intros ->. apply Hnot. now left.
Qed.

Lemma get_fields_model_ok st (quad_ids : list string) :
  (forall q, In q quad_ids ->
     exists elem elems, model_fields st !! q = Some (elem :: elems)) ->
  exists fields, get_fields' st quad_ids "model" = Ok fields.
Proof.
  induction quad_ids as [| q ids IH]; intros Helems.
  - now exists [].
  - destruct (Helems q) as (e & es & Hm); [now left |].
    destruct IH as [rest Hrest]; [intros q' Hq'; apply Helems; now right |].
    exists (e :: rest). cbn [Optics.get_fields fold_right].
    fold (get_fields' st ids "model"). rewrite Hrest.
    unfold Optics.get_field. cbn [String.eqb Ascii.eqb Bool.eqb]. now rewrite Hm.
Qed.

Lemma set_fields_model_ok st (quad_ids : list string) (fields : list R)
    (max_frac_change : R) (max_iters : Z) :
  model_ready st quad_ids ->
  exists st',
    set_fields toCAFromField toFieldFromCA st quad_ids fields "model"
      max_frac_change max_iters = Ok st' /\
    model_ready st' quad_ids /\
    (NoDup quad_ids -> length quad_ids = length fields ->
     get_fields' st' quad_ids "model" = Ok fields) /\
    live_fields st' = live_fields st /\
    book_channels st' = book_channels st /\
    shared_power st' = shared_power st.
Proof.
  intros Hready. unfold Optics.set_fields. cbn [String.eqb Ascii.eqb Bool.eqb].
  destruct (set_model_targets_ok quad_ids (combine quad_ids fields) st Hready)
    as (st' & Hrun & Hready' & Hin & _ & Hl & Hb & Hs).
  { intros q f Hqf. now apply in_combine_l in Hqf. }
  exists st'. split; [exact Hrun |]. split; [exact Hready' |].
  split; [| repeat split; assumption].
  intros Hnodup Hlen.
  apply get_fields_from; [exact Hlen |].
  apply Hin. now rewrite (map_fst_combine quad_ids fields Hlen).
Qed.

End ModelRoundTrip.

(** X19.  For distinct magnets that the model can be set for,
    [set_fields] in ['model'] mode raises nothing, the model fields read
    back with [get_fields] are the fields that were given, and no live
    field and no book value has changed. *)
Theorem set_fields_model_round_trip
    (toCAFromField toFieldFromCA : string -> R -> R)
    (st : PhaseController) (quad_ids : list string) (fields : list R)
    (max_frac_change : R) (max_iters : Z) :
  model_ready st quad_ids ->
  NoDup quad_ids ->
  length quad_ids = length fields ->
  exists st',
    set_fields toCAFromField toFieldFromCA st quad_ids fields "model"
      max_frac_change max_iters = Ok st' /\
    get_fields toFieldFromCA st' quad_ids "model" = Ok fields /\
    live_fields st' = live_fields st /\
    book_channels st' = book_channels st /\
    shared_power st' = shared_power st.
Proof.
  intros Hready Hnodup Hlen.
  destruct (set_fields_model_ok toCAFromField toFieldFromCA st quad_ids fields
              max_frac_change max_iters Hready)
    as (st' & Hrun & _ & Hget & Hl & Hb & Hs).
  exists st'. split; [exact Hrun |]. split; [now apply Hget |].
  repeat split; assumption.
Qed.

Lemma model_ready_example :
  let st := {| live_fields := empty;
               model_fields := {["RTBT_Mag:QH26"%string := [1; 1];
                                 "RTBT_Mag:QH28"%string := [3]]};
               book_channels := empty;
               shared_power := {["RTBT_Mag:QH26"%string := ["RTBT_Mag:QH28"%string]]} |} in
  model_ready st ["RTBT_Mag:QH26"%string].
Proof.
  intros st. split.
  - intros q [<- | []]. now exists 1, [1].
  - intros k deps Hk d Hd. cbn [shared_power st] in Hk.
    apply lookup_singleton_Some in Hk as [<- <-].
    destruct Hd as [<- | []].
    split; [intros [H | []]; discriminate H |].
    split; [reflexivity | exists [3]; reflexivity].
Qed.

Lemma set_fields_model_round_trip_witness :
  let id := fun (_ : string) (x : R) => x in
  let st := {| live_fields := empty;
               model_fields := {["RTBT_Mag:QH26"%string := [1; 1];
                                 "RTBT_Mag:QH28"%string := [3]]};
               book_channels := empty;
               shared_power := {["RTBT_Mag:QH26"%string := ["RTBT_Mag:QH28"%string]]} |} in
  exists st',
    set_fields id id st ["RTBT_Mag:QH26"%string] [2] "model" (1 / 100) 100 = Ok st' /\
    get_fields id st' ["RTBT_Mag:QH26"%string] "model" = Ok [2] /\
    live_fields st' = live_fields st /\
    book_channels st' = book_channels st /\
    shared_power st' = shared_power st.
Proof.
  intros id st.
  apply (set_fields_model_round_trip id id st ["RTBT_Mag:QH26"%string] [2]).
  - apply model_ready_example.
  - apply NoDup_singleton.
  - reflexivity.
Defined.

(** X20.  The first lines of [get_phases_for_scan], for distinct
    independent magnets that the model can be set for: they raise nothing
    when the phases can be read; the phases they give are read off the
    trajectory that was stored before, whatever the default fields are; and
    afterwards [get_fields] gives the model fields of the independent
    magnets as before, with the live fields and the book values
    unchanged. *)
Theorem scan_default_phases_restores_model
    (toCAFromField toFieldFromCA : string -> R -> R)
    (Trajectory : Type) (phases : Trajectory -> string -> result (R * R))
    (st : PhaseController) (trajectory : Trajectory)
    (ind_quad_ids : list string) (default_fields : list R) (ref_ws_id : string)
    (mu : R * R) :
  model_ready st ind_quad_ids ->
  NoDup ind_quad_ids ->
  phases trajectory ref_ws_id = Ok mu ->
  exists st',
    scan_default_phases toCAFromField toFieldFromCA Trajectory phases st trajectory
      ind_quad_ids default_fields ref_ws_id = Ok (mu, st') /\
    get_fields toFieldFromCA st' ind_quad_ids "model"
    = get_fields toFieldFromCA st ind_quad_ids "model" /\
    live_fields st' = live_fields st /\
    book_channels st' = book_channels st /\
    shared_power st' = shared_power st.
Proof.
  intros Hready Hnodup Hphases.
  destruct (get_fields_model_ok toFieldFromCA st ind_quad_ids (proj1 Hready))
    as [fields Hget].
  pose proof (get_fields_length toFieldFromCA st "model" ind_quad_ids fields Hget) as Hlen.
  unfold scan_default_phases, restore_default_optics.
  rewrite Hget. cbn [bind].
  destruct (set_fields_model_ok toCAFromField toFieldFromCA st ind_quad_ids
              default_fields (1 / 100) 100 Hready)
    as (st1 & Hrun1 & Hready1 & _ & Hl1 & Hb1 & Hs1).
  rewrite Hrun1. cbn [bind]. rewrite Hphases. cbn [bind].
  destruct (set_fields_model_ok toCAFromField toFieldFromCA st1 ind_quad_ids
              fields (1 / 100) 100 Hready1)
    as (st2 & Hrun2 & _ & Hget2 & Hl2 & Hb2 & Hs2).
  rewrite Hrun2. cbn [bind].
  exists st2. split; [reflexivity |]. split; [now rewrite Hget2 |].
  repeat split; congruence.
Qed.

Lemma scan_default_phases_restores_model_witness :
  let id := fun (_ : string) (x : R) => x in
  let st := {| live_fields := empty;
               model_fields := {["RTBT_Mag:QH26"%string := [1; 1];
                                 "RTBT_Mag:QH28"%string := [3]]};
               book_channels := empty;
               shared_power := {["RTBT_Mag:QH26"%string := ["RTBT_Mag:QH28"%string]]} |} in
  let phases := fun (trajectory : R * R) (_ : string) => Ok trajectory in
  exists st',
    scan_default_phases id id (R * R) phases st (1, 2) ["RTBT_Mag:QH26"%string] [5]
      "RTBT_Diag:WS24" = Ok ((1, 2), st') /\
    get_fields id st' ["RTBT_Mag:QH26"%string] "model"
    = get_fields id st ["RTBT_Mag:QH26"%string] "model" /\
    live_fields st' = live_fields st /\
    book_channels st' = book_channels st /\
    shared_power st' = shared_power st.
Proof.
  intros id st phases.
  apply (scan_default_phases_restores_model id id (R * R) phases st (1, 2)
           ["RTBT_Mag:QH26"%string] [5] "RTBT_Diag:WS24" (1, 2)).
  - apply model_ready_example.
  - apply NoDup_singleton.
  - reflexivity.
Defined.

(** ** Phases modulo a turn *)

Lemma put_angle_in_range_shift (angle shift : R) :
  put_angle_in_range (put_angle_in_range angle + shift)
  = put_angle_in_range (angle + shift).
Proof.
  apply (put_angle_in_range_turns _ _
           (Int_part ((angle + shift) / (2 * PI)) - Int_part (angle / (2 * PI)))).
  - unfold put_angle_in_range. rewrite minus_IZR. ring.
  - apply put_angle_in_range_bounds.
Qed.

(** With or without a wrap, the phases are evenly spaced modulo a turn. *)
Lemma phase_run_mod (k : nat) (step : R) : forall (mu : R) (i : nat),
  0 <= mu < 2 * PI -> (i <= k)%nat ->
  nth i (phase_run k step mu) 0 = put_angle_in_range (mu + INR i * step).
Proof.
  induction k as [| k IH]; intros mu i Hmu Hi.
  - replace i with 0%nat by lia. cbn [phase_run nth INR].
    rewrite Rmult_0_l, Rplus_0_r. symmetry. now apply put_angle_in_range_id.
  - cbn [phase_run]. destruct i as [| i].
    + cbn [nth INR]. rewrite Rmult_0_l, Rplus_0_r. symmetry.
      now apply put_angle_in_range_id.
    + cbn [nth]. rewrite IH by (try apply put_angle_in_range_bounds; lia).
      rewrite put_angle_in_range_shift, S_INR. f_equal. ring.
Qed.

Lemma wrapped_distance_ahead (mu r : R) :
  0 <= mu < 2 * PI -> 0 <= r <= PI ->
  let d := Rabs (put_angle_in_range (mu + r) - mu) in
  Rmin d (2 * PI - d) = r.
Proof.
  intros Hmu Hr d. pose proof PI_bounds as HPI. unfold d.
  destruct (Rlt_dec (mu + r) (2 * PI)) as [Hin | Hout].
  - rewrite put_angle_in_range_id by lra.
    rewrite (Rabs_value (mu + r - mu) r) by lra.
    apply Rmin_left. lra.
  - rewrite (put_angle_in_range_turns (mu + r) (mu + r - 2 * PI) 1) by lra.
    rewrite (Rabs_value (mu + r - 2 * PI - mu) (2 * PI - r)) by lra.
    rewrite Rmin_right by lra. lra.
Qed.

Lemma wrapped_distance_behind (mu r : R) :
  0 <= mu < 2 * PI -> 0 <= r <= PI ->
  let d := Rabs (put_angle_in_range (mu - r) - mu) in
  Rmin d (2 * PI - d) = r.
Proof.
  intros Hmu Hr d. pose proof PI_bounds as HPI. unfold d.
  destruct (Rle_dec 0 (mu - r)) as [Hin | Hout].
  - rewrite put_angle_in_range_id by lra.
    rewrite (Rabs_value (mu - r - mu) r) by lra.
    apply Rmin_left. lra.
  - rewrite (put_angle_in_range_turns (mu - r) (mu - r + 2 * PI) (-1)) by lra.
    rewrite (Rabs_value (mu - r + 2 * PI - mu) (2 * PI - r)) by lra.
    rewrite Rmin_right by lra. lra.
Qed.

(** The range between two phases that are [r] apart, modulo a turn. *)
Lemma lin_phase_range_mod (mu_min mu_max r : R) (n : Z) :
  (2 <= n)%Z -> 0 <= mu_min < 2 * PI -> 0 <= r <= PI ->
  mu_max = put_angle_in_range (mu_min + r) \/
  mu_max = put_angle_in_range (mu_min - r) ->
  exists phases,
    lin_phase_range mu_min mu_max n true = Ok phases /\
    length phases = Z.to_nat n /\
    forall k, (k < Z.to_nat n)%nat ->
      nth k phases 0 = put_angle_in_range (mu_min + INR k * (r / (IZR n - 1))).
Proof.
  intros Hn Hmu Hr Hmax.
  eexists. split; [now apply lin_phase_range_run |].
  split; [rewrite phase_run_length; lia |].
  intros k Hk.
  assert (Hd : Rmin (Rabs (mu_max - mu_min)) (2 * PI - Rabs (mu_max - mu_min)) = r).
  { destruct Hmax as [-> | ->].
    - now apply wrapped_distance_ahead.
    - now apply wrapped_distance_behind. }
  rewrite Hd, minus_IZR.
  apply phase_run_mod; [exact Hmu | lia].
Qed.

Lemma half_turn_apart (mu r : R) :
  0 < r < PI -> put_angle_in_range (mu + r) <> put_angle_in_range (mu - r).
Proof.
  intros Hr Heq. pose proof PI_bounds as HPI.
  unfold put_angle_in_range in Heq.
  set (K := Int_part ((mu + r) / (2 * PI))) in Heq.
  set (K' := Int_part ((mu - r) / (2 * PI))) in Heq.
  assert (Hm : r = IZR (K - K') * PI) by (rewrite minus_IZR; lra).
  assert (Hlo : 0 < IZR (K - K')) by nra.
  assert (Hhi : IZR (K - K') < 1) by nra.
  apply lt_IZR in Hlo. apply lt_IZR in Hhi. lia.
Qed.

Lemma scan_range_end (n : Z) (r : R) :
  (2 <= n)%Z -> INR (Z.to_nat n - 1) * (r / (IZR n - 1)) = r.
Proof.
  intros Hn.
  assert (Hpos : 0 < IZR n - 1).
  { rewrite <- minus_IZR. apply IZR_lt. lia. }
  rewrite minus_INR by lia. rewrite INR_IZR_INZ, Z2Nat.id by lia.
  cbn [INR]. field. lra.
Qed.

(** X21.  [lin_phase_range] always steps upward.  For [mu_min] in
    [[0, 2 pi)] and a phase [mu_max] that lies [r <= pi] ahead of it or
    behind it, modulo a turn, the range is the same: its phase number [k] is
    [mu_min + k r / (n - 1)] wrapped into [[0, 2 pi)].  It ends at [mu_max]
    when [mu_max] lies ahead; when [mu_max] lies behind by less than half a
    turn, the range does not reach it. *)
Theorem lin_phase_range_steps_upward (mu_min mu_max r : R) (n : Z) :
  (2 <= n)%Z -> 0 <= mu_min < 2 * PI -> 0 <= r <= PI ->
  mu_max = put_angle_in_range (mu_min + r) \/
  mu_max = put_angle_in_range (mu_min - r) ->
  exists phases,
    lin_phase_range mu_min mu_max n true = Ok phases /\
    length phases = Z.to_nat n /\
    (forall k, (k < Z.to_nat n)%nat ->
       nth k phases 0 = put_angle_in_range (mu_min + INR k * (r / (IZR n - 1)))) /\
    (mu_max = put_angle_in_range (mu_min + r) ->
     nth (Z.to_nat n - 1) phases 0 = mu_max) /\
    (mu_max = put_angle_in_range (mu_min - r) -> 0 < r < PI ->
     nth (Z.to_nat n - 1) phases 0 <> mu_max).
Proof.
  intros Hn Hmu Hr Hmax.
  destruct (lin_phase_range_mod mu_min mu_max r n Hn Hmu Hr Hmax)
    as (phases & Hrun & Hlen & Hnth).
  exists phases. split; [exact Hrun |]. split; [exact Hlen |].
  split; [exact Hnth |].
  assert (Hlast : nth (Z.to_nat n - 1) phases 0 = put_angle_in_range (mu_min + r)).
  { rewrite Hnth by lia. now rewrite scan_range_end. }
  split.
  - intros ->. exact Hlast.
  - intros -> Hr'. rewrite Hlast. now apply half_turn_apart.
Qed.

Lemma lin_phase_range_steps_upward_witness :
  exists phases,
    lin_phase_range 2 (put_angle_in_range (2 - 1)) 3 true = Ok phases /\
    length phases = Z.to_nat 3 /\
    (forall k, (k < Z.to_nat 3)%nat ->
       nth k phases 0 = put_angle_in_range (2 + INR k * (1 / (IZR 3 - 1)))) /\
    (put_angle_in_range (2 - 1) = put_angle_in_range (2 + 1) ->
     nth (Z.to_nat 3 - 1) phases 0 = put_angle_in_range (2 - 1)) /\
    (put_angle_in_range (2 - 1) = put_angle_in_range (2 - 1) -> 0 < 1 < PI ->
     nth (Z.to_nat 3 - 1) phases 0 <> put_angle_in_range (2 - 1)).
Proof.
  pose proof PI_bounds as HPI.
  apply (lin_phase_range_steps_upward 2 (put_angle_in_range (2 - 1)) 1 3).
  - lia.
  - lra.
  - lra.
  - right. reflexivity.
Defined.

(** The phases of a scan of type 1, modulo a turn. *)
Lemma scan_phases_mod (mux0 muy0 phase_coverage : R) (n : Z) :
  (2 <= n)%Z -> 0 <= phase_coverage <= 180 ->
  let half := radians phase_coverage / 2 in
  let step := radians phase_coverage / (IZR n - 1) in
  exists phases,
    get_phases_for_scan mux0 muy0 phase_coverage n 1 = Ok phases /\
    length phases = Z.to_nat n /\
    forall k, (k < Z.to_nat n)%nat ->
      nth k phases (0, 0)
      = (put_angle_in_range (mux0 - half + INR k * step),
         put_angle_in_range (muy0 + half - INR k * step)).
Proof.
  intros Hn Hc half step. pose proof PI_bounds as HPI.
  assert (Hr : 0 <= radians phase_coverage <= PI) by (unfold radians; nra).
  unfold get_phases_for_scan. change (1 =? 1)%Z with true. cbv iota.
  subst half step. set (r := radians phase_coverage) in *. clearbody r.
  destruct (lin_phase_range_mod (put_angle_in_range (mux0 - 1 / 2 * r))
              (put_angle_in_range (mux0 + 1 / 2 * r)) r n Hn)
    as (xs & Hxs & Hlenx & Hnthx);
    [apply put_angle_in_range_bounds | exact Hr | |].
  { left. rewrite put_angle_in_range_shift. f_equal. lra. }
  destruct (lin_phase_range_mod (put_angle_in_range (muy0 - 1 / 2 * r))
              (put_angle_in_range (muy0 + 1 / 2 * r)) r n Hn)
    as (ys & Hys & Hleny & Hnthy);
    [apply put_angle_in_range_bounds | exact Hr | |].
  { left. rewrite put_angle_in_range_shift. f_equal. lra. }
  rewrite Hxs, Hys. cbn [bind].
  eexists. split; [reflexivity |].
  split.
  { rewrite length_combine, length_rev, Hlenx, Hleny. lia. }
  intros k Hk.
  rewrite combine_nth by (rewrite length_rev; lia).
  rewrite rev_nth by lia.
  rewrite Hnthx by exact Hk. rewrite Hnthy by lia.
  rewrite !put_angle_in_range_shift.
  assert (Hpos : 0 < IZR n - 1).
  { rewrite <- minus_IZR. apply IZR_lt. lia. }
  assert (Hidx : INR (length ys - S k) = IZR n - 1 - INR k).
  { rewrite Hleny. rewrite minus_INR by lia.
    rewrite S_INR, INR_IZR_INZ, Z2Nat.id by lia. lra. }
  rewrite Hidx. f_equal; f_equal; field; lra.
Qed.

(** X22.  For every pair of default phases, a coverage of at most 180
    degrees and [n >= 2] steps, a scan of type 1 returns [n] pairs: modulo
    a turn, the x phases step up evenly from [mux0 - c/2] to [mux0 + c/2]
    and the y phases step down evenly from [muy0 + c/2] to [muy0 - c/2],
    each wrapped into [[0, 2 pi)]. *)
Theorem get_phases_for_scan_modular (mux0 muy0 phase_coverage : R) (n : Z) :
  (2 <= n)%Z -> 0 <= phase_coverage <= 180 ->
  let half := radians phase_coverage / 2 in
  let step := radians phase_coverage / (IZR n - 1) in
  exists phases,
    get_phases_for_scan mux0 muy0 phase_coverage n 1 = Ok phases /\
    length phases = Z.to_nat n /\
    forall k, (k < Z.to_nat n)%nat ->
      nth k phases (0, 0)
      = (put_angle_in_range (mux0 - half + INR k * step),
         put_angle_in_range (muy0 + half - INR k * step)).
Proof.
  intros Hn Hc half step. pose proof PI_bounds as HPI.
  assert (Hr : 0 <= radians phase_coverage <= PI) by (unfold radians; nra).
  unfold get_phases_for_scan. change (1 =? 1)%Z with true. cbv iota.
  subst half step. set (r := radians phase_coverage) in *. clearbody r.
  destruct (lin_phase_range_mod (put_angle_in_range (mux0 - 1 / 2 * r))
              (put_angle_in_range (mux0 + 1 / 2 * r)) r n Hn)
    as (xs & Hxs & Hlenx & Hnthx);
    [apply put_angle_in_range_bounds | exact Hr | |].
  { left. rewrite put_angle_in_range_shift. f_equal. lra. }
  destruct (lin_phase_range_mod (put_angle_in_range (muy0 - 1 / 2 * r))
              (put_angle_in_range (muy0 + 1 / 2 * r)) r n Hn)
    as (ys & Hys & Hleny & Hnthy);
    [apply put_angle_in_range_bounds | exact Hr | |].
  { left. rewrite put_angle_in_range_shift. f_equal. lra. }
  rewrite Hxs, Hys. cbn [bind].
  eexists. split; [reflexivity |].
  split.
  { rewrite length_combine, length_rev, Hlenx, Hleny. lia. }
  intros k Hk.
  rewrite combine_nth by (rewrite length_rev; lia).
  rewrite rev_nth by lia.
  rewrite Hnthx by exact Hk. rewrite Hnthy by lia.
  rewrite !put_angle_in_range_shift.
  assert (Hpos : 0 < IZR n - 1).
  { rewrite <- minus_IZR. apply IZR_lt. lia. }
  assert (Hidx : INR (length ys - S k) = IZR n - 1 - INR k).
  { rewrite Hleny. rewrite minus_INR by lia.
    rewrite S_INR, INR_IZR_INZ, Z2Nat.id by lia. lra. }
  rewrite Hidx. f_equal; f_equal; field; lra.
Qed.

Lemma get_phases_for_scan_modular_witness :
  let half := radians 180 / 2 in
  let step := radians 180 / (IZR 6 - 1) in
  exists phases,
    get_phases_for_scan 0 0 180 6 1 = Ok phases /\
    length phases = Z.to_nat 6 /\
    forall k, (k < Z.to_nat 6)%nat ->
      nth k phases (0, 0)
      = (put_angle_in_range (0 - half + INR k * step),
         put_angle_in_range (0 + half - INR k * step)).
Proof.
  apply (get_phases_for_scan_modular 0 0 180 6); [lia | lra].
Defined.

(** X23.  A scan of type 2 has [n = n_steps // 2] pairs in which the x
    phase steps, modulo a turn, from [mux0 - c/2] to [mux0 + c/2] beside
    the default y phase, and then [n] pairs in which the y phase steps from
    [muy0 - c/2] to [muy0 + c/2] beside the default x phase: [2 n] pairs,
    one fewer than [n_steps] when that is odd.  With two or three steps it
    divides by zero, and a scan type other than 1 and 2 ends in
    [UnboundLocalError]. *)
Theorem get_phases_for_scan_halves (mux0 muy0 phase_coverage : R) (n_steps : Z) :
  0 <= phase_coverage <= 180 ->
  let n := (n_steps / 2)%Z in
  let half := radians phase_coverage / 2 in
  let step := radians phase_coverage / (IZR n - 1) in
  (n_steps = 2%Z \/ n_steps = 3%Z ->
   get_phases_for_scan mux0 muy0 phase_coverage n_steps 2 = Err ZeroDivisionError) /\
  ((4 <= n_steps)%Z ->
   exists phases,
     get_phases_for_scan mux0 muy0 phase_coverage n_steps 2 = Ok phases /\
     length phases = (2 * Z.to_nat n)%nat /\
     forall k, (k < Z.to_nat n)%nat ->
       nth k phases (0, 0)
       = (put_angle_in_range (mux0 - half + INR k * step), muy0) /\
       nth (Z.to_nat n + k) phases (0, 0)
       = (mux0, put_angle_in_range (muy0 - half + INR k * step))) /\
  (forall scan_type, scan_type <> 1%Z -> scan_type <> 2%Z ->
     get_phases_for_scan mux0 muy0 phase_coverage n_steps scan_type
     = Err (UnboundLocalError "phases_x")).
Proof.
  intros Hc n half step. pose proof PI_bounds as HPI.
  assert (Hr : 0 <= radians phase_coverage <= PI) by (unfold radians; nra).
  split; [| split].
  - intros Hn. unfold get_phases_for_scan. change (2 =? 1)%Z with false.
    change (2 =? 2)%Z with true. cbv iota.
    assert (Hone : (n_steps / 2 = 1)%Z) by (destruct Hn as [-> | ->]; reflexivity).
    rewrite Hone. unfold lin_phase_range. change (1 - 1)%Z with 0%Z.
    rewrite py_div_zero. reflexivity.
  - intros Hn4.
    assert (Hn : (2 <= n)%Z) by (unfold n; apply Z.div_le_lower_bound; lia).
    unfold get_phases_for_scan. change (2 =? 1)%Z with false.
    change (2 =? 2)%Z with true. cbv iota. fold n.
    subst half step. set (r := radians phase_coverage) in *. clearbody r.
    destruct (lin_phase_range_mod (put_angle_in_range (mux0 - 1 / 2 * r))
                (put_angle_in_range (mux0 + 1 / 2 * r)) r n Hn)
      as (xs & Hxs & Hlenx & Hnthx);
      [apply put_angle_in_range_bounds | exact Hr | |].
    { left. rewrite put_angle_in_range_shift. f_equal. lra. }
    destruct (lin_phase_range_mod (put_angle_in_range (muy0 - 1 / 2 * r))
                (put_angle_in_range (muy0 + 1 / 2 * r)) r n Hn)
      as (ys & Hys & Hleny & Hnthy);
      [apply put_angle_in_range_bounds | exact Hr | |].
    { left. rewrite put_angle_in_range_shift. f_equal. lra. }
    rewrite Hxs, Hys. cbn [bind].
    eexists. split; [reflexivity |].
    split.
    { rewrite length_combine, !length_app, !repeat_length, Hlenx, Hleny. lia. }
    intros k Hk. split.
    + rewrite combine_nth by (rewrite !length_app, !repeat_length; lia).
      rewrite app_nth1 by lia.
      rewrite app_nth1 by (rewrite repeat_length; lia).
      rewrite Hnthx by exact Hk. rewrite put_angle_in_range_shift.
      f_equal.
      * f_equal. lra.
      * apply nth_repeat_lt. exact Hk.
    + rewrite combine_nth by (rewrite !length_app, !repeat_length; lia).
      rewrite app_nth2 by lia.
      rewrite app_nth2 by (rewrite repeat_length; lia).
      rewrite repeat_length, Hlenx.
      replace (Z.to_nat n + k - Z.to_nat n)%nat with k by lia.
      rewrite Hnthy by exact Hk. rewrite put_angle_in_range_shift.
      f_equal.
      * apply nth_repeat_lt. exact Hk.
      * f_equal. lra.
  - intros scan_type H1 H2. unfold get_phases_for_scan.
    apply Z.eqb_neq in H1, H2. now rewrite H1, H2.
Qed.

Lemma get_phases_for_scan_halves_witness :
  let n := (7 / 2)%Z in
  let half := radians 90 / 2 in
  let step := radians 90 / (IZR n - 1) in
  exists phases,
    get_phases_for_scan 1 2 90 7 2 = Ok phases /\
    length phases = (2 * Z.to_nat n)%nat /\
    forall k, (k < Z.to_nat n)%nat ->
      nth k phases (0, 0)
      = (put_angle_in_range (1 - half + INR k * step), 2) /\
      nth (Z.to_nat n + k) phases (0, 0)
      = (1, put_angle_in_range (2 - half + INR k * step)).
Proof.
  apply (get_phases_for_scan_halves 1 2 90 7); [lra | lia].
Defined.

(** ** The scan of type 1 *)

Lemma scan_index_le (n : Z) (k : nat) :
  (2 <= n)%Z -> (k < Z.to_nat n)%nat -> 0 <= INR k <= IZR n - 1.
Proof.
  intros Hn Hk. split; [apply pos_INR |].
  replace (IZR n - 1) with (INR (Z.to_nat n - 1)).
  - apply le_INR. lia.
  - rewrite minus_INR by lia. rewrite INR_IZR_INZ, Z2Nat.id by lia.
    cbn [INR]. lra.
Qed.

(** C3, amended.  For every pair of default phases, every coverage [c]
    of at most 180 degrees and every [n >= 2], a scan of type 1 returns [n]
    pairs.  The x phases start at [mux0 - c/2] and end at [mux0 + c/2],
    each the one before plus the step [c / (n - 1)]; the y phases start at
    [muy0 + c/2] and end at [muy0 - c/2], each the one before minus the
    step: seen from [muy0], the y phases are the x phases seen from
    [mux0], in reverse order.  All this holds modulo a turn, each phase
    being wrapped into [[0, 2 pi)]; where a window does not cross zero no
    phase is wrapped, and the x phases increase while the y phases
    decrease as plain numbers. *)
Theorem get_phases_for_scan_sweep (mux0 muy0 phase_coverage : R) (n : Z) :
  (2 <= n)%Z -> 0 <= phase_coverage <= 180 ->
  let half := radians phase_coverage / 2 in
  let step := radians phase_coverage / (IZR n - 1) in
  exists phases,
    get_phases_for_scan mux0 muy0 phase_coverage n 1 = Ok phases /\
    length phases = Z.to_nat n /\
    (forall k, (k < Z.to_nat n)%nat ->
       nth k phases (0, 0)
       = (put_angle_in_range (mux0 - half + INR k * step),
          put_angle_in_range (muy0 + half - INR k * step))) /\
    nth 0 phases (0, 0)
    = (put_angle_in_range (mux0 - half), put_angle_in_range (muy0 + half)) /\
    nth (Z.to_nat n - 1) phases (0, 0)
    = (put_angle_in_range (mux0 + half), put_angle_in_range (muy0 - half)) /\
    (forall k, (S k < Z.to_nat n)%nat ->
       fst (nth (S k) phases (0, 0))
       = put_angle_in_range (fst (nth k phases (0, 0)) + step) /\
       snd (nth (S k) phases (0, 0))
       = put_angle_in_range (snd (nth k phases (0, 0)) - step)) /\
    (forall k, (k < Z.to_nat n)%nat ->
       put_angle_in_range (snd (nth k phases (0, 0)) - muy0)
       = put_angle_in_range (fst (nth (Z.to_nat n - 1 - k) phases (0, 0)) - mux0)) /\
    (0 <= mux0 - half -> mux0 + half < 2 * PI ->
     forall k, (k < Z.to_nat n)%nat ->
       fst (nth k phases (0, 0)) = mux0 - half + INR k * step /\
       ((S k < Z.to_nat n)%nat ->
        fst (nth k phases (0, 0)) <= fst (nth (S k) phases (0, 0)))) /\
    (0 <= muy0 - half -> muy0 + half < 2 * PI ->
     forall k, (k < Z.to_nat n)%nat ->
       snd (nth k phases (0, 0)) = muy0 + half - INR k * step /\
       ((S k < Z.to_nat n)%nat ->
        snd (nth (S k) phases (0, 0)) <= snd (nth k phases (0, 0)))).
Proof.
  intros Hn Hc half step. pose proof PI_bounds as HPI.
  destruct (scan_phases_mod mux0 muy0 phase_coverage n Hn Hc)
    as (phases & Hrun & Hlen & Hnth).
  fold half step in Hnth.
  assert (Hpos : 0 < IZR n - 1).
  { rewrite <- minus_IZR. apply IZR_lt. lia. }
  assert (Hstep : 0 <= step).
  { unfold step, radians. apply Rmult_le_pos; [nra |].
    left. now apply Rinv_0_lt_compat. }
  assert (Hfull : (IZR n - 1) * step = 2 * half).
  { unfold step, half. field. lra. }
  assert (Hlast : INR (Z.to_nat n - 1) = IZR n - 1).
  { rewrite minus_INR by lia. rewrite INR_IZR_INZ, Z2Nat.id by lia.
    cbn [INR]. lra. }
  assert (Hspan : forall k, (k < Z.to_nat n)%nat -> 0 <= INR k * step <= 2 * half).
  { intros k Hk. destruct (scan_index_le n k Hn Hk) as [Hk0 Hk1]. nra. }
  exists phases. split; [exact Hrun |]. split; [exact Hlen |].
  split; [exact Hnth |].
  split; [| split; [| split; [| split; [| split]]]].
  - rewrite Hnth by lia. cbn [INR]. f_equal; f_equal; lra.
  - rewrite Hnth by lia. rewrite Hlast. f_equal; f_equal; lra.
  - intros k Hk. rewrite (Hnth (S k) Hk), (Hnth k) by lia. cbn [fst snd].
    rewrite S_INR. split.
    + rewrite put_angle_in_range_shift. f_equal. lra.
    + replace (put_angle_in_range (muy0 + half - INR k * step) - step)
        with (put_angle_in_range (muy0 + half - INR k * step) + - step) by lra.
      rewrite put_angle_in_range_shift. f_equal. lra.
  - intros k Hk.
    rewrite (Hnth k Hk), (Hnth (Z.to_nat n - 1 - k)%nat) by lia. cbn [fst snd].
    assert (Hidx : INR (Z.to_nat n - 1 - k) = IZR n - 1 - INR k).
    { rewrite minus_INR by lia. rewrite Hlast. reflexivity. }
    rewrite Hidx.
    replace (put_angle_in_range (muy0 + half - INR k * step) - muy0)
      with (put_angle_in_range (muy0 + half - INR k * step) + - muy0) by lra.
    replace (put_angle_in_range (mux0 - half + (IZR n - 1 - INR k) * step) - mux0)
      with (put_angle_in_range (mux0 - half + (IZR n - 1 - INR k) * step) + - mux0)
      by lra.
    rewrite !put_angle_in_range_shift. f_equal. nra.
  - intros Hx0 Hx1.
    assert (Hplain : forall k, (k < Z.to_nat n)%nat ->
              fst (nth k phases (0, 0)) = mux0 - half + INR k * step).
    { intros k Hk. rewrite (Hnth k Hk). cbn [fst].
      apply put_angle_in_range_id. specialize (Hspan k Hk). lra. }
    intros k Hk. split; [now apply Hplain |].
    intros Hk'. rewrite (Hplain k Hk), (Hplain (S k) Hk'), S_INR. nra.
  - intros Hy0 Hy1.
    assert (Hplain : forall k, (k < Z.to_nat n)%nat ->
              snd (nth k phases (0, 0)) = muy0 + half - INR k * step).
    { intros k Hk. rewrite (Hnth k Hk). cbn [snd].
      apply put_angle_in_range_id. specialize (Hspan k Hk). lra. }
    intros k Hk. split; [now apply Hplain |].
    intros Hk'. rewrite (Hplain k Hk), (Hplain (S k) Hk'), S_INR. nra.
Qed.

Lemma get_phases_for_scan_sweep_witness :
  let half := radians 180 / 2 in
  let step := radians 180 / (IZR 6 - 1) in
  exists phases,
    get_phases_for_scan (PI / 4) 3 180 6 1 = Ok phases /\
    length phases = Z.to_nat 6 /\
    (forall k, (k < Z.to_nat 6)%nat ->
       nth k phases (0, 0)
       = (put_angle_in_range (PI / 4 - half + INR k * step),
          put_angle_in_range (3 + half - INR k * step))) /\
    nth 0 phases (0, 0)
    = (put_angle_in_range (PI / 4 - half), put_angle_in_range (3 + half)) /\
    nth (Z.to_nat 6 - 1) phases (0, 0)
    = (put_angle_in_range (PI / 4 + half), put_angle_in_range (3 - half)) /\
    (forall k, (S k < Z.to_nat 6)%nat ->
       fst (nth (S k) phases (0, 0))
       = put_angle_in_range (fst (nth k phases (0, 0)) + step) /\
       snd (nth (S k) phases (0, 0))
       = put_angle_in_range (snd (nth k phases (0, 0)) - step)) /\
    (forall k, (k < Z.to_nat 6)%nat ->
       put_angle_in_range (snd (nth k phases (0, 0)) - 3)
       = put_angle_in_range (fst (nth (Z.to_nat 6 - 1 - k) phases (0, 0)) - PI / 4)) /\
    (0 <= PI / 4 - half -> PI / 4 + half < 2 * PI ->
     forall k, (k < Z.to_nat 6)%nat ->
       fst (nth k phases (0, 0)) = PI / 4 - half + INR k * step /\
       ((S k < Z.to_nat 6)%nat ->
        fst (nth k phases (0, 0)) <= fst (nth (S k) phases (0, 0)))) /\
    (0 <= 3 - half -> 3 + half < 2 * PI ->
     forall k, (k < Z.to_nat 6)%nat ->
       snd (nth k phases (0, 0)) = 3 + half - INR k * step /\
       ((S k < Z.to_nat 6)%nat ->
        snd (nth (S k) phases (0, 0)) <= snd (nth k phases (0, 0)))).
Proof.
  apply (get_phases_for_scan_sweep (PI / 4) 3 180 6); [lia | lra].
Defined.

(** ** The normalization matrix and the uncoupled beam *)

Ltac entries_compute :=
  cbv - [Rplus Rmult Rminus Ropp Rdiv Rinv IZR sqrt Rabs].

Lemma normalization_matrix_value (alpha_x alpha_y beta_x beta_y : R) :
  0 < beta_x -> 0 < beta_y ->
  reconstruct_locals.normalization_matrix alpha_x alpha_y beta_x beta_y
  = Ok [[sqrt beta_x; 0; 0; 0];
        [- alpha_x / sqrt beta_x; 1 / sqrt beta_x; 0; 0];
        [0; 0; sqrt beta_y; 0];
        [0; 0; - alpha_y / sqrt beta_y; 1 / sqrt beta_y]].
Proof.
  intros Hx Hy. unfold reconstruct_locals.normalization_matrix.
  pose proof (sqrt_lt_R0 beta_x Hx). pose proof (sqrt_lt_R0 beta_y Hy).
  rewrite !py_sqrt_ok by lra. cbn [bind].
  rewrite !py_div_ok by lra. cbn [bind].
  reflexivity.
Qed.

Lemma congruence_symmetric
    (m00 m01 m02 m03 m10 m11 m12 m13 m20 m21 m22 m23 m30 m31 m32 m33 : R)
    (eps_1 eps_2 : R) :
  let M := [[m00; m01; m02; m03]; [m10; m11; m12; m13];
            [m20; m21; m22; m23]; [m30; m31; m32; m33]] in
  symmetric4 (times M (times (diagonal_matrix [eps_1; eps_1; eps_2; eps_2])
                         (transpose M))).
Proof.
  intros M i j Hi Hj.
  destruct i as [| [| [| [| i]]]]; try lia;
    destruct j as [| [| [| [| j]]]]; try lia;
    entries_compute; ring.
Qed.

Lemma times_4x4 (A B : Matrix) :
  length A = 4%nat -> length B = 4%nat ->
  Forall (fun row => length row = 4%nat) A ->
  Forall (fun row => length row = 4%nat) B ->
  exists m00 m01 m02 m03 m10 m11 m12 m13 m20 m21 m22 m23 m30 m31 m32 m33,
    times A B = [[m00; m01; m02; m03]; [m10; m11; m12; m13];
                 [m20; m21; m22; m23]; [m30; m31; m32; m33]].
Proof.
  intros HA HB HrA HrB.
  destruct A as [| a0 [| a1 [| a2 [| a3 [| ? ?]]]]]; try discriminate HA.
  destruct B as [| b0 [| b1 [| b2 [| b3 [| ? ?]]]]]; try discriminate HB.
  inversion HrB as [| ? ? Hb0 HrB1]; subst.
  destruct b0 as [| ? [| ? [| ? [| ? [| ? ?]]]]]; try discriminate Hb0.
  unfold times, ncols. cbn [hd length seq map].
  repeat eexists.
Qed.

(** X24.  The matrix of [V_matrix_uncoupled] is the matrix [V] that
    [get_cov] builds, with the same errors.  Without coupling
    ([a = b = c = 0]) and for positive beta functions and emittances,
    [get_cov] returns a symmetric matrix without cross-plane terms from
    which [twiss2D] and [apparent_emittances] give back the Twiss parameters
    and the emittances that went in. *)
Theorem get_cov_uncoupled_round_trip
    (eps_1 eps_2 alpha_x alpha_y beta_x beta_y : R) :
  V_matrix_uncoupled alpha_x alpha_y beta_x beta_y
  = reconstruct_locals.normalization_matrix alpha_x alpha_y beta_x beta_y /\
  (0 < beta_x -> 0 < beta_y -> 0 < eps_1 -> 0 < eps_2 ->
   exists S,
     reconstruct_locals.get_cov eps_1 eps_2 alpha_x alpha_y beta_x beta_y 0 0 0 = Ok S /\
     symmetric4 S /\
     get S 0 2 = 0 /\ get S 0 3 = 0 /\ get S 1 2 = 0 /\ get S 1 3 = 0 /\
     twiss2D S = Ok (alpha_x, alpha_y, beta_x, beta_y) /\
     apparent_emittances S = Ok (eps_1, eps_2)).
Proof.
  split.
  - unfold V_matrix_uncoupled, reconstruct_locals.normalization_matrix.
    destruct (py_sqrt beta_x) as [sx | e]; cbn [bind]; [| reflexivity].
    destruct (py_div (- alpha_x) sx) as [v10 | e]; cbn [bind]; [| reflexivity].
    destruct (py_div 1 sx) as [v11 | e]; cbn [bind]; [| reflexivity].
    destruct (py_sqrt beta_y) as [sy | e]; cbn [bind]; [| reflexivity].
    destruct (py_div (- alpha_y) sy) as [v32 | e]; cbn [bind]; [| reflexivity].
    destruct (py_div 1 sy) as [v33 | e]; cbn [bind]; reflexivity.
  - intros Hx Hy H1 H2.
    pose proof (sqrt_lt_R0 beta_x Hx) as Hsx.
    pose proof (sqrt_lt_R0 beta_y Hy) as Hsy.
    pose proof (sqrt_sqrt beta_x (Rlt_le _ _ Hx)) as Hbx.
    pose proof (sqrt_sqrt beta_y (Rlt_le _ _ Hy)) as Hby.
    unfold reconstruct_locals.get_cov.
    rewrite normalization_matrix_value by assumption. cbn [bind].
    rewrite coupling_d_zero by auto. cbn [bind].
    set (sx := sqrt beta_x) in *. set (sy := sqrt beta_y) in *.
    clearbody sx sy.
    eexists. split; [reflexivity |].
    split.
    { destruct (times_4x4
                  [[sx; 0; 0; 0]; [- alpha_x / sx; 1 / sx; 0; 0];
                   [0; 0; sy; 0]; [0; 0; - alpha_y / sy; 1 / sy]]
                  (reconstruct_locals.coupling_matrix 0 0 0 0))
        as (m00 & m01 & m02 & m03 & m10 & m11 & m12 & m13 & m20 & m21 & m22 & m23
            & m30 & m31 & m32 & m33 & HM);
        try reflexivity; try (repeat constructor).
      rewrite HM. apply congruence_symmetric. }
    assert (Hdx : forall e, 0 < e ->
              sx * (e * sx) * (- alpha_x / sx * (e * (- alpha_x / sx))
                               + 1 / sx * (e * (1 / sx)))
              - (sx * (e * (- alpha_x / sx))) ^ 2 = e * e)
      by (intros e He; field; lra).
    assert (Hdy : forall e, 0 < e ->
              sy * (e * sy) * (- alpha_y / sy * (e * (- alpha_y / sy))
                               + 1 / sy * (e * (1 / sy)))
              - (sy * (e * (- alpha_y / sy))) ^ 2 = e * e)
      by (intros e He; field; lra).
    assert (Happ : forall S : Matrix,
              get S 0 0 = eps_1 * beta_x -> get S 0 1 = - alpha_x * eps_1 ->
              get S 1 1 = eps_1 * (1 + alpha_x * alpha_x) / beta_x ->
              get S 2 2 = eps_2 * beta_y -> get S 2 3 = - alpha_y * eps_2 ->
              get S 3 3 = eps_2 * (1 + alpha_y * alpha_y) / beta_y ->
              apparent_emittances S = Ok (eps_1, eps_2)).
    { intros S H00 H01 H11 H22 H23 H33. unfold apparent_emittances.
      rewrite H00, H01, H11, H22, H23, H33.
      replace (eps_1 * beta_x * (eps_1 * (1 + alpha_x * alpha_x) / beta_x)
               - (- alpha_x * eps_1) ^ 2) with (eps_1 * eps_1) by (field; lra).
      replace (eps_2 * beta_y * (eps_2 * (1 + alpha_y * alpha_y) / beta_y)
               - (- alpha_y * eps_2) ^ 2) with (eps_2 * eps_2) by (field; lra).
      rewrite !py_sqrt_ok by nra. cbn [bind].
      rewrite !sqrt_square by lra. reflexivity. }
    set (S := times _ _).
    assert (H00 : get S 0 0 = eps_1 * beta_x)
      by (unfold S; entries_compute; rewrite <- Hbx; ring).
    assert (H01 : get S 0 1 = - alpha_x * eps_1)
      by (unfold S; entries_compute; field; lra).
    assert (H11 : get S 1 1 = eps_1 * (1 + alpha_x * alpha_x) / beta_x)
      by (unfold S; entries_compute; rewrite <- Hbx; field; lra).
    assert (H22 : get S 2 2 = eps_2 * beta_y)
      by (unfold S; entries_compute; rewrite <- Hby; ring).
    assert (H23 : get S 2 3 = - alpha_y * eps_2)
      by (unfold S; entries_compute; field; lra).
    assert (H33 : get S 3 3 = eps_2 * (1 + alpha_y * alpha_y) / beta_y)
      by (unfold S; entries_compute; rewrite <- Hby; field; lra).
    split; [unfold S; entries_compute; ring |].
    split; [unfold S; entries_compute; ring |].
    split; [unfold S; entries_compute; ring |].
    split; [unfold S; entries_compute; ring |].
    pose proof (Happ S H00 H01 H11 H22 H23 H33) as Hemit.
    split; [| exact Hemit].
    unfold twiss2D. rewrite Hemit. cbn [bind fst snd].
    rewrite H00, H01, H22, H23.
    rewrite !py_div_ok by lra. cbn [bind].
    repeat f_equal; field; lra.
Qed.

Lemma get_cov_uncoupled_round_trip_witness :
  exists S,
    reconstruct_locals.get_cov 2 3 1 (-1) 4 5 0 0 0 = Ok S /\
    symmetric4 S /\
    get S 0 2 = 0 /\ get S 0 3 = 0 /\ get S 1 2 = 0 /\ get S 1 3 = 0 /\
    twiss2D S = Ok (1, -1, 4, 5) /\
    apparent_emittances S = Ok (2, 3).
Proof.
  apply (get_cov_uncoupled_round_trip 2 3 1 (-1) 4 5); lra.
Defined.

(** X25.  Whenever [get_cov] returns, the matrix it returns is
    symmetric. *)
Theorem get_cov_symmetric
    (eps_1 eps_2 alpha_x alpha_y beta_x beta_y a b c : R) (S : Matrix) :
  reconstruct_locals.get_cov eps_1 eps_2 alpha_x alpha_y beta_x beta_y a b c = Ok S ->
  symmetric4 S.
Proof.
  unfold reconstruct_locals.get_cov, reconstruct_locals.normalization_matrix.
  destruct (py_sqrt beta_x) as [sx | e]; cbn [bind]; [| discriminate].
  destruct (py_div (- alpha_x) sx) as [v10 | e]; cbn [bind]; [| discriminate].
  destruct (py_div 1 sx) as [v11 | e]; cbn [bind]; [| discriminate].
  destruct (py_sqrt beta_y) as [sy | e]; cbn [bind]; [| discriminate].
  destruct (py_div (- alpha_y) sy) as [v32 | e]; cbn [bind]; [| discriminate].
  destruct (py_div 1 sy) as [v33 | e]; cbn [bind]; [| discriminate].
  destruct (reconstruct_locals.coupling_d a b c) as [d | e]; cbn [bind]; [| discriminate].
  intros H. injection H as <-.
  intros i j Hi Hj.
  destruct i as [| [| [| [| i]]]]; try lia;
    destruct j as [| [| [| [| j]]]]; try lia;
    entries_compute; ring.
Qed.

Lemma get_cov_symmetric_witness :
  exists S,
    reconstruct_locals.get_cov 2 3 1 (-1) 4 5 0 0 0 = Ok S /\ symmetric4 S.
Proof.
  assert (H : exists S, reconstruct_locals.get_cov 2 3 1 (-1) 4 5 0 0 0 = Ok S).
  { unfold reconstruct_locals.get_cov.
    rewrite normalization_matrix_value by lra. cbn [bind].
    rewrite coupling_d_zero by auto. cbn [bind]. eexists. reflexivity. }
  destruct H as [S HS]. exists S. split; [exact HS |].
  exact (get_cov_symmetric 2 3 1 (-1) 4 5 0 0 0 S HS).
Defined.
